(** * ShapeShifter path engine: CommandState and PathMutator

    A shallow embedding of [commands/CommandState.ts] and
    [commands/PathMutator.ts], with the [Calculator] interface and its
    [PointCalculator] implementation, and the properties of the
    specification proved about them, followed by further properties of
    the same code.

    Conventions of the embedding.
    - A JavaScript [number] holding a curve parameter is written by its
      value, a rational in canonical form ([Qc]): every finite binary64
      float is one, and [===] and [<] on floats are equality and order of
      the values. What [+], [-], [*] and [/] give is said by an [Arith]:
      [binary64] rounds as IEEE 754 does and is the arithmetic of the
      program, [exact] does not round. A property holds for every
      arithmetic unless it names one; the examples run in [binary64].
      [NaN] comes up only where [undefined] enters a computation, and is
      written [None]. Indices and offsets are integers ([Z]), so a
      negative index is a value the functions can receive.
    - A JavaScript exception ends a computation with [Err]. Reading
      [undefined] where the TypeScript type promises a value, and then
      storing it or computing with it, ends the computation with
      [Err UndefinedValue]: the program would go on with [NaN] or
      [undefined], which the typed model does not follow.
    - [_.uniqueId] and [console.warn] act on a [World] that is passed
      along explicitly. *)

From Stdlib Require Import QArith Qcanon SpecFloat.
From stdpp Require Import base tactics option list sorting gmap strings pretty.

Open Scope Z_scope.

(** ** Numbers *)

Abbreviation number := Qc.

(** [a < b] and [a === b] on numbers. *)
Definition num_lt (a b : number) : bool :=
  match (a ?= b)%Qc with Lt => true | _ => false end.

Definition num_eq (a b : number) : bool := Qc_eq_bool a b.

(** [Math.min(a, b)] and [Math.max(a, b)]. *)
Definition num_min (a b : number) : number := if num_lt b a then b else a.
Definition num_max (a b : number) : number := if num_lt a b then b else a.

(** [a + b], [a - b], [a * b] and [a / b]. *)
Class Arith := {
  num_add : number → number → number;
  num_sub : number → number → number;
  num_mul : number → number → number;
  num_div : number → number → number;
}.

(** Arithmetic that does not round. *)
Definition exact : Arith :=
  {| num_add := Qcplus; num_sub := Qcminus; num_mul := Qcmult; num_div := Qcdiv |}.

(** The arithmetic of JavaScript: IEEE 754 binary64, rounding to nearest
    with ties to even, by the Standard Library's [SpecFloat]. An operation
    takes its operands to the floats that have their values, and the float
    it gives back to its value. No operation below divides by zero or
    leaves the range of the finite floats; an infinity or a [NaN] would
    read as 0. *)
Module Binary64.
Definition prec : Z := 53.
Definition emax : Z := 1024.

Definition of_Z (z : Z) : spec_float := binary_normalize prec emax z 0 false.

(** The float that has the value [q], when there is one: the quotient of
    two integers that are floats, rounded to the nearest float. *)
Definition of_number (q : number) : spec_float :=
  SFdiv prec emax (of_Z (Qnum q)) (of_Z (Z.pos (Qden q))).

Definition to_number (f : spec_float) : number :=
  match f with
  | S754_finite s m e =>
      let m := cond_Zopp s (Z.pos m) in
      Q2Qc (Qred match e with
                  | Z0 => m # 1
                  | Z.pos p => m * 2 ^ Z.pos p # 1
                  | Z.neg p => m # 2 ^ p
                  end)
  | _ => 0%Qc
  end.

Definition op (f : spec_float → spec_float → spec_float) (a b : number) : number :=
  to_number (f (of_number a) (of_number b)).

Definition arith : Arith :=
  {| num_add := op (SFadd prec emax);
     num_sub := op (SFsub prec emax);
     num_mul := op (SFmul prec emax);
     num_div := op (SFdiv prec emax) |}.

(** The value of a decimal literal of the program: [double (3 # 10)] is
    that of its [0.3], the float nearest to three tenths. *)
Definition double (q : Q) : number := to_number (of_number (Q2Qc q)).
End Binary64.

Abbreviation binary64 := Binary64.arith.
#[global] Existing Instance Binary64.arith.

(** ** Results, errors and the world *)

Inductive Error :=
  | TypeError                 (* property read on undefined *)
  | Thrown (msg : string)     (* throw new Error(msg) *)
  | UndefinedValue.           (* undefined or NaN entered a typed value *)

Inductive Result (A : Type) :=
  | Ok (a : A)
  | Err (e : Error).
Arguments Ok {A} a.
Arguments Err {A} e.

Record World := mkWorld {
  idCounter : N;               (* lodash's counter behind _.uniqueId *)
  console : list string;       (* lines written by console.warn *)
}.

Definition Eff (A : Type) : Type := World → Result (A * World).

Definition ret {A} (a : A) : Eff A := λ w, Ok (a, w).

Definition bind {A B} (c : Eff A) (k : A → Eff B) : Eff B :=
  λ w, match c w with
       | Ok (a, w') => k a w'
       | Err e => Err e
       end.

Definition throw {A} (e : Error) : Eff A := λ _, Err e.

Definition lift {A} (r : Result A) : Eff A :=
  λ w, match r with Ok a => Ok (a, w) | Err e => Err e end.

Notation "x <~ c ;; k" := (bind c (λ x, k))
  (at level 100, c at next level, right associativity).

Definition rbind {A B} (r : Result A) (k : A → Result B) : Result B :=
  match r with Ok a => k a | Err e => Err e end.

Notation "x <~~ r ;; k" := (rbind r (λ x, k))
  (at level 100, r at next level, right associativity).

(** [arr.map((x, i) => f(i, x))] for an [f] that may throw: the first
    failure ends the loop. [i] is the index of the head of [l]. *)
Fixpoint imapResult {A B} (f : nat → A → Result B) (i : nat) (l : list A)
    : Result (list B) :=
  match l with
  | [] => Ok []
  | a :: rest =>
      b <~~ f i a ;;
      bs <~~ imapResult f (S i) rest ;;
      Ok (b :: bs)
  end.

Definition mapResult {A B} (f : A → Result B) (l : list A) : Result (list B) :=
  imapResult (λ _, f) 0 l.

(** [_.uniqueId()]: increments the counter and returns it in decimal. *)
Definition uniqueId : Eff string :=
  λ w, let n := N.succ (idCounter w) in
       Ok (pretty n, mkWorld n (console w)).

(** [console.warn(msg, ...)]. *)
Definition warn (msg : string) : Eff unit :=
  λ w, Ok (tt, mkWorld (idCounter w) (console w ++ [msg])).

(** ** Arrays *)

(** [arr[i]] for an integer [i]: [None] is JavaScript's [undefined]. *)
Definition at_index {A} (l : list A) (i : Z) : option A :=
  if i <? 0 then None else l !! Z.to_nat i.

(** [arr.splice(i, 0, x)] for [0 <= i]. *)
Definition splice_insert {A} (i : nat) (x : A) (l : list A) : list A :=
  take i l ++ x :: drop i l.

(** [arr.splice(i, 1)]: a negative [i] counts from the end of the array. *)
Definition splice_remove {A} (i : Z) (l : list A) : list A :=
  let len := Z.of_nat (length l) in
  let start := if i <? 0 then Z.max (len + i) 0 else Z.min i len in
  delete (Z.to_nat start) l.

(** Where [arr.splice(start, ...)] begins on an array of [len] elements: a
    negative [start] counts from the end, and the result is clamped to the
    array. *)
Definition splice_start (len : nat) (start : Z) : nat :=
  Z.to_nat (if start <? 0 then Z.max (Z.of_nat len + start) 0
            else Z.min start (Z.of_nat len)).

(** [arr.splice(start, deleteCount)]: the count is clamped to what is left
    of the array from [start]. *)
Definition splice_delete {A} (start deleteCount : Z) (l : list A) : list A :=
  let s := splice_start (length l) start in
  let c := Z.to_nat (Z.min (Z.max deleteCount 0) (Z.of_nat (length l - s))) in
  take s l ++ drop (s + c) l.

(** ** lodash's sorted index

    [_.sortedIndex] and [_.sortedIndexBy] run the same binary search on
    numbers: [low = 0], [high = length], and while [low < high] the middle
    element is compared with the value. The loop runs at most
    [high - low] times, which is the fuel given to it. *)
Fixpoint sortedIndex_loop (fuel : nat) (arr : list number) (value : number)
    (low high : nat) : nat :=
  match fuel with
  | O => high
  | S fuel' =>
      if (low <? high)%nat then
        let mid := ((low + high) / 2)%nat in
        match arr !! mid with
        | Some computed =>
            if num_lt computed value
            then sortedIndex_loop fuel' arr value (S mid) high
            else sortedIndex_loop fuel' arr value low mid
        | None => sortedIndex_loop fuel' arr value low mid
        end
      else high
  end.

Definition sortedIndex (arr : list number) (value : number) : nat :=
  sortedIndex_loop (length arr) arr value 0 (length arr).

Definition sortedIndexBy {A} (arr : list A) (value : A) (iteratee : A → number) : nat :=
  sortedIndex (iteratee <$> arr) (iteratee value).

Definition sorted_numbers (l : list number) : Prop := StronglySorted Qcle l.

(** Modelled from the spec: [MathUtil.lerp(a, b, t)], [MathUtil] not being
    among the sources; the spec has the new parameters "linearly
    interpolated between the two existing split boundaries", which is
    [a + (b - a) * t]. *)
Definition lerp {ar : Arith} (a b t : number) : number :=
  num_add a (num_mul (num_sub b a) t).

(** [lerp] when a boundary was read out of range: an [undefined] operand
    makes the result [NaN], written [None]. *)
Definition lerp_undefined {ar : Arith} (a b : option number) (t : number)
    : option number :=
  match a, b with
  | Some a, Some b => Some (lerp a b t)
  | _, _ => None
  end.

(** ** Commands *)

Module SvgChar.
Inductive t := M | L | Q | C | Z.
End SvgChar.

#[global] Instance SvgChar_eq_dec : EqDecision SvgChar.t.
Proof. solve_decision. Defined.

Record Point := mkPoint { x : number; y : number }.

(** Modelled from the spec: [CommandImpl] is not among the sources. A
    command has a kind, its points, a split flag and an id; its start and
    end are its first and last point, either of which may be [undefined]
    (the start of a path's first command is). *)
Record Command := mkCommand {
  cmd_svgChar : SvgChar.t;
  cmd_points : list (option Point);
  cmd_isSplit : bool;
  cmd_id : string;
}.

(** Modelled from the spec: the getters of [CommandImpl]; the start is the
    first point and the end the last. *)
Definition getSvgChar (c : Command) : SvgChar.t := cmd_svgChar c.
Definition getId (c : Command) : string := cmd_id c.
Definition getPoints (c : Command) : list (option Point) := cmd_points c.
Definition getStart (c : Command) : option Point := mjoin (head (cmd_points c)).
Definition getEnd (c : Command) : option Point := mjoin (last (cmd_points c)).

(** Modelled from the spec: the builder of [CommandImpl], each setter
    followed by [build]: [cmd.mutate().setPoints(...pts)], [.setId(id)],
    [.toggleSplit()] (the "is a split boundary" flag). *)
Definition setPoints (pts : list (option Point)) (c : Command) : Command :=
  mkCommand (cmd_svgChar c) pts (cmd_isSplit c) (cmd_id c).
Definition setId (id : string) (c : Command) : Command :=
  mkCommand (cmd_svgChar c) (cmd_points c) (cmd_isSplit c) id.
Definition toggleSplit (c : Command) : Command :=
  mkCommand (cmd_svgChar c) (cmd_points c) (negb (cmd_isSplit c)) (cmd_id c).

(** Modelled from the spec: [new CommandBuilder(svgChar, points).build()];
    the id is left empty, [CommandStateMutator.build] sets it right
    after. *)
Definition CommandBuilder (svgChar : SvgChar.t) (points : list Point) : Command :=
  mkCommand svgChar (Some <$> points) false "".

(** Modelled from the spec: [newCommand(svgChar, points)], a command with
    a stable id of its own, drawn from [_.uniqueId]. *)
Definition newCommand (svgChar : SvgChar.t) (points : list (option Point)) : Eff Command :=
  id <~ uniqueId ;; ret (mkCommand svgChar points false id).

(** ** Calculators *)

Record ProjectionResult := mkProjectionResult {
  pr_x : number; pr_y : number; pr_t : number; pr_d : number;
}.

(** The [ProjectionResult] that [CommandState.project] hands on: that of
    the calculator with its [t] overwritten by the remapped one, which is
    [NaN], written [None], when a boundary it is computed from is
    [undefined]. *)
Record RemappedResult := mkRemappedResult {
  rr_x : number; rr_y : number; rr_t : option number; rr_d : number;
}.

(** The [Calculator] interface, as far as [CommandState] calls it, with
    the factory [newCalculator]. *)
Class Calculator (Calc : Type) := {
  calc_project : Calc → Point → option ProjectionResult;
  calc_split : Calc → number → number → Calc;
  calc_convert : Calc → SvgChar.t → Calc;
  calc_findTimeByDistance : Calc → number → number;
  calc_toCommand : Calc → Result Command;
  newCalculator : Command → Calc;
}.

(** [PointCalculator]: the calculator of a command whose points coincide. *)
Record PointCalculator := mkPointCalculator {
  pc_svgChar : SvgChar.t;
  pc_point : Point;
}.

Module PointCalculator.
Section WithDistance.
(** [MathUtil.distance], which is not among the sources: a parameter. *)
Variable distance : Point → Point → number.

Definition project (this : PointCalculator) (point : Point) : option ProjectionResult :=
  Some (mkProjectionResult (x (pc_point this)) (y (pc_point this)) (Q2Qc (1 # 2))
          (distance (pc_point this) point)).

Definition split (this : PointCalculator) (t1 t2 : number) : PointCalculator :=
  mkPointCalculator (pc_svgChar this) (pc_point this).

Definition convert (this : PointCalculator) (svgChar : SvgChar.t) : PointCalculator :=
  mkPointCalculator svgChar (pc_point this).

Definition findTimeByDistance (this : PointCalculator) (distance : number) : number :=
  distance.

Definition toCommand (this : PointCalculator) : Result Command :=
  let p := pc_point this in
  match pc_svgChar this with
  | SvgChar.L | SvgChar.Z => Ok (CommandBuilder (pc_svgChar this) [p; p])
  | SvgChar.Q => Ok (CommandBuilder (pc_svgChar this) [p; p; p])
  | SvgChar.C => Ok (CommandBuilder (pc_svgChar this) [p; p; p; p])
  | SvgChar.M => Err (Thrown "Invalid command type: M")
  end.

(** Modelled from the spec: the factory [newCalculator] ("selected by a
    factory keyed on kind"), which is not among the sources, restricted to
    this variant: the calculator of a command at its end point. *)
Definition ofCommand (cmd : Command) : PointCalculator :=
  mkPointCalculator (getSvgChar cmd) (default (mkPoint 0 0) (getEnd cmd)).

Definition calculator : Calculator PointCalculator :=
  {| calc_project := project;
     calc_split := split;
     calc_convert := convert;
     calc_findTimeByDistance := findTimeByDistance;
     calc_toCommand := toCommand;
     newCalculator := ofCommand |}.
End WithDistance.
End PointCalculator.

(** ** CommandState *)

Record Mutation := mkMutation {
  mut_id : string;
  mut_t : number;
  mut_svgChar : SvgChar.t;
}.

(** Modelled from the spec: [Matrix] is not among the sources; an affine
    matrix, the identity by default. *)
Record Matrix := mkMatrix { ma : number; mb : number; mc : number;
                            md : number; me : number; mf : number }.
Definition identityMatrix : Matrix := mkMatrix 1 0 0 1 0 0.

Section CommandState.
Context {Calc : Type} `{Calculator Calc} {ar : Arith}.

Record CommandState := mkCommandState {
  backingCommand : Command;
  commands : list Command;
  mutations : list Mutation;
  transforms : list Matrix;
  calculator : Calc;
  minT : number;
  maxT : number;
}.

(** [new CommandState(backingCommand)] with the default arguments. *)
Definition newCommandState (backingCommand : Command) : CommandState :=
  {| backingCommand := backingCommand;
     commands := [backingCommand];
     mutations := [mkMutation (getId backingCommand) 1 (getSvgChar backingCommand)];
     transforms := [identityMatrix];
     calculator := newCalculator backingCommand;
     minT := 0;
     maxT := 1 |}.

Definition getCommands (cs : CommandState) : list Command := commands cs.

(** [getIdAtIndex(splitIdx)]: [this.mutations[splitIdx].id]. *)
Definition getIdAtIndex (cs : CommandState) (splitIdx : Z) : Result string :=
  match at_index (mutations cs) splitIdx with
  | None => Err TypeError
  | Some mutation => Ok (mut_id mutation)
  end.

(** [_.chain(xs).map(f).sum().value()]. *)
Definition sum (xs : list Z) : Z := foldr Z.add 0 xs.

(** [startSplit === endSplit ? 0 : (t - startSplit) / (endSplit - startSplit)];
    [None] is [undefined] for a boundary and [NaN] for the result: a
    boundary that is [undefined] is equal to nothing but [undefined], and
    makes the quotient [NaN]. *)
Definition remap (startSplit endSplit : option number) (t : number) : option number :=
  match startSplit, endSplit with
  | None, None => Some 0%Qc
  | Some s, Some e =>
      if num_eq s e then Some 0%Qc else Some (num_div (num_sub t s) (num_sub e s))
  | _, _ => None
  end.

(** [project(point)]; [None] is [undefined]. *)
Definition project (cs : CommandState) (point : Point) : option (RemappedResult * Z) :=
  match calc_project (calculator cs) point with
  | None => None
  | Some projectionResult =>
      let splitIdx :=
        sum ((λ mutation, if num_lt (mut_t mutation) (pr_t projectionResult)
                          then 1 else 0) <$> mutations cs) in
      let tempSplits := minT cs :: (mut_t <$> mutations cs) in
      let startSplit := at_index tempSplits splitIdx in
      let endSplit := at_index tempSplits (splitIdx + 1) in
      Some (mkRemappedResult (pr_x projectionResult) (pr_y projectionResult)
              (remap startSplit endSplit (pr_t projectionResult))
              (pr_d projectionResult), splitIdx)
  end.

(** *** CommandStateMutator

    The builder of [CommandState]. [addTransforms] and [setTransforms] are
    left out: they rest on [Matrix.flatten] and on the transform of a
    command, neither of which is among the sources, and no property below
    involves them. *)

Record CommandStateMutator := mkMutator {
  m_backingCommand : Command;
  m_mutations : list Mutation;
  m_transforms : list Matrix;
  m_calculator : Calc;
  m_minT : number;
  m_maxT : number;
}.

Definition mutate (cs : CommandState) : CommandStateMutator :=
  mkMutator (backingCommand cs) (mutations cs) (transforms cs)
            (calculator cs) (minT cs) (maxT cs).

Definition setMutations (ms : list Mutation) (m : CommandStateMutator) :=
  mkMutator (m_backingCommand m) ms (m_transforms m) (m_calculator m)
            (m_minT m) (m_maxT m).

Definition forkLeft (m : CommandStateMutator) (splitIdx : Z) : Result CommandStateMutator :=
  match at_index (m_mutations m) splitIdx with
  | None => Err TypeError
  | Some mu =>
      Ok (mkMutator (m_backingCommand m)
            (take (Z.to_nat (splitIdx + 1)) (m_mutations m))
            (m_transforms m) (m_calculator m) (m_minT m) (mut_t mu))
  end.

Definition forkRight (m : CommandStateMutator) (splitIdx : Z) : Result CommandStateMutator :=
  match at_index (m_mutations m) splitIdx with
  | None => Err TypeError
  | Some mu =>
      Ok (mkMutator (m_backingCommand m)
            (drop (Z.to_nat (splitIdx + 1)) (m_mutations m))
            (m_transforms m) (m_calculator m) (mut_t mu) (m_maxT m))
  end.

(** The loop of [merge]: the id set is computed once, before the loop. *)
Fixpoint merge_loop (mutationIds : gset string) (otherMutations : list Mutation)
    (mutations : list Mutation) : Eff (list Mutation) :=
  match otherMutations with
  | [] => ret mutations
  | mut :: rest =>
      _ <~ (if decide (mut_id mut ∈ mutationIds)
            then warn "merged command states have conflicting ids"
            else ret tt) ;;
      let insertionIdx := sortedIndexBy mutations mut mut_t in
      merge_loop mutationIds rest (splice_insert insertionIdx mut mutations)
  end.

Definition merge (m : CommandStateMutator) (cs : CommandState) : Eff CommandStateMutator :=
  let minT' := num_min (m_minT m) (minT cs) in
  let maxT' := num_max (m_maxT m) (maxT cs) in
  let mutationIds : gset string := list_to_set (mut_id <$> m_mutations m) in
  ms <~ merge_loop mutationIds (mutations cs) (m_mutations m) ;;
  ret (mkMutator (m_backingCommand m) ms (m_transforms m) (m_calculator m) minT' maxT').

(** The first loop of [split]: [currSplits] and [currSvgChars] are taken
    before the loop and stay as they are. *)
Fixpoint split_loop (currSplits : list number) (currSvgChars : list SvgChar.t)
    (ts : list (option number)) (mutations : list Mutation) : Eff (list Mutation) :=
  match ts with
  | [] => ret mutations
  | t :: rest =>
      id <~ uniqueId ;;
      match t with
      | None => throw UndefinedValue
      | Some t =>
          match currSvgChars !! sortedIndex currSplits t with
          | None => throw UndefinedValue
          | Some svgChar =>
              let mutation := mkMutation id t svgChar in
              let insertionIdx := sortedIndexBy mutations mutation mut_t in
              split_loop currSplits currSvgChars rest
                (splice_insert insertionIdx mutation mutations)
          end
      end
  end.

(** The second loop of [split]: every closepath but the last becomes a
    line. *)
Definition forceLines (mutations : list Mutation) : list Mutation :=
  imap (λ i mutation,
          if bool_decide (i < length mutations - 1)%nat
             && bool_decide (mut_svgChar mutation = SvgChar.Z)
          then mkMutation (mut_id mutation) (mut_t mutation) SvgChar.L
          else mutation) mutations.

Definition split (m : CommandStateMutator) (ts : list (option number))
    : Eff CommandStateMutator :=
  if bool_decide (ts = []) || bool_decide (getSvgChar (m_backingCommand m) = SvgChar.M)
  then ret m
  else
    let currSplits := mut_t <$> m_mutations m in
    let currSvgChars := mut_svgChar <$> m_mutations m in
    ms <~ split_loop currSplits currSvgChars ts (m_mutations m) ;;
    ret (setMutations (forceLines ms) m).

Definition splitAtIndex (m : CommandStateMutator) (splitIdx : Z) (ts : list number)
    : Eff CommandStateMutator :=
  let tempSplits := m_minT m :: (mut_t <$> m_mutations m) in
  let startSplit := at_index tempSplits splitIdx in
  let endSplit := at_index tempSplits (splitIdx + 1) in
  split m ((λ t, lerp_undefined startSplit endSplit t) <$> ts).

Definition splitInHalfAtIndex (m : CommandStateMutator) (splitIdx : Z)
    : Eff CommandStateMutator :=
  let tempSplits := m_minT m :: (mut_t <$> m_mutations m) in
  let startSplit := at_index tempSplits splitIdx in
  let endSplit := at_index tempSplits (splitIdx + 1) in
  let distance := lerp_undefined startSplit endSplit (Q2Qc (1 # 2)) in
  split m [calc_findTimeByDistance (m_calculator m) <$> distance].

Definition unsplitAtIndex (m : CommandStateMutator) (splitIdx : Z) : CommandStateMutator :=
  setMutations (splice_remove splitIdx (m_mutations m)) m.

(** [convertAtIndex(splitIdx, svgChar)]. With an index that names no
    mutation the program does not stop: [_.assign({}, undefined, {svgChar})]
    is a mutation that has a kind and neither id nor parameter, and it is
    stored at that index. The typed list has no place for it, and the
    model ends there with [UndefinedValue]; the properties below that
    speak of a conversion take an index that names a mutation. *)
Definition convertAtIndex (m : CommandStateMutator) (splitIdx : Z) (svgChar : SvgChar.t)
    : Result CommandStateMutator :=
  match at_index (m_mutations m) splitIdx with
  | None => Err UndefinedValue
  | Some mu =>
      Ok (setMutations
            (<[Z.to_nat splitIdx := mkMutation (mut_id mu) (mut_t mu) svgChar]>
               (m_mutations m)) m)
  end.

Definition unconvertSubpath (m : CommandStateMutator) : CommandStateMutator :=
  let backingSvgChar := getSvgChar (m_backingCommand m) in
  setMutations
    (imap (λ i mutation,
             let svgChar :=
               if bool_decide (backingSvgChar = SvgChar.Z)
                  && negb (bool_decide (i = length (m_mutations m) - 1)%nat)
               then SvgChar.L else backingSvgChar in
             mkMutation (mut_id mutation) (mut_t mutation) svgChar)
          (m_mutations m)) m.

Definition revert (m : CommandStateMutator) : Result CommandStateMutator :=
  match last (m_mutations m) with
  | None => Err TypeError
  | Some lastMutation =>
      Ok (mkMutator (m_backingCommand m)
            [mkMutation (mut_id lastMutation) (m_maxT m)
                        (getSvgChar (m_backingCommand m))]
            [identityMatrix]
            (newCalculator (m_backingCommand m))
            (m_minT m) (m_maxT m))
  end.

(** The loop of [build]: one command per mutation, every command but the
    last marked as a split. *)
Fixpoint build_loop (calc : Calc) (prevT : number) (mutations : list Mutation)
    : Result (list Command) :=
  match mutations with
  | [] => Ok []
  | mutation :: rest =>
      let currT := mut_t mutation in
      cmd <~~ calc_toCommand
                (calc_convert (calc_split calc prevT currT) (mut_svgChar mutation)) ;;
      let commandBuilder := setId (mut_id mutation) cmd in
      let built := if bool_decide (rest = []) then commandBuilder
                   else toggleSplit commandBuilder in
      builtCommands <~~ build_loop calc currT rest ;;
      Ok (built :: builtCommands)
  end.

Definition build (m : CommandStateMutator) : Result CommandState :=
  builtCommands <~~ build_loop (m_calculator m) (m_minT m) (m_mutations m) ;;
  Ok (mkCommandState (m_backingCommand m) builtCommands (m_mutations m)
        (m_transforms m) (m_calculator m) (m_minT m) (m_maxT m)).

Definition fork (cs : CommandState) (splitIdx : Z) : Result (CommandState * CommandState) :=
  left <~~ (l <~~ forkLeft (mutate cs) splitIdx ;; build l) ;;
  right <~~ (r <~~ forkRight (mutate cs) splitIdx ;; build r) ;;
  Ok (left, right).
End CommandState.

Arguments CommandState Calc : clear implicits.
Arguments CommandStateMutator Calc : clear implicits.

(** ** SubPathState

    [SubPathState.ts] is not among the sources; what [PathMutator] uses of
    it is modelled from the spec. *)
Section SubPathState.
Context {Calc : Type}.

(** Modelled from the spec: [SubPathState], which is not among the
    sources. A node owns its command states, a reversal flag, a shift
    offset, an id and the sub-paths it has been divided into. *)
#[warnings="-register-all"]
Inductive SubPathState := mkSubPathState {
  commandStates : list (CommandState Calc);
  isReversed : bool;
  shiftOffset : Z;
  sps_id : string;
  splitSubPaths : list SubPathState;
}.

(** Modelled from the spec: [isSplit()]; a node is a leaf when it has not
    been divided. *)
Definition isSplit (node : SubPathState) : bool :=
  bool_decide (splitSubPaths node ≠ []).

(** Modelled from the spec: [flattenSubPathStates], the leaves of the
    forest in document order. *)
Fixpoint flattenNode (node : SubPathState) : list SubPathState :=
  match node with
  | mkSubPathState _ _ _ _ [] => [node]
  | mkSubPathState _ _ _ _ children =>
      (fix recurseFn (currentLevel : list SubPathState) : list SubPathState :=
         match currentLevel with
         | [] => []
         | state :: rest => flattenNode state ++ recurseFn rest
         end) children
  end.

Definition flattenSubPathStates (map : list SubPathState) : list SubPathState :=
  map ≫= flattenNode.

(** Modelled from the spec: [findSubPathState] and [countSubPathStates];
    [cmsIdx] is the index of a leaf in document order. *)
Definition findSubPathState (map : list SubPathState) (cmsIdx : Z) : option SubPathState :=
  at_index (flattenSubPathStates map) cmsIdx.

Definition countSubPathStates (map : list SubPathState) : Z :=
  Z.of_nat (length (flattenSubPathStates map)).

(** [_.sum(sps.commandStates.map(cm => cm.getCommands().length))]. *)
Definition numCommandsInSubPath (sps : SubPathState) : Z :=
  sum ((λ cm, Z.of_nat (length (getCommands cm))) <$> commandStates sps).

(** Modelled from the spec: [new SubPathState(commandStates)], a leaf that
    is neither reversed nor shifted, with a stable id of its own drawn from
    [_.uniqueId]. *)
Definition newSubPathState (css : list (CommandState Calc)) : Eff SubPathState :=
  id <~ uniqueId ;; ret (mkSubPathState css false 0 id []).
End SubPathState.

Arguments SubPathState Calc : clear implicits.

(** [SubPathStateMutator], which is not among the sources either: each
    setter below stands for the setter followed by [build]. *)
Module SubPathStateMutator.
Section Setters.
Context {Calc : Type}.
Abbreviation SubPathState := (SubPathState Calc).

(** Modelled from the spec: [setCommandStates(css)] replaces the command
    states of the node. *)
Definition setCommandStates (css : list (CommandState Calc)) (s : SubPathState) :=
  mkSubPathState css (isReversed s) (shiftOffset s) (sps_id s) (splitSubPaths s).

(** Modelled from the spec: [setCommandState(cs, cmIdx)] replaces one
    command state; it is only called with the [cmIdx] that
    [findCommandStateInfo] found, which is in range. *)
Definition setCommandState (cs : CommandState Calc) (cmIdx : nat) (s : SubPathState) :=
  setCommandStates (<[cmIdx := cs]> (commandStates s)) s.

(** Modelled from the spec: [setShiftOffset(n)] "sets the rotation
    pivot". *)
Definition setShiftOffset (n : Z) (s : SubPathState) :=
  mkSubPathState (commandStates s) (isReversed s) n (sps_id s) (splitSubPaths s).

(** Modelled from the spec: [setId(id)] gives the node a new stable id. *)
Definition setId (id : string) (s : SubPathState) :=
  mkSubPathState (commandStates s) (isReversed s) (shiftOffset s) id (splitSubPaths s).

(** Modelled from the spec: [setSplitSubPaths(children)] sets the
    sub-paths the node is divided into. A node that is given children
    "becomes internal (commandStates cleared, splitSubPaths populated)";
    one that is given none keeps its command states. *)
Definition setSplitSubPaths (children : list SubPathState) (s : SubPathState) :=
  mkSubPathState (match children with [] => commandStates s | _ => [] end)
                 (isReversed s) (shiftOffset s) (sps_id s) children.

End Setters.
End SubPathStateMutator.


(** ** PathMutator

    The operations the properties below are about: reversing, shifting
    and moving a sub-path, splitting, unsplitting and converting a
    command, splitting a stroked sub-path and joining it again, the
    collapsing sub-paths, [revert] and [build], with the helpers they
    call. [addTransforms] and [setTransforms] are left out, as they are
    for [CommandStateMutator]. *)

Module PathMutator.
Import SubPathStateMutator.
Section PathMutator.
Context {Calc : Type} `{Calculator Calc} {ar : Arith}.

(** [SubPathState.toSubPaths] followed by [getCommands], flattened: the
    commands a leaf reads out as. It belongs to the file that is not
    among the sources and only [build] calls it. *)
Variable toSubPathCommands : SubPathState Calc → list Command.

Record t := mk {
  subPathStateMap : list (SubPathState Calc);
  subPathOrdering : list Z;
  numCollapsingSubPaths : Z;
}.

(** Modelled from the spec: the snapshot [build] returns,
    [new PathImpl(new PathState(...))], by its four constructor
    arguments. *)
Record Path := mkPath {
  path_commands : list Command;
  path_subPathStateMap : list (SubPathState Calc);
  path_subPathOrdering : list Z;
  path_numCollapsingSubPaths : Z;
}.

(** [setStateFn] with its counter passed along. *)
Fixpoint setStateFn (state : SubPathState Calc) (cmsIdx : Z)
    (node : SubPathState Calc) (counter : Z) : SubPathState Calc * Z :=
  match node with
  | mkSubPathState _ _ _ _ [] =>
      (if counter =? cmsIdx then state else node, counter + 1)
  | mkSubPathState css rev off id children =>
      let '(children', counter') :=
        (fix mapFn (l : list (SubPathState Calc)) (c : Z) :=
           match l with
           | [] => ([], c)
           | s :: rest =>
               let '(s', c1) := setStateFn state cmsIdx s c in
               let '(rest', c2) := mapFn rest c1 in
               (s' :: rest', c2)
           end) children counter in
      (mkSubPathState css rev off id children', counter')
  end.

Fixpoint setStateAll (state : SubPathState Calc) (cmsIdx : Z)
    (map : list (SubPathState Calc)) (counter : Z) : list (SubPathState Calc) * Z :=
  match map with
  | [] => ([], counter)
  | s :: rest =>
      let '(s', c1) := setStateFn state cmsIdx s counter in
      let '(rest', c2) := setStateAll state cmsIdx rest c1 in
      (s' :: rest', c2)
  end.

Definition setSubPathState (pm : t) (state : SubPathState Calc) (cmsIdx : Z) : t :=
  mk (setStateAll state cmsIdx (subPathStateMap pm) 0).1
     (subPathOrdering pm) (numCollapsingSubPaths pm).

(** [this.findSubPathState(this.subPathOrdering[subIdx])], for the
    operations that read a property of the result at once: an index out
    of range ends in a [TypeError] on [undefined]. *)
Definition findOrdered (pm : t) (subIdx : Z) : Result (Z * SubPathState Calc) :=
  match at_index (subPathOrdering pm) subIdx with
  | None => Err TypeError
  | Some cmsIdx =>
      match findSubPathState (subPathStateMap pm) cmsIdx with
      | None => Err TypeError
      | Some sps => Ok (cmsIdx, sps)
      end
  end.





Record CommandStateInfo := mkInfo {
  targetCm : CommandState Calc;
  info_cmsIdx : Z;
  info_cmIdx : nat;
  info_splitIdx : Z;
}.

(** The scan at the end of [findCommandStateInfo]. *)
Fixpoint findTarget (cmsIdx cmdIdx : Z) (subPathCms : list (CommandState Calc))
    (counter : Z) (cmIdx : nat) : Result CommandStateInfo :=
  match subPathCms with
  | [] => Err (Thrown "Error retrieving command mutation")
  | targetCm :: rest =>
      let len := Z.of_nat (length (getCommands targetCm)) in
      if cmdIdx <? counter + len
      then Ok (mkInfo targetCm cmsIdx cmIdx (cmdIdx - counter))
      else findTarget cmsIdx cmdIdx rest (counter + len) (S cmIdx)
  end.

Definition findCommandStateInfo (pm : t) (subIdx cmdIdx : Z) : Result CommandStateInfo :=
  found <~~ findOrdered pm subIdx ;;
  let '(cmsIdx, sps) := found in
  let subPathCms := commandStates sps in
  let numCommandsInSubPath := numCommandsInSubPath sps in
  let cmdIdx := if negb (cmdIdx =? 0) && isReversed sps
                then numCommandsInSubPath - cmdIdx else cmdIdx in
  let cmdIdx := cmdIdx + shiftOffset sps in
  let cmdIdx := if numCommandsInSubPath <=? cmdIdx
                then cmdIdx - (numCommandsInSubPath - 1) else cmdIdx in
  findTarget cmsIdx cmdIdx subPathCms 0 0.

Definition getUpdatedShiftOffsetsAfterSplit (pm : t) (cmsIdx : Z) (cmIdx : nat)
    (numSplits : Z) : Result Z :=
  match findSubPathState (subPathStateMap pm) cmsIdx with
  | None => Err TypeError
  | Some sps =>
      if negb (shiftOffset sps =? 0) && (Z.of_nat cmIdx <=? shiftOffset sps)
      then Ok (shiftOffset sps + numSplits)
      else Ok (shiftOffset sps)
  end.

Definition splitCommand (pm : t) (subIdx cmdIdx : Z) (ts : list number) : Eff t :=
  if bool_decide (ts = []) then throw (Thrown "Must specify at least one t value")
  else
    info <~ lift (findCommandStateInfo pm subIdx cmdIdx) ;;
    let cmsIdx := info_cmsIdx info in
    let cmIdx := info_cmIdx info in
    shiftOffset <~ lift (getUpdatedShiftOffsetsAfterSplit pm cmsIdx cmIdx
                           (Z.of_nat (length ts))) ;;
    sps <~ lift (from_option Ok (Err TypeError)
                   (findSubPathState (subPathStateMap pm) cmsIdx)) ;;
    m <~ splitAtIndex (mutate (targetCm info)) (info_splitIdx info) ts ;;
    cs <~ lift (build m) ;;
    ret (setSubPathState pm
           (setCommandState cs cmIdx (setShiftOffset shiftOffset sps)) cmsIdx).

Definition splitCommandInHalf (pm : t) (subIdx cmdIdx : Z) : Eff t :=
  info <~ lift (findCommandStateInfo pm subIdx cmdIdx) ;;
  let cmsIdx := info_cmsIdx info in
  let cmIdx := info_cmIdx info in
  shiftOffset <~ lift (getUpdatedShiftOffsetsAfterSplit pm cmsIdx cmIdx 1) ;;
  sps <~ lift (from_option Ok (Err TypeError)
                 (findSubPathState (subPathStateMap pm) cmsIdx)) ;;
  m <~ splitInHalfAtIndex (mutate (targetCm info)) (info_splitIdx info) ;;
  cs <~ lift (build m) ;;
  ret (setSubPathState pm
         (setCommandState cs cmIdx (setShiftOffset shiftOffset sps)) cmsIdx).

(** The loop of [splitStrokedSubPath] over [commandStates]. *)
Fixpoint strokeLoop (cmIdx : nat) (splitIdx : Z) (i : nat)
    (commandStates : list (CommandState Calc))
    (startCommandStates endCommandStates : list (CommandState Calc))
    : Eff (list (CommandState Calc) * list (CommandState Calc)) :=
  match commandStates with
  | [] => ret (startCommandStates, endCommandStates)
  | cs :: rest =>
      if (i <? cmIdx)%nat then
        strokeLoop cmIdx splitIdx (S i) rest (startCommandStates ++ [cs]) endCommandStates
      else if (cmIdx <? i)%nat then
        strokeLoop cmIdx splitIdx (S i) rest startCommandStates (endCommandStates ++ [cs])
      else
        target <~ lift (from_option Ok (Err TypeError)
                          (at_index (getCommands cs) splitIdx)) ;;
        let splitPoint := getEnd target in
        found <~ lift (fork cs splitIdx) ;;
        let '(left_, right_) := found in
        seam <~ newCommand SvgChar.M [splitPoint; splitPoint] ;;
        let endCommandStates := endCommandStates ++ [newCommandState seam] in
        let endCommandStates :=
          if bool_decide (getCommands right_ ≠ [])
          then endCommandStates ++ [right_] else endCommandStates in
        strokeLoop cmIdx splitIdx (S i) rest (startCommandStates ++ [left_]) endCommandStates
  end.

Definition splitStrokedSubPath (pm : t) (subIdx cmdIdx : Z) : Eff t :=
  info <~ lift (findCommandStateInfo pm subIdx cmdIdx) ;;
  let cmsIdx := info_cmsIdx info in
  sps <~ lift (from_option Ok (Err TypeError)
                 (findSubPathState (subPathStateMap pm) cmsIdx)) ;;
  found <~
    strokeLoop (info_cmIdx info) (info_splitIdx info) 0 (commandStates sps) [] [] ;;
  let '(startCommandStates, endCommandStates) := found in
  id1 <~ uniqueId ;;
  id2 <~ uniqueId ;;
  let splitSubPaths :=
    [ setId id1 (setSplitSubPaths [] (setCommandStates startCommandStates sps));
      setId id2 (setSplitSubPaths [] (setCommandStates endCommandStates sps)) ] in
  let pm' := setSubPathState pm (setSplitSubPaths splitSubPaths sps) cmsIdx in
  ret (mk (subPathStateMap pm')
          (subPathOrdering pm' ++ [Z.of_nat (length (subPathOrdering pm'))])
          (numCollapsingSubPaths pm')).

(** [unsplitCommand]: the mutation that goes is the one before [splitIdx]
    on a reversed sub-path. The second [setSubPathState] re-reads the leaf
    the first one stored. *)
Definition unsplitCommand (pm : t) (subIdx cmdIdx : Z) : Result t :=
  info <~~ findCommandStateInfo pm subIdx cmdIdx ;;
  let cmsIdx := info_cmsIdx info in
  let cmIdx := info_cmIdx info in
  let splitIdx := info_splitIdx info in
  sps <~~ from_option Ok (Err TypeError) (findSubPathState (subPathStateMap pm) cmsIdx) ;;
  let isSubPathReversed := isReversed sps in
  cs <~~ build (unsplitAtIndex (mutate (targetCm info))
                  (if isSubPathReversed then splitIdx - 1 else splitIdx)) ;;
  let pm1 := setSubPathState pm (setCommandState cs cmIdx sps) cmsIdx in
  sps1 <~~ from_option Ok (Err TypeError) (findSubPathState (subPathStateMap pm1) cmsIdx) ;;
  let shiftOffset := shiftOffset sps1 in
  if negb (shiftOffset =? 0) && (Z.of_nat cmIdx <=? shiftOffset)
  then Ok (setSubPathState pm1 (setShiftOffset (shiftOffset - 1) sps1) cmsIdx)
  else Ok pm1.

Definition convertCommand (pm : t) (subIdx cmdIdx : Z) (svgChar : SvgChar.t) : Result t :=
  info <~~ findCommandStateInfo pm subIdx cmdIdx ;;
  let cmsIdx := info_cmsIdx info in
  sps <~~ from_option Ok (Err TypeError) (findSubPathState (subPathStateMap pm) cmsIdx) ;;
  m <~~ convertAtIndex (mutate (targetCm info)) (info_splitIdx info) svgChar ;;
  cs <~~ build m ;;
  Ok (setSubPathState pm (setCommandState cs (info_cmIdx info) sps) cmsIdx).

(** [unconvertSubPath]: the first command state, the sub-path's Move, is
    kept as it is. *)
Definition unconvertSubPath (pm : t) (subIdx : Z) : Result t :=
  found <~~ findOrdered pm subIdx ;;
  let '(cmsIdx, sps) := found in
  commandStates <~~
    imapResult (λ cmIdx cm, if bool_decide (cmIdx = 0%nat) then Ok cm
                            else build (unconvertSubpath (mutate cm)))
               0 (commandStates sps) ;;
  Ok (setSubPathState pm (setCommandStates commandStates sps) cmsIdx).

(** [moveSubPath]: the inner [splice(fromSubIdx, 1)] runs first. When it
    removes nothing, its [[0]] is [undefined] and the program does not
    stop: it puts [undefined] into the ordering. The list of integers has
    no place for it, and the model ends there with [UndefinedValue]; the
    properties below take a position that [splice] finds in the
    ordering. *)
Definition moveSubPath (pm : t) (fromSubIdx toSubIdx : Z) : Result t :=
  let ordering := subPathOrdering pm in
  let start := splice_start (length ordering) fromSubIdx in
  match ordering !! start with
  | None => Err UndefinedValue
  | Some cmsIdx =>
      let rest := delete start ordering in
      Ok (mk (subPathStateMap pm)
             (splice_insert (splice_start (length rest) toSubIdx) cmsIdx rest)
             (numCollapsingSubPaths pm))
  end.

(** [splitFilledSubPath] is not implemented: it returns the mutator. *)
Definition splitFilledSubPath (pm : t) (subIdx : Z) (start end_ : Z * number) : t := pm.

(** *** Joining a split sub-path again *)

(** The node [unsplitSubPath] builds from [p], the parent of the leaf it
    found: the command states of the first two children, joined at the
    seam. *)
Definition joinSplitSubPaths (p : SubPathState Calc) : Eff (SubPathState Calc) :=
  let itemsToRemove := splitSubPaths p in
  first <~ lift (from_option Ok (Err TypeError) (itemsToRemove !! 0%nat)) ;;
  second <~ lift (from_option Ok (Err TypeError) (itemsToRemove !! 1%nat)) ;;
  let css1 := commandStates first in
  let css2 := commandStates second in
  let head_ := take (length css1 - 1) css1 in
  let tail_ := drop 2 css2 in
  cs1 <~ lift (from_option Ok (Err TypeError) (last css1)) ;;
  cs2 <~ lift (from_option Ok (Err TypeError) (css2 !! 1%nat)) ;;
  middle <~ (if bool_decide (getId (backingCommand cs1) = getId (backingCommand cs2))
             then m <~ merge (mutate cs1) cs2 ;; cs <~ lift (build m) ;; ret [cs]
             else ret [cs1; cs2]) ;;
  ret (setSplitSubPaths [] (setCommandStates (head_ ++ middle ++ tail_) p)).

(** [recurseFn] with [counter] and [updatedParentNode] passed along. The
    [return] at the leaf counted [cmsIdx] leaves the loop over the
    children of [p] only; [cmsIdx] is [None] when the ordering had no
    entry at [subIdx]. *)
Fixpoint recurseFn (cmsIdx : option Z) (p : SubPathState Calc) (counter : Z)
    (updatedParentNode : option (SubPathState Calc)) {struct p}
    : Eff (Z * option (SubPathState Calc)) :=
  match p with
  | mkSubPathState _ _ _ _ children =>
      (fix loop (states : list (SubPathState Calc)) (counter : Z)
           (updatedParentNode : option (SubPathState Calc)) {struct states}
           : Eff (Z * option (SubPathState Calc)) :=
         match states with
         | [] => ret (counter, updatedParentNode)
         | state :: rest =>
             if negb (isSplit state) then
               if bool_decide (cmsIdx = Some counter)
               then node <~ joinSplitSubPaths p ;; ret (counter + 1, Some node)
               else loop rest (counter + 1) updatedParentNode
             else
               r <~ recurseFn cmsIdx state counter updatedParentNode ;;
               loop rest r.1 r.2
         end) children counter updatedParentNode
  end.

(** [updateParentFn(state.splitSubPaths)] seen from [state]: the first
    child with the id of [updatedParentNode] gives way to it, the children
    before it are searched in turn. *)
Fixpoint updateSplitSubPaths (updatedParentNode : SubPathState Calc)
    (state : SubPathState Calc) : SubPathState Calc :=
  match state with
  | mkSubPathState css rev off id children =>
      mkSubPathState css rev off id
        ((fix updateParentFn (states : list (SubPathState Calc)) :=
            match states with
            | [] => []
            | state :: rest =>
                if bool_decide (sps_id state = sps_id updatedParentNode)
                then updatedParentNode :: rest
                else updateSplitSubPaths updatedParentNode state :: updateParentFn rest
            end) children)
  end.

Fixpoint updateParentFn (updatedParentNode : SubPathState Calc)
    (states : list (SubPathState Calc)) : list (SubPathState Calc) :=
  match states with
  | [] => []
  | state :: rest =>
      if bool_decide (sps_id state = sps_id updatedParentNode)
      then updatedParentNode :: rest
      else updateSplitSubPaths updatedParentNode state
           :: updateParentFn updatedParentNode rest
  end.

(** The loop of [unsplitSubPath] over the roots, [n] of them left from
    index [i] on. [updateParentFn] runs after every root, and reads
    [updatedParentNode.id] as soon as there is a state to compare with. *)
Fixpoint unsplitLoop (cmsIdx : option Z) (n i : nat) (map : list (SubPathState Calc))
    (counter : Z) (updatedParentNode : option (SubPathState Calc))
    : Eff (list (SubPathState Calc)) :=
  match n with
  | O => ret map
  | S n' =>
      match map !! i with
      | None => ret map
      | Some parent =>
          r <~ recurseFn cmsIdx parent counter updatedParentNode ;;
          match r.2 with
          | None => throw TypeError
          | Some node => unsplitLoop cmsIdx n' (S i) (updateParentFn node map) r.1 r.2
          end
      end
  end.

Definition unsplitSubPath (pm : t) (subIdx : Z) : Eff t :=
  let cmsIdx := at_index (subPathOrdering pm) subIdx in
  map <~ unsplitLoop cmsIdx (length (subPathStateMap pm)) 0 (subPathStateMap pm) 0 None ;;
  let ordering := splice_remove subIdx (subPathOrdering pm) in
  let ordering :=
    (λ c, match cmsIdx with
          | Some cmsIdx => if cmsIdx <? c then c - 1 else c
          | None => c
          end) <$> ordering in
  ret (mk map ordering (numCollapsingSubPaths pm)).

(** *** Collapsing sub-paths *)

(** [SubPathState.toSubPaths] followed by [getCommands] on each sub-path;
    like [toSubPathCommands] it belongs to the file that is not among the
    sources. *)
Variable toSubPaths : SubPathState Calc → list (list Command).

(** The [numCommands - 1] degenerate lines of a collapsing sub-path. *)
Fixpoint collapsingLines (point : Point) (n : nat) : Eff (list (CommandState Calc)) :=
  match n with
  | O => ret []
  | S n' =>
      cmd <~ newCommand SvgChar.L [Some point; Some point] ;;
      rest <~ collapsingLines point n' ;;
      ret (newCommandState cmd :: rest)
  end.

Definition addCollapsingSubPath (pm : t) (point : Point) (numCommands : Z) : Eff t :=
  let numSubPathsBeforeAdd := countSubPathStates (subPathStateMap pm) in
  prevState <~ lift (from_option Ok (Err TypeError)
                       (findSubPathState (subPathStateMap pm) (numSubPathsBeforeAdd - 1))) ;;
  prevSubPath <~ lift (from_option Ok (Err TypeError) (last (toSubPaths prevState))) ;;
  prevCmd <~ lift (from_option Ok (Err TypeError) (last prevSubPath)) ;;
  move <~ newCommand SvgChar.M [getEnd prevCmd; Some point] ;;
  lines <~ collapsingLines point (Z.to_nat (numCommands - 1)) ;;
  sps <~ newSubPathState (newCommandState move :: lines) ;;
  ret (mk (subPathStateMap pm ++ [sps])
          (subPathOrdering pm ++ [numSubPathsBeforeAdd])
          (numCollapsingSubPaths pm + 1)).

(** [toSubIdxFn]: the first position of [cmsIdx] in the ordering. *)
Definition toSubIdxFn (subPathOrdering : list Z) (cmsIdx : Z) : Result Z :=
  match list_find (λ c, c = cmsIdx) subPathOrdering with
  | Some (subIdx, _) => Ok (Z.of_nat subIdx)
  | None => Err (Thrown ("Invalid cmsIdx: " +:+ pretty cmsIdx))
  end.

(** The last loop of [deleteCollapsingSubPaths]: for every [subIdx], the
    first [i] that [cmsIdxToSubIdxMap] sends to it. *)
Definition rebuildOrdering (cmsIdxToSubIdxMap : list Z) (numSubPathsBeforeDelete : Z)
    : list Z :=
  seqZ 0 numSubPathsBeforeDelete ≫= λ subIdx,
    match list_find (λ s, s = subIdx) cmsIdxToSubIdxMap with
    | Some (i, _) => [Z.of_nat i]
    | None => []
    end.

Definition deleteCollapsingSubPaths (pm : t) : Result t :=
  let numSubPathsBeforeDelete := countSubPathStates (subPathStateMap pm) in
  cmsIdxToSubIdxMap <~~
    mapResult (toSubIdxFn (subPathOrdering pm)) (seqZ 0 numSubPathsBeforeDelete) ;;
  let numCollapsingSubPathsBeforeDelete := numCollapsingSubPaths pm in
  let numSubPathsAfterDelete :=
    numSubPathsBeforeDelete - numCollapsingSubPathsBeforeDelete in
  let deleteCollapsingSubPathInfoFn {A} (arr : list A) :=
    splice_delete numSubPathsAfterDelete numCollapsingSubPathsBeforeDelete arr in
  Ok (mk (deleteCollapsingSubPathInfoFn (subPathStateMap pm))
         (rebuildOrdering (deleteCollapsingSubPathInfoFn cmsIdxToSubIdxMap)
            numSubPathsBeforeDelete)
         0).

(** [SubPathState]'s own [mutate().revert().build()], from the file that
    is not among the sources. *)
Variable revertSubPathState : SubPathState Calc → Result (SubPathState Calc).

Definition revert (pm : t) : Result t :=
  pm <~~ deleteCollapsingSubPaths pm ;;
  map <~~ mapResult revertSubPathState (subPathStateMap pm) ;;
  Ok (mk map (imap (λ i _, Z.of_nat i) (subPathOrdering pm)) (numCollapsingSubPaths pm)).

(** [pts[0] = p] on a copy of the points: an empty array grows. *)
Definition setFirst (p : option Point) (pts : list (option Point)) : list (option Point) :=
  match pts with
  | [] => [p]
  | _ :: rest => p :: rest
  end.

(** The [forEach] of [build] from index 1 on: [prev] is the command
    already stored at [i - 1]. *)
Fixpoint relink (prev : Command) (cmds : list Command) : list Command :=
  match cmds with
  | [] => []
  | cmd :: rest =>
      let pts := setFirst (getEnd prev) (getPoints cmd) in
      let cmd' := setPoints pts cmd in
      cmd' :: relink cmd' rest
  end.

Definition repairContinuity (reorderedCommands : list Command) : list Command :=
  match reorderedCommands with
  | [] => []
  | cmd :: rest =>
      let first := match getStart cmd with
                   | Some _ => setPoints [None; getEnd cmd] cmd
                   | None => cmd
                   end in
      first :: relink first rest
  end.

(** [reorderedSubPathCmds]: a missing entry stays [undefined] through
    [_.flatMap] and the [forEach] then fails on it. *)
Fixpoint reorder (subPathCmds : list (list Command)) (subPathOrdering : list Z)
    : Result (list (list Command)) :=
  match subPathOrdering with
  | [] => Ok []
  | i :: rest =>
      match at_index subPathCmds i with
      | None => Err TypeError
      | Some cmds => tl <~~ reorder subPathCmds rest ;; Ok (cmds :: tl)
      end
  end.

Definition build (pm : t) : Result Path :=
  let subPathStates := flattenSubPathStates (subPathStateMap pm) in
  let subPathCmds := toSubPathCommands <$> subPathStates in
  reorderedSubPathCmds <~~ reorder subPathCmds (subPathOrdering pm) ;;
  let reorderedCommands := concat reorderedSubPathCmds in
  Ok (mkPath (repairContinuity reorderedCommands) (subPathStateMap pm)
             (subPathOrdering pm) (numCollapsingSubPaths pm)).
End PathMutator.
End PathMutator.

(** ** Vocabulary of the properties *)

(** Every element of [arr] before index [k] is below [v]; no element from
    [k] on is. *)
Definition below (arr : list number) (v : number) (k : nat) : Prop :=
  ∀ i c, (i < k)%nat → arr !! i = Some c → (c < v)%Qc.

Definition not_below (arr : list number) (v : number) (k : nat) : Prop :=
  ∀ i c, (k ≤ i)%nat → arr !! i = Some c → (v <= c)%Qc.

(** A mutation list sorted ascending by [t]. *)
Definition sorted_by_t (ms : list Mutation) : Prop := sorted_numbers (mut_t <$> ms).

(** The split boundaries: [minT] and the mutations' [t] values. *)
Definition boundaries (minT : number) (ms : list Mutation) : list number :=
  minT :: (mut_t <$> ms).


(** The number of mutations whose [t] is strictly below [t]. *)
Definition countBelow (t : number) (ms : list Mutation) : nat :=
  length (List.filter (λ m, num_lt (mut_t m) t) ms).

(** No mutation but the last is a closepath; every mutation but the last
    is a line. *)
Definition no_close_before_last (ms : list Mutation) : Prop :=
  ∀ i mu, ms !! i = Some mu → (i < length ms - 1)%nat → mut_svgChar mu ≠ SvgChar.Z.

Definition lines_before_last (ms : list Mutation) : Prop :=
  ∀ i mu, ms !! i = Some mu → (i < length ms - 1)%nat → mut_svgChar mu = SvgChar.L.

(** The mutations of [other] whose id is among [ids]. *)
Definition conflicting (ids : gset string) (other : list Mutation) : list Mutation :=
  filter (λ mu, mut_id mu ∈ ids) other.

(** The invariant the data model states for a mutation list: sorted, the
    last mutation at [t = 1], and on a closepath every mutation but the
    last a line. *)
Definition mutation_invariant (backing : Command) (ms : list Mutation) : Prop :=
  sorted_by_t ms
  ∧ mut_t <$> last ms = Some (Q2Qc 1)
  ∧ (getSvgChar backing = SvgChar.Z → lines_before_last ms).

(** The parameters and kinds of a mutation list: all of it but the ids. *)
Definition parameters_and_kinds (ms : list Mutation) : list (number * SvgChar.t) :=
  (λ mu, (mut_t mu, mut_svgChar mu)) <$> ms.

(** What a command draws: everything but its id. *)
Definition geometry (c : Command) : SvgChar.t * list (option Point) * bool :=
  (cmd_svgChar c, cmd_points c, cmd_isSplit c).

Section Counting.
Context {Calc : Type}.

(** The number of commands a list of command states reads out as. *)
Definition countCommands (css : list (CommandState Calc)) : Z :=
  sum ((λ cm, Z.of_nat (length (getCommands cm))) <$> css).

(** The position, among the commands a sub-path stores, of the command at
    [splitIdx] in its command state at [cmIdx]: the commands of the
    command states before it come first. *)
Definition commandPosition (sps : SubPathState Calc) (cmIdx : nat) (splitIdx : Z) : Z :=
  countCommands (take cmIdx (commandStates sps)) + splitIdx.
End Counting.

Section Forest.
Context {Calc : Type}.

(** The leaves of a forest after [setSubPathState(state, cmsIdx)]: the
    leaf counted [cmsIdx] gives way to the leaves of [state]. *)
Fixpoint replaceLeaf (state : SubPathState Calc) (cmsIdx counter : Z)
    (leaves : list (SubPathState Calc)) : list (SubPathState Calc) :=
  match leaves with
  | [] => []
  | leaf :: rest =>
      (if counter =? cmsIdx then flattenNode state else [leaf])
      ++ replaceLeaf state cmsIdx (counter + 1) rest
  end.
End Forest.

Section RoundTrip.
Context {Calc : Type} `{Calculator Calc} {ar : Arith}.

(** [cs.mutate().splitAtIndex(i, [t]).build()] followed by
    [.mutate().unsplitAtIndex(i).build()]. *)
Definition splitThenUnsplit (cs : CommandState Calc) (i : Z) (t : number)
    : Eff (CommandState Calc) :=
  m1 <~ splitAtIndex (mutate cs) i [t] ;;
  cs1 <~ lift (build m1) ;;
  lift (build (unsplitAtIndex (mutate cs1) i)).
End RoundTrip.

Section Reachable.
Context {Calc : Type} `{Calculator Calc} {ar : Arith}.

(** The command states the public operations lead to, from a fresh
    [new CommandState(cmd)]. *)
Inductive reachable : CommandState Calc → Prop :=
  | reach_new cmd :
      reachable (newCommandState cmd)
  | reach_splitAtIndex cs splitIdx ts w m w' cs' :
      reachable cs →
      splitAtIndex (mutate cs) splitIdx ts w = Ok (m, w') →
      build m = Ok cs' → reachable cs'
  | reach_splitInHalfAtIndex cs splitIdx w m w' cs' :
      reachable cs →
      splitInHalfAtIndex (mutate cs) splitIdx w = Ok (m, w') →
      build m = Ok cs' → reachable cs'
  | reach_unsplitAtIndex cs splitIdx cs' :
      reachable cs →
      build (unsplitAtIndex (mutate cs) splitIdx) = Ok cs' → reachable cs'
  | reach_convertAtIndex cs splitIdx svgChar m cs' :
      reachable cs →
      convertAtIndex (mutate cs) splitIdx svgChar = Ok m →
      build m = Ok cs' → reachable cs'
  | reach_unconvertSubpath cs cs' :
      reachable cs →
      build (unconvertSubpath (mutate cs)) = Ok cs' → reachable cs'
  | reach_fork_left cs splitIdx l r :
      reachable cs → fork cs splitIdx = Ok (l, r) → reachable l
  | reach_fork_right cs splitIdx l r :
      reachable cs → fork cs splitIdx = Ok (l, r) → reachable r
  | reach_merge a b w m w' cs' :
      reachable a → reachable b →
      merge (mutate a) b w = Ok (m, w') →
      build m = Ok cs' → reachable cs'
  | reach_revert cs m cs' :
      reachable cs →
      revert (mutate cs) = Ok m →
      build m = Ok cs' → reachable cs'.
End Reachable.

(** The ids [_.uniqueId] hands out on [n] calls in a world whose counter
    stands at [c]. *)
Definition freshIds (c : N) (n : nat) : list string :=
  (λ k, pretty (c + N.of_nat k)%N) <$> seq 1 n.

(** The id and the parameter of a mutation: all of it but the kind. *)
Definition id_and_t (mu : Mutation) : string * number := (mut_id mu, mut_t mu).

(** What tells a command from another, whatever it draws, and the points
    that [PathMutator.build] has no reason to touch. *)
Definition identity_of (c : Command) : SvgChar.t * string * bool :=
  (getSvgChar c, getId c, cmd_isSplit c).

Definition pointsAfterFirst (c : Command) : list (option Point) := drop 1 (getPoints c).

Section Forests.
Context {Calc : Type}.


(** No root of the forest has been divided. *)
Definition no_split_roots (pm : PathMutator.t (Calc := Calc)) : Prop :=
  Forall (λ s, splitSubPaths s = []) (PathMutator.subPathStateMap pm).

(** [pm] is [pm0] with [k] collapsing sub-paths added: [k] more leaves at
    the end of the map, named in turn by [k] more entries at the end of
    the ordering. *)
Definition collapsing_added (pm0 pm : PathMutator.t (Calc := Calc)) (k : nat) : Prop :=
  ∃ added,
    length added = k
    ∧ Forall (λ s, splitSubPaths s = []) added
    ∧ PathMutator.subPathStateMap pm = PathMutator.subPathStateMap pm0 ++ added
    ∧ PathMutator.subPathOrdering pm
      = PathMutator.subPathOrdering pm0
        ++ seqZ (countSubPathStates (PathMutator.subPathStateMap pm0)) (Z.of_nat k)
    ∧ PathMutator.numCollapsingSubPaths pm = Z.of_nat k.

(** The leaves [recurseFn] counts under [p]: those of its split
    sub-paths, none when [p] is a leaf itself. *)
Definition nestedLeaves (p : SubPathState Calc) : Z :=
  if isSplit p then Z.of_nat (length (flattenNode p)) else 0.
End Forests.

Section Rejoin.
Context {Calc : Type} `{Calculator Calc} {ar : Arith}.

(** The loop of [recurseFn] over [states], the children of [p] it has
    still to visit. *)
Fixpoint recurseStates (cmsIdx : option Z) (p : SubPathState Calc)
    (states : list (SubPathState Calc)) (counter : Z)
    (updatedParentNode : option (SubPathState Calc))
    : Eff (Z * option (SubPathState Calc)) :=
  match states with
  | [] => ret (counter, updatedParentNode)
  | state :: rest =>
      if negb (isSplit state) then
        if bool_decide (cmsIdx = Some counter)
        then node <~ PathMutator.joinSplitSubPaths p ;; ret (counter + 1, Some node)
        else recurseStates cmsIdx p rest (counter + 1) updatedParentNode
      else
        r <~ PathMutator.recurseFn cmsIdx state counter updatedParentNode ;;
        recurseStates cmsIdx p rest r.1 r.2
  end.
End Rejoin.

(** ** Concrete values for the examples *)

Module Examples.
(** A distance that agrees with the Euclidean one on points that share a
    coordinate; the examples project a point onto itself. *)
Definition axisDistance (a b : Point) : number :=
  let dx := (x a - x b)%Qc in
  let dy := (y a - y b)%Qc in
  ((if num_lt dx 0 then - dx else dx) + (if num_lt dy 0 then - dy else dy))%Qc.

Definition pointCalculator : Calculator PointCalculator :=
  PointCalculator.calculator axisDistance.

Definition origin : Point := mkPoint 0 0.
Definition world0 : World := mkWorld 0 [].

Definition moveCmd : Command := mkCommand SvgChar.M [None; Some origin] false "m".
Definition lineCmd : Command := mkCommand SvgChar.L [Some origin; Some origin] false "a".
Definition closeCmd : Command := mkCommand SvgChar.Z [Some origin; Some origin] false "z".

(** The sources have no calculator that builds a Move command
    ([PointCalculator.toCommand] throws on one); this one hands back the
    command it was made from, whatever range or kind is asked for. *)
Definition moveCalculator : Calculator Command :=
  {| calc_project := λ _ _, None;
     calc_split := λ cmd _ _, cmd;
     calc_convert := λ cmd _, cmd;
     calc_findTimeByDistance := λ _ distance, distance;
     calc_toCommand := λ cmd, Ok cmd;
     newCalculator := λ cmd, cmd |}.

Definition builtMoveState : CommandState Command :=
  newCommandState (H := moveCalculator) moveCmd.

Definition moveState : CommandState PointCalculator :=
  newCommandState (H := pointCalculator) moveCmd.
Definition lineState : CommandState PointCalculator :=
  newCommandState (H := pointCalculator) lineCmd.
Definition closeState : CommandState PointCalculator :=
  newCommandState (H := pointCalculator) closeCmd.

(** The floats that the program writes [0.3], [0.7] and [0.9]. *)
Definition t03 : number := Eval vm_compute in Binary64.double (3 # 10).
Definition t07 : number := Eval vm_compute in Binary64.double (7 # 10).
Definition t09 : number := Eval vm_compute in Binary64.double (9 # 10).

(** The state of the projection example: [lineState] split at 0.3 and 0.7,
    hence with mutations at 0.3, 0.7 and 1. *)
Definition builtLine (id : string) (isSplit : bool) : Command :=
  mkCommand SvgChar.L [Some origin; Some origin] isSplit id.

Definition threeSplits : CommandState PointCalculator :=
  mkCommandState lineCmd
    [ builtLine "1" true; builtLine "2" true; builtLine "a" false ]
    [ mkMutation "1" t03 SvgChar.L;
      mkMutation "2" t07 SvgChar.L;
      mkMutation "a" 1 SvgChar.L ]
    [identityMatrix] (PointCalculator.ofCommand lineCmd) 0 1.

(** [lineState] split at 0.5 and built, and the left half of its fork at
    index 0. *)
Definition splitLine : Result (CommandState PointCalculator) :=
  match splitAtIndex (mutate lineState) 0 [Q2Qc (1 # 2)] world0 with
  | Ok (m, _) => build (H := pointCalculator) m
  | Err e => Err e
  end.

Definition leftHalf : Result (CommandState PointCalculator) :=
  cs <~~ splitLine ;; halves <~~ fork (H := pointCalculator) cs 0 ;; Ok halves.1.

(** [lineState] split at 0.3 and 0.9 and built. *)
Definition wideSplits : Result (CommandState PointCalculator) :=
  match splitAtIndex (mutate lineState) 0 [t03; t09] world0 with
  | Ok (m, _) => build (H := pointCalculator) m
  | Err e => Err e
  end.

(** [closeState] split at 0.5, its first part converted to a cubic. *)
Definition convertedClose : Result (CommandState PointCalculator) :=
  match splitAtIndex (mutate closeState) 0 [Q2Qc (1 # 2)] world0 with
  | Ok (m, _) =>
      cs <~~ build (H := pointCalculator) m ;;
      m' <~~ convertAtIndex (mutate cs) 0 SvgChar.C ;;
      build (H := pointCalculator) m'
  | Err e => Err e
  end.
(** A leaf reads out as the commands of its command states, in storage
    order (no reversal, no shift). *)
Definition storedCommands (sps : SubPathState PointCalculator) : list Command :=
  commandStates sps ≫= getCommands.

(** One sub-path: a Move and a line. *)
Definition twoCommands : SubPathState PointCalculator :=
  mkSubPathState [moveState; lineState] false 0 "s" [].
Definition twoCommandsPath : PathMutator.t (Calc := PointCalculator) :=
  PathMutator.mk [twoCommands] [0] 0.

(** One sub-path of a Move and two lines, shifted by one. *)
Definition shifted : SubPathState PointCalculator :=
  mkSubPathState [moveState; lineState; lineState] false 1 "s" [].
Definition shiftedPath : PathMutator.t (Calc := PointCalculator) :=
  PathMutator.mk [shifted] [0] 0.

(** The open sub-path of the scenario: a Move and three lines. *)
Definition fourCommands : SubPathState PointCalculator :=
  mkSubPathState [moveState; lineState; lineState; lineState] false 0 "s" [].
Definition fourCommandsPath : PathMutator.t (Calc := PointCalculator) :=
  PathMutator.mk [fourCommands] [0] 0.

(** One sub-path that is a single Move. *)
Definition loneMove : SubPathState PointCalculator :=
  mkSubPathState [moveState] false 0 "s" [].

(** [threeSplits] after a Move, as the one sub-path of a path, and the
    same sub-path reversed. *)
Definition splitLineSubPath : SubPathState PointCalculator :=
  mkSubPathState [moveState; threeSplits] false 0 "s" [].
Definition splitLinePath : PathMutator.t (Calc := PointCalculator) :=
  PathMutator.mk [splitLineSubPath] [0] 0.


(** The split sub-path again, now shifted by two. *)
Definition shiftedSplit : SubPathState PointCalculator :=
  mkSubPathState [moveState; threeSplits] false 2 "s" [].
Definition shiftedSplitPath : PathMutator.t (Calc := PointCalculator) :=
  PathMutator.mk [shiftedSplit] [0] 0.

(** A Move, the line split in three and a line, shifted by two. *)
Definition pivotSubPath : SubPathState PointCalculator :=
  mkSubPathState [moveState; threeSplits; lineState] false 2 "s" [].
Definition pivotPath : PathMutator.t (Calc := PointCalculator) :=
  PathMutator.mk [pivotSubPath] [0] 0.

(** Three sub-paths shown in the order 2, 0, 1, the last of them a
    collapsing one. *)
Definition threeSubPaths : PathMutator.t (Calc := PointCalculator) :=
  PathMutator.mk [twoCommands; fourCommands; loneMove] [2; 0; 1] 1.

(** An ordering that names sub-path 0 twice and sub-path 1 never, and one
    whose second entry names no leaf. *)
Definition missingEntryPath : PathMutator.t (Calc := PointCalculator) :=
  PathMutator.mk [twoCommands; loneMove] [0; 0] 0.
Definition danglingPath : PathMutator.t (Calc := PointCalculator) :=
  PathMutator.mk [twoCommands] [0; 5] 0.

(** The mutator of [lineState] with its one mutation turned into a Move,
    which [PointCalculator] has no command for. *)
Definition lineAsMove : CommandStateMutator PointCalculator :=
  setMutations [mkMutation "a" 1 SvgChar.M] (mutate lineState).

(** A leaf read out as one sub-path. *)
Definition storedSubPaths (sps : SubPathState PointCalculator) : list (list Command) :=
  [storedCommands sps].
End Examples.

(** * Properties *)

(** ** Numbers and the sorted index *)

Lemma num_lt_spec a b : num_lt a b = true ↔ (a < b)%Qc.
Proof.
  unfold num_lt. rewrite Qclt_alt. destruct (a ?= b)%Qc; split; congruence.
Qed.

Lemma num_lt_false a b : num_lt a b = false ↔ (b <= a)%Qc.
Proof.
  split; intros E.
  - apply Qcnot_lt_le. intros F%num_lt_spec. congruence.
  - destruct (num_lt a b) eqn:F; [|done].
    apply num_lt_spec in F. by apply Qclt_not_le in F.
Qed.

Lemma num_eq_spec a b : num_eq a b = true ↔ a = b.
Proof.
  split; [apply Qc_eq_bool_correct|].
  intros ->. unfold num_eq, Qc_eq_bool. by destruct (Qcanon.Qc_eq_dec b b).
Qed.

Lemma sorted_numbers_lookup arr i j a b :
  sorted_numbers arr → (i ≤ j)%nat → arr !! i = Some a → arr !! j = Some b → (a <= b)%Qc.
Proof.
  intros Hs. revert i j. induction Hs as [|c arr Hs IH Hall]; intros i j Hij Hi Hj.
  - by rewrite lookup_nil in Hi.
  - destruct i as [|i], j as [|j]; simplify_eq/=.
    + apply Qcle_refl.
    + rewrite Forall_forall in Hall. apply Hall.
      by eapply list_elem_of_lookup_2.
    + lia.
    + eapply IH; [|done..]. lia.
Qed.

(** The fuel does not cut the search short: with [high - low] of it the
    loop has ended, and more changes nothing. *)
Lemma sortedIndex_loop_fuel fuel fuel' arr v low high :
  (high - low ≤ fuel)%nat → (high - low ≤ fuel')%nat →
  sortedIndex_loop fuel arr v low high = sortedIndex_loop fuel' arr v low high.
Proof.
  revert fuel' low high. induction fuel as [|fuel IH]; intros fuel' low high Hf Hf'.
  - destruct fuel' as [|fuel']; [done|]. cbn [sortedIndex_loop].
    by destruct (Nat.ltb_spec low high); [lia|].
  - cbn [sortedIndex_loop]. destruct (Nat.ltb_spec low high) as [Hlt|Hge].
    2:{ destruct fuel'; [done|]. cbn [sortedIndex_loop].
        by destruct (Nat.ltb_spec low high); [lia|]. }
    destruct fuel' as [|fuel']; [lia|]. cbn [sortedIndex_loop].
    destruct (Nat.ltb_spec low high); [|lia].
    pose proof (Nat.div_mod_eq (low + high) 2) as Hdm.
    pose proof (Nat.mod_upper_bound (low + high) 2 ltac:(lia)) as Hmod.
    destruct (arr !! _) as [c|]; [destruct (num_lt c v)|]; apply IH; lia.
Qed.

Lemma sortedIndex_loop_spec fuel arr v low high :
  sorted_numbers arr →
  (high - low ≤ fuel)%nat → (low ≤ high)%nat → (high ≤ length arr)%nat →
  below arr v low → not_below arr v high →
  let r := sortedIndex_loop fuel arr v low high in
  (low ≤ r)%nat ∧ (r ≤ high)%nat ∧ below arr v r ∧ not_below arr v r.
Proof.
  intros Hs. revert low high.
  induction fuel as [|fuel IH]; intros low high Hf Hlh Hlen Hb Ha;
    cbn [sortedIndex_loop].
  - assert (low = high) as -> by lia. done.
  - destruct (Nat.ltb_spec low high) as [Hlt|Hge].
    2:{ assert (low = high) as -> by lia. done. }
    pose proof (Nat.div_mod_eq (low + high) 2) as Hdm.
    pose proof (Nat.mod_upper_bound (low + high) 2 ltac:(lia)) as Hmod.
    set (mid := ((low + high) / 2)%nat) in *.
    destruct (lookup_lt_is_Some_2 arr mid ltac:(lia)) as [c Hc]. rewrite Hc.
    destruct (num_lt c v) eqn:Hcv.
    + apply num_lt_spec in Hcv.
      destruct (IH (S mid) high) as (?&?&?&?); [lia..| |done|].
      * intros i d Hi Hd. eapply Qcle_lt_trans; [|exact Hcv].
        eapply (sorted_numbers_lookup arr i mid); [done|lia|done..].
      * split_and!; [lia|done..].
    + apply num_lt_false in Hcv.
      destruct (IH low mid) as (?&?&?&?); [lia..|done| |].
      * intros i d Hi Hd. eapply Qcle_trans; [exact Hcv|].
        eapply (sorted_numbers_lookup arr mid i); [done|lia|done..].
      * split_and!; [done|lia|done..].
Qed.

Lemma sortedIndex_spec arr v :
  sorted_numbers arr →
  (sortedIndex arr v ≤ length arr)%nat
  ∧ below arr v (sortedIndex arr v) ∧ not_below arr v (sortedIndex arr v).
Proof.
  intros Hs.
  assert (below arr v 0) as Hb by (intros i c Hi; lia).
  assert (not_below arr v (length arr)) as Ha.
  { intros i c Hi Hc. apply lookup_lt_Some in Hc. lia. }
  pose proof (sortedIndex_loop_spec (length arr) arr v 0 (length arr) Hs
                ltac:(lia) ltac:(lia) ltac:(lia) Hb Ha) as (_ & ? & ? & ?).
  by unfold sortedIndex.
Qed.

(** The index is determined by what it separates. *)
Lemma sortedIndex_unique arr v k :
  sorted_numbers arr → (k ≤ length arr)%nat →
  below arr v k → not_below arr v k → sortedIndex arr v = k.
Proof.
  intros Hs Hk Hb Ha.
  destruct (sortedIndex_spec arr v Hs) as (Hr & Hb' & Ha').
  destruct (Nat.lt_trichotomy (sortedIndex arr v) k) as [Hlt|[->|Hgt]]; [|done|].
  - destruct (lookup_lt_is_Some_2 arr (sortedIndex arr v) ltac:(lia)) as [c Hc].
    pose proof (Hb _ _ Hlt Hc). pose proof (Ha' _ _ (le_n _) Hc).
    exfalso. by eapply Qclt_not_le.
  - destruct (lookup_lt_is_Some_2 arr k ltac:(lia)) as [c Hc].
    pose proof (Hb' _ _ Hgt Hc). pose proof (Ha _ _ (le_n _) Hc).
    exfalso. by eapply Qclt_not_le.
Qed.

Lemma sorted_splice_insert arr v :
  sorted_numbers arr → sorted_numbers (splice_insert (sortedIndex arr v) v arr).
Proof.
  intros Hs. destruct (sortedIndex_spec arr v Hs) as (Hr & Hb & Ha).
  unfold sorted_numbers, splice_insert in *.
  rewrite <- (take_drop (sortedIndex arr v) arr) in Hs.
  apply StronglySorted_app in Hs as (Htd & Ht & Hd).
  apply StronglySorted_app. split_and!; [|done|].
  - intros a b Ha' Hb'.
    apply list_elem_of_lookup in Ha' as [i Hi].
    pose proof (lookup_lt_Some _ _ _ Hi) as Hlen. rewrite length_take in Hlen.
    rewrite lookup_take_lt in Hi by lia.
    assert (a < v)%Qc by (eapply Hb; [|done]; lia).
    apply elem_of_cons in Hb' as [->|Hb']; [by apply Qclt_le_weak|].
    apply list_elem_of_lookup in Hb' as [j Hj]. rewrite lookup_drop in Hj.
    apply Qclt_le_weak. eapply Qclt_le_trans; [done|]. eapply Ha; [|done]. lia.
  - constructor; [done|]. apply Forall_forall. intros c Hc.
    apply list_elem_of_lookup in Hc as [i Hi].
    rewrite lookup_drop in Hi. eapply Ha; [|done]. lia.
Qed.

(** ** CommandState: projection *)

Section CommandStateProperties.
Context {Calc : Type} `{Calculator Calc} {ar : Arith}.

Lemma sum_indicator (t : number) (ms : list Mutation) :
  sum ((λ mutation, if num_lt (mut_t mutation) t then 1 else 0) <$> ms)
  = Z.of_nat (countBelow t ms).
Proof.
  unfold countBelow, sum. induction ms as [|m ms IH]; [done|].
  rewrite fmap_cons. cbn [foldr List.filter]. rewrite IH.
  destruct (num_lt (mut_t m) t); cbn [length]; lia.
Qed.

Lemma countBelow_le_length (t : number) (ms : list Mutation) :
  (countBelow t ms ≤ length ms)%nat.
Proof.
  unfold countBelow. induction ms as [|m ms IH]; [done|].
  cbn [List.filter]. destruct (num_lt (mut_t m) t); cbn [length]; lia.
Qed.

Lemma at_index_of_nat {A} (l : list A) (k : nat) :
  at_index l (Z.of_nat k) = l !! k.
Proof.
  unfold at_index. destruct (Z.ltb_spec (Z.of_nat k) 0); [lia|].
  by rewrite Nat2Z.id.
Qed.

Lemma at_index_succ {A} (l : list A) (k : nat) :
  at_index l (Z.of_nat k + 1) = l !! S k.
Proof. by rewrite <- at_index_of_nat, Nat2Z.inj_succ. Qed.



(** C2. When the calculator projects the point at raw parameter
    [pr_t r], [project] answers with the number of mutations whose [t] is
    strictly below it as [splitIdx], and keeps [x], [y] and [d]. As long as
    some mutation is not below the raw parameter, boundaries [s] and [e]
    flank this index and the remapped parameter is the quotient of
    [pr_t r - s] by [e - s] as the arithmetic gives it, or 0 when [s] is
    [e]. When every mutation is below the raw parameter, [splitIdx] is the
    number of mutations, there is no boundary above, and the remapped
    parameter is [NaN]. *)
Theorem project_remaps_between_boundaries
    (cs : CommandState Calc) (point : Point) (r : ProjectionResult) :
  calc_project (calculator cs) point = Some r →
  ∃ t', project cs point
        = Some (mkRemappedResult (pr_x r) (pr_y r) t' (pr_d r),
                Z.of_nat (countBelow (pr_t r) (mutations cs)))
        ∧ ((countBelow (pr_t r) (mutations cs) < length (mutations cs))%nat →
           ∃ s e,
             boundaries (minT cs) (mutations cs) !! countBelow (pr_t r) (mutations cs)
             = Some s
             ∧ boundaries (minT cs) (mutations cs) !! S (countBelow (pr_t r) (mutations cs))
               = Some e
             ∧ (s = e → t' = Some 0%Qc)
             ∧ (s ≠ e → t' = Some (num_div (num_sub (pr_t r) s) (num_sub e s))))
        ∧ ((length (mutations cs) ≤ countBelow (pr_t r) (mutations cs))%nat →
           countBelow (pr_t r) (mutations cs) = length (mutations cs) ∧ t' = None).
Proof.
  intros Hr. unfold project. rewrite Hr, sum_indicator.
  rewrite at_index_of_nat, at_index_succ.
  pose proof (countBelow_le_length (pr_t r) (mutations cs)) as Hle.
  set (k := countBelow (pr_t r) (mutations cs)) in *.
  fold (boundaries (minT cs) (mutations cs)).
  destruct (lookup_lt_is_Some_2 (boundaries (minT cs) (mutations cs)) k) as [s Hs].
  { unfold boundaries. cbn. rewrite length_fmap. lia. }
  eexists. split; [reflexivity|]. rewrite Hs. split.
  - intros Hlt.
    destruct (lookup_lt_is_Some_2 (boundaries (minT cs) (mutations cs)) (S k)) as [e He].
    { unfold boundaries. cbn. rewrite length_fmap. lia. }
    exists s, e. rewrite He. split; [done|]. split; [done|]. unfold remap.
    destruct (num_eq s e) eqn:Heq.
    + apply num_eq_spec in Heq. by split.
    + split; [|done]. intros Hse%num_eq_spec. congruence.
  - intros Hge. split; [lia|].
    rewrite (proj2 (lookup_ge_None (boundaries (minT cs) (mutations cs)) (S k))); [done|].
    unfold boundaries. cbn. rewrite length_fmap. lia.
Qed.
End CommandStateProperties.

(** The state of the example is what [splitAtIndex(0, [0.3, 0.7])] and
    [build] make of a fresh line. *)
Lemma threeSplits_is_built :
  (m <~ splitAtIndex (mutate Examples.lineState) 0 [Examples.t03; Examples.t07] ;;
   lift (build (H := Examples.pointCalculator) m)) Examples.world0
  = Ok (Examples.threeSplits, mkWorld 2 []).
Proof. vm_compute. reflexivity. Qed.

(** A fresh line, with its one mutation at 1: the raw parameter 0.5 of a
    [PointCalculator] falls before it and is remapped to itself. *)
Lemma project_remaps_between_boundaries_witness :
  project (H := Examples.pointCalculator) Examples.lineState Examples.origin
  = Some (mkRemappedResult 0 0 (Some (Q2Qc (1 # 2))) 0, 0).
Proof.
  destruct (project_remaps_between_boundaries (H := Examples.pointCalculator)
              Examples.lineState Examples.origin
              (mkProjectionResult 0 0 (Q2Qc (1 # 2)) 0) eq_refl)
    as (t' & Hp & Hin & _).
  rewrite Hp. destruct Hin as (s & e & Hs & He & _ & Ht); [vm_compute; lia|].
  vm_compute in Hs, He. injection Hs as <-. injection He as <-.
  rewrite Ht by (by intros [=]). vm_compute. reflexivity.
Defined.

(** The example of the specification, mutations at 0.3, 0.7 and 1 and the
    raw parameter 0.5, gives [splitIdx = 1] and, in the arithmetic of the
    program, the local parameter 0.5000000000000001: the float after 0.5.
    On the left half of its fork at index 0, whose one mutation is at 0.3,
    the same raw parameter is above every mutation: [splitIdx] is 1, the
    number of mutations, and the local parameter is [NaN]. *)
Lemma project_example_rounds_and_leaves_boundaries :
  project (H := Examples.pointCalculator) (ar := binary64)
    Examples.threeSplits Examples.origin
  = Some (mkRemappedResult 0 0
            (Some (Q2Qc (4503599627370497 # 9007199254740992))) 0, 1)
  ∧ Q2Qc (4503599627370497 # 9007199254740992) ≠ Q2Qc (1 # 2)
  ∧ ∃ left right,
      fork (H := Examples.pointCalculator) Examples.threeSplits 0 = Ok (left, right)
      ∧ length (mutations left) = 1%nat
      ∧ project (H := Examples.pointCalculator) (ar := binary64) left Examples.origin
        = Some (mkRemappedResult 0 0 None 0, 1).
Proof.
  split; [vm_compute; reflexivity|]. split; [by intros [=]|].
  eexists _, _. split; [vm_compute; reflexivity|]. split; [reflexivity|].
  vm_compute. reflexivity.
Qed.


(** ** CommandStateMutator: splitting *)

Section SplitProperties.
Context {Calc : Type} `{Calculator Calc} {ar : Arith}.

Lemma sortedIndexBy_mut_t (ms : list Mutation) (mu : Mutation) :
  sortedIndexBy ms mu mut_t = sortedIndex (mut_t <$> ms) (mut_t mu).
Proof. done. Qed.

Lemma fmap_splice_insert {A B} (f : A → B) (i : nat) (a : A) (l : list A) :
  f <$> splice_insert i a l = splice_insert i (f a) (f <$> l).
Proof.
  unfold splice_insert. by rewrite fmap_app, fmap_cons, fmap_take, fmap_drop.
Qed.

Lemma length_splice_insert {A} (i : nat) (a : A) (l : list A) :
  length (splice_insert i a l) = S (length l).
Proof.
  unfold splice_insert. rewrite length_app. cbn [length].
  rewrite length_take, length_drop. lia.
Qed.

Lemma splice_insert_Permutation {A} (i : nat) (a : A) (l : list A) :
  splice_insert i a l ≡ₚ a :: l.
Proof.
  unfold splice_insert. rewrite <- Permutation_middle. by rewrite take_drop.
Qed.

Lemma length_forceLines (ms : list Mutation) : length (forceLines ms) = length ms.
Proof. apply length_imap. Qed.

Lemma forceLines_lookup (ms : list Mutation) (i : nat) :
  forceLines ms !! i =
  (λ mu, if bool_decide (i < length ms - 1)%nat && bool_decide (mut_svgChar mu = SvgChar.Z)
         then mkMutation (mut_id mu) (mut_t mu) SvgChar.L else mu) <$> ms !! i.
Proof. unfold forceLines. by rewrite list_lookup_imap. Qed.

Lemma fmap_forceLines (ms : list Mutation) : mut_t <$> forceLines ms = mut_t <$> ms.
Proof.
  apply list_eq. intros i. rewrite !list_lookup_fmap, forceLines_lookup.
  destruct (ms !! i) as [mu|]; [|done]. cbn. by case_match.
Qed.

(** After the second loop no mutation before the last is a closepath. *)
Lemma forceLines_no_close (ms : list Mutation) : no_close_before_last (forceLines ms).
Proof.
  intros i mu Hi Hlt. rewrite length_forceLines in Hlt.
  rewrite forceLines_lookup in Hi. destruct (ms !! i) as [mu'|]; [|done].
  cbn in Hi. rewrite bool_decide_eq_true_2 in Hi by done. cbn in Hi.
  case_bool_decide; simplify_eq; [done|]. done.
Qed.

(** Where no closepath stands before the last mutation the loop changes
    nothing. *)
Lemma forceLines_id (ms : list Mutation) : no_close_before_last ms → forceLines ms = ms.
Proof.
  intros Hnc. apply list_eq. intros i. rewrite forceLines_lookup.
  destruct (ms !! i) as [mu|] eqn:Hi; [|done]. cbn. f_equal.
  case_bool_decide as Hlt; [|done]. cbn.
  case_bool_decide as Hz; [|done]. by destruct (Hnc i mu Hi Hlt).
Qed.

(** A sorted array whose last element is not below [v] has its sorted
    index inside the array. *)
Lemma sortedIndex_lt_length (arr : list number) (v c : number) :
  sorted_numbers arr → last arr = Some c → (v <= c)%Qc →
  (sortedIndex arr v < length arr)%nat.
Proof.
  intros Hs Hlast Hv. destruct (sortedIndex_spec arr v Hs) as (Hr & Hb & _).
  destruct (decide (sortedIndex arr v = length arr)) as [Heq|]; [|lia].
  exfalso. rewrite last_lookup in Hlast.
  assert (length arr ≠ 0)%nat as Hne.
  { intros E. rewrite E in Hlast. by destruct arr. }
  assert (c < v)%Qc as Hlt by (eapply Hb; [|done]; lia).
  by eapply Qclt_not_le.
Qed.

(** The first loop of [split] on one parameter: the new mutation takes a
    fresh id and the kind of the mutation at its sorted index, and is put
    right before that mutation. *)
Lemma split_one (m : CommandStateMutator Calc) (t : number) (owner : Mutation) (w : World) :
  getSvgChar (m_backingCommand m) ≠ SvgChar.M →
  m_mutations m !! sortedIndex (mut_t <$> m_mutations m) t = Some owner →
  split m [Some t] w =
  Ok (setMutations
        (forceLines
           (splice_insert (sortedIndex (mut_t <$> m_mutations m) t)
              (mkMutation (pretty (N.succ (idCounter w))) t (mut_svgChar owner))
              (m_mutations m))) m,
      mkWorld (N.succ (idCounter w)) (console w)).
Proof.
  intros HM Hk. unfold split.
  rewrite bool_decide_eq_false_2 by done. rewrite bool_decide_eq_false_2 by done.
  cbn [orb]. unfold bind. cbn [split_loop]. unfold bind, uniqueId.
  rewrite list_lookup_fmap, Hk. cbn [fmap option_fmap option_map].
  by rewrite sortedIndexBy_mut_t.
Qed.

(** A split that is not cut short adds one mutation per parameter. *)
Lemma split_loop_length (currSplits : list number) (currSvgChars : list SvgChar.t)
    (ts : list (option number)) (ms ms' : list Mutation) (w w' : World) :
  split_loop currSplits currSvgChars ts ms w = Ok (ms', w') →
  length ms' = (length ms + length ts)%nat.
Proof.
  revert ms w. induction ts as [|t ts IH]; intros ms w Hrun.
  - cbn in Hrun. unfold ret in Hrun. simplify_eq. cbn. lia.
  - cbn [split_loop] in Hrun. unfold bind, uniqueId in Hrun.
    destruct t as [t|]; [|done].
    destruct (currSvgChars !! _) as [svgChar|]; [|done].
    apply IH in Hrun. rewrite length_splice_insert in Hrun. cbn. lia.
Qed.

Lemma split_adds_mutations (m m' : CommandStateMutator Calc) (ts : list (option number))
    (w w' : World) :
  getSvgChar (m_backingCommand m) ≠ SvgChar.M →
  split m ts w = Ok (m', w') →
  length (m_mutations m') = (length (m_mutations m) + length ts)%nat.
Proof.
  intros HM. unfold split. rewrite (bool_decide_eq_false_2 (_ = SvgChar.M)) by done.
  rewrite orb_false_r. case_bool_decide as Hts.
  - unfold ret. intros [= <- <-]. rewrite Hts. cbn. lia.
  - unfold bind. destruct (split_loop _ _ _ _ _) as [[ms w1]|] eqn:Hl; [|done].
    unfold ret. intros [= <- <-]. cbn. rewrite length_forceLines.
    by eapply split_loop_length.
Qed.

(** C10. On a command state whose backing command is a Move, [split]
    returns the mutator as it is, whichever way it is reached: the
    mutation list, [minT] and [maxT] are unchanged, no id is drawn, and no
    error is raised. *)
Theorem split_of_move_is_noop
    (m : CommandStateMutator Calc) (splitIdx : Z) (ts : list number)
    (ts' : list (option number)) (w : World) :
  getSvgChar (m_backingCommand m) = SvgChar.M →
  split m ts' w = Ok (m, w)
  ∧ splitAtIndex m splitIdx ts w = Ok (m, w)
  ∧ splitInHalfAtIndex m splitIdx w = Ok (m, w).
Proof.
  intros HM. unfold splitAtIndex, splitInHalfAtIndex, split.
  rewrite !(bool_decide_eq_true_2 (_ = SvgChar.M)) by done.
  by rewrite !orb_true_r.
Qed.

(** C5. On a command state that is not Move-backed, whose mutations are
    sorted, [splitInHalfAtIndex] at a valid index adds exactly one
    mutation. Its parameter is what the calculator's [findTimeByDistance]
    returns for the midpoint [lerp s e 0.5] of the two boundaries [s] and
    [e] that flank the index, given that this parameter does not exceed
    the last mutation's; its id is fresh and its kind is that of the
    mutation it is put in front of. *)
Theorem splitInHalfAtIndex_adds_one
    (m : CommandStateMutator Calc) (i : nat) (s e : number) (lastMu : Mutation) (w : World) :
  getSvgChar (m_backingCommand m) ≠ SvgChar.M →
  sorted_by_t (m_mutations m) →
  boundaries (m_minT m) (m_mutations m) !! i = Some s →
  boundaries (m_minT m) (m_mutations m) !! S i = Some e →
  last (m_mutations m) = Some lastMu →
  (calc_findTimeByDistance (m_calculator m) (lerp s e (Q2Qc (1 # 2))) <= mut_t lastMu)%Qc →
  ∃ (k : nat) (owner : Mutation) (m' : CommandStateMutator Calc),
    m_mutations m !! k = Some owner
    ∧ splitInHalfAtIndex m (Z.of_nat i) w
      = Ok (m', mkWorld (N.succ (idCounter w)) (console w))
    ∧ m_mutations m' =
        forceLines
          (splice_insert k
             (mkMutation (pretty (N.succ (idCounter w)))
                (calc_findTimeByDistance (m_calculator m) (lerp s e (Q2Qc (1 # 2))))
                (mut_svgChar owner))
             (m_mutations m))
    ∧ length (m_mutations m') = S (length (m_mutations m))
    ∧ m_minT m' = m_minT m ∧ m_maxT m' = m_maxT m.
Proof.
  intros HM Hs Hst He Hlast Hle.
  set (t := calc_findTimeByDistance (m_calculator m) (lerp s e (Q2Qc (1 # 2)))) in *.
  assert (sortedIndex (mut_t <$> m_mutations m) t < length (mut_t <$> m_mutations m))%nat
    as Hk.
  { eapply sortedIndex_lt_length; [done| |done]. by rewrite fmap_last, Hlast. }
  rewrite length_fmap in Hk.
  destruct (lookup_lt_is_Some_2 _ _ Hk) as [owner Ho].
  eexists _, owner, _. split; [exact Ho|].
  unfold splitInHalfAtIndex. rewrite at_index_of_nat, at_index_succ.
  unfold boundaries in Hst, He. rewrite Hst, He. cbn [lerp_undefined fmap option_fmap option_map].
  fold t. rewrite (split_one m t owner w HM Ho).
  split; [done|]. split; [done|].
  cbn. by rewrite length_forceLines, length_splice_insert.
Qed.
End SplitProperties.

Lemma split_of_move_is_noop_witness :
  getSvgChar (m_backingCommand (mutate Examples.moveState)) = SvgChar.M
  ∧ splitAtIndex (mutate Examples.moveState) 0 [Q2Qc (1 # 2)] Examples.world0
    = Ok (mutate Examples.moveState, Examples.world0)
  ∧ splitInHalfAtIndex (H := Examples.pointCalculator) (mutate Examples.moveState) 0
      Examples.world0
    = Ok (mutate Examples.moveState, Examples.world0).
Proof.
  split; [reflexivity|].
  apply (split_of_move_is_noop (H := Examples.pointCalculator)
           (mutate Examples.moveState) 0 [Q2Qc (1 # 2)] [] Examples.world0).
  reflexivity.
Defined.

(** On the Move-backed state of the examples [splitInHalfAtIndex] adds no
    mutation at all. *)
Lemma splitInHalfAtIndex_move_adds_none :
  ¬ ∃ m' w',
      splitInHalfAtIndex (H := Examples.pointCalculator) (mutate Examples.moveState) 0
        Examples.world0 = Ok (m', w')
      ∧ length (m_mutations m') = S (length (m_mutations (mutate Examples.moveState))).
Proof.
  intros (m' & w' & Hsplit & Hlen).
  vm_compute in Hsplit. injection Hsplit as <- <-. vm_compute in Hlen. discriminate.
Qed.

Lemma splitInHalfAtIndex_adds_one_witness :
  ∃ m', splitInHalfAtIndex (H := Examples.pointCalculator) (mutate Examples.lineState) 0
          Examples.world0 = Ok (m', mkWorld 1 [])
        ∧ (mut_t <$> m_mutations m') = [Q2Qc (1 # 2); Q2Qc 1].
Proof.
  destruct (splitInHalfAtIndex_adds_one (H := Examples.pointCalculator)
              (mutate Examples.lineState) 0 (Q2Qc 0) (Q2Qc 1)
              (mkMutation "a" (Q2Qc 1) SvgChar.L) Examples.world0)
    as (k & owner & m' & Ho & Hsplit & Hms & _).
  - intros [=].
  - repeat constructor.
  - reflexivity.
  - reflexivity.
  - reflexivity.
  - vm_compute. intros [=].
  - exists m'. split; [exact Hsplit|].
    vm_compute in Hsplit. injection Hsplit as <-. reflexivity.
Defined.

(** ** CommandStateMutator: merging *)

Section MergeProperties.
Context {Calc : Type} `{Calculator Calc} {ar : Arith}.

Lemma num_min_spec (a b : number) :
  (num_min a b <= a)%Qc ∧ (num_min a b <= b)%Qc ∧ (num_min a b = a ∨ num_min a b = b).
Proof.
  unfold num_min. destruct (num_lt b a) eqn:E.
  - apply num_lt_spec in E. split_and!; [by apply Qclt_le_weak|apply Qcle_refl|by right].
  - apply num_lt_false in E. split_and!; [apply Qcle_refl|done|by left].
Qed.

Lemma num_max_spec (a b : number) :
  (a <= num_max a b)%Qc ∧ (b <= num_max a b)%Qc ∧ (num_max a b = a ∨ num_max a b = b).
Proof.
  unfold num_max. destruct (num_lt a b) eqn:E.
  - apply num_lt_spec in E. split_and!; [by apply Qclt_le_weak|apply Qcle_refl|by right].
  - apply num_lt_false in E. split_and!; [apply Qcle_refl|done|by left].
Qed.

Lemma sorted_by_t_insert (ms : list Mutation) (mu : Mutation) :
  sorted_by_t ms → sorted_by_t (splice_insert (sortedIndexBy ms mu mut_t) mu ms).
Proof.
  unfold sorted_by_t. intros Hs.
  rewrite fmap_splice_insert, sortedIndexBy_mut_t. by apply sorted_splice_insert.
Qed.

Lemma merge_loop_spec (ids : gset string) (other ms : list Mutation) (w : World) :
  ∃ ms',
    merge_loop ids other ms w
    = Ok (ms', mkWorld (idCounter w)
                 (console w ++ replicate (length (conflicting ids other))
                                 "merged command states have conflicting ids"))
    ∧ ms' ≡ₚ ms ++ other
    ∧ (sorted_by_t ms → sorted_by_t ms').
Proof.
  revert ms w. induction other as [|mu other IH]; intros ms w.
  - exists ms. cbn. rewrite !app_nil_r. by destruct w.
  - cbn [merge_loop]. unfold bind, conflicting. rewrite filter_cons.
    destruct (decide (mut_id mu ∈ ids)) as [Hin|Hnin].
    + cbn [warn].
      destruct (IH (splice_insert (sortedIndexBy ms mu mut_t) mu ms)
                  (mkWorld (idCounter w)
                     (console w ++ ["merged command states have conflicting ids"])))
        as (ms' & Hrun & Hperm & Hsort).
      exists ms'. rewrite Hrun. cbn. rewrite <- app_assoc. split_and!; [done| |].
      * rewrite Hperm, splice_insert_Permutation. by rewrite <- Permutation_middle.
      * intros Hs. by apply Hsort, sorted_by_t_insert.
    + cbn [ret].
      destruct (IH (splice_insert (sortedIndexBy ms mu mut_t) mu ms) w)
        as (ms' & Hrun & Hperm & Hsort).
      exists ms'. rewrite Hrun. split_and!; [done| |].
      * rewrite Hperm, splice_insert_Permutation. by rewrite <- Permutation_middle.
      * intros Hs. by apply Hsort, sorted_by_t_insert.
Qed.

(** C6. [merge] never fails. The merged state spans from the smaller
    [minT] to the larger [maxT], its mutation list holds the mutations of
    both sides, each put at its sorted position, so that a sorted list
    stays sorted; for each mutation of the other side whose id this side
    already has, one warning is written and the merge goes on. *)
Theorem merge_unions_mutations
    (m : CommandStateMutator Calc) (cs : CommandState Calc) (w : World) :
  ∃ m',
    merge m cs w
    = Ok (m', mkWorld (idCounter w)
                (console w ++
                 replicate
                   (length (conflicting (list_to_set (mut_id <$> m_mutations m))
                              (mutations cs)))
                   "merged command states have conflicting ids"))
    ∧ m_minT m' = num_min (m_minT m) (minT cs)
    ∧ (m_minT m' <= m_minT m)%Qc ∧ (m_minT m' <= minT cs)%Qc
    ∧ m_maxT m' = num_max (m_maxT m) (maxT cs)
    ∧ (m_maxT m <= m_maxT m')%Qc ∧ (maxT cs <= m_maxT m')%Qc
    ∧ m_mutations m' ≡ₚ m_mutations m ++ mutations cs
    ∧ (sorted_by_t (m_mutations m) → sorted_by_t (m_mutations m')).
Proof.
  destruct (merge_loop_spec (list_to_set (mut_id <$> m_mutations m)) (mutations cs)
              (m_mutations m) w) as (ms' & Hrun & Hperm & Hsort).
  eexists. unfold merge, bind. rewrite Hrun. cbn [ret].
  split; [reflexivity|]. cbn.
  destruct (num_min_spec (m_minT m) (minT cs)) as (? & ? & _).
  destruct (num_max_spec (m_maxT m) (maxT cs)) as (? & ? & _).
  by split_and!.
Qed.
End MergeProperties.

(** Merging the line state of the examples into itself: the ids overlap,
    one warning is written, and both mutations are kept. *)
Lemma merge_unions_mutations_witness :
  ∃ m', merge (mutate Examples.lineState) Examples.lineState Examples.world0
        = Ok (m', mkWorld 0 ["merged command states have conflicting ids"])
        ∧ length (m_mutations m') = 2%nat
        ∧ sorted_by_t (m_mutations m').
Proof.
  destruct (merge_unions_mutations
              (mutate Examples.lineState) Examples.lineState Examples.world0)
    as (m' & Hrun & _ & _ & _ & _ & _ & _ & Hperm & Hsort).
  exists m'. split; [exact Hrun|]. split.
  - by rewrite Hperm.
  - apply Hsort. repeat constructor.
Defined.

(** ** CommandState: the states the operations reach *)

Section ReachableProperties.
Context {Calc : Type} `{Calculator Calc} {ar : Arith}.

Lemma build_loop_length (calc : Calc) (prevT : number) (ms : list Mutation)
    (cmds : list Command) :
  build_loop calc prevT ms = Ok cmds → length cmds = length ms.
Proof.
  revert prevT cmds. induction ms as [|mu ms IH]; intros prevT cmds Hb.
  - by simplify_eq/=.
  - cbn [build_loop] in Hb. unfold rbind in Hb.
    destruct (calc_toCommand _) as [cmd|]; [|done].
    destruct (build_loop calc (mut_t mu) ms) as [rest|] eqn:Hrest; [|done].
    simplify_eq/=. f_equal. by eapply IH.
Qed.

(** [build] keeps every field of the mutator and makes one command per
    mutation. *)
Lemma build_fields (m : CommandStateMutator Calc) (cs : CommandState Calc) :
  build m = Ok cs →
  backingCommand cs = m_backingCommand m
  ∧ mutations cs = m_mutations m
  ∧ calculator cs = m_calculator m
  ∧ minT cs = m_minT m ∧ maxT cs = m_maxT m
  ∧ length (commands cs) = length (mutations cs).
Proof.
  unfold build, rbind. intros Hb.
  destruct (build_loop _ _ _) as [cmds|] eqn:Hl; [|done].
  apply build_loop_length in Hl. by simplify_eq/=.
Qed.

Lemma split_loop_sorted (currSplits : list number) (currSvgChars : list SvgChar.t)
    (ts : list (option number)) (ms ms' : list Mutation) (w w' : World) :
  split_loop currSplits currSvgChars ts ms w = Ok (ms', w') →
  sorted_by_t ms → sorted_by_t ms'.
Proof.
  revert ms w. induction ts as [|t ts IH]; intros ms w Hrun Hs.
  - cbn in Hrun. unfold ret in Hrun. by simplify_eq.
  - cbn [split_loop] in Hrun. unfold bind, uniqueId in Hrun.
    destruct t as [t|]; [|done].
    destruct (currSvgChars !! _) as [svgChar|]; [|done].
    eapply IH; [exact Hrun|]. by apply sorted_by_t_insert.
Qed.

Lemma split_sorted (m m' : CommandStateMutator Calc) (ts : list (option number))
    (w w' : World) :
  split m ts w = Ok (m', w') →
  sorted_by_t (m_mutations m) → sorted_by_t (m_mutations m').
Proof.
  unfold split. intros Hrun Hs. case_match.
  - unfold ret in Hrun. by simplify_eq.
  - unfold bind in Hrun.
    destruct (split_loop _ _ _ _ _) as [[ms w1]|] eqn:Hl; [|done].
    unfold ret in Hrun. simplify_eq/=. unfold sorted_by_t. rewrite fmap_forceLines.
    by eapply split_loop_sorted.
Qed.

Lemma sorted_numbers_take (l : list number) (n : nat) :
  sorted_numbers l → sorted_numbers (take n l).
Proof.
  unfold sorted_numbers. intros Hs. rewrite <- (take_drop n l) in Hs.
  by apply StronglySorted_app in Hs as (_ & ? & _).
Qed.

Lemma sorted_numbers_drop (l : list number) (n : nat) :
  sorted_numbers l → sorted_numbers (drop n l).
Proof.
  unfold sorted_numbers. intros Hs. rewrite <- (take_drop n l) in Hs.
  by apply StronglySorted_app in Hs as (_ & _ & ?).
Qed.

Lemma sorted_numbers_delete (l : list number) (n : nat) :
  sorted_numbers l → sorted_numbers (delete n l).
Proof.
  unfold sorted_numbers. intros Hs. rewrite delete_take_drop.
  replace (S n) with (n + 1)%nat by lia.
  rewrite <- (take_drop n l) in Hs.
  apply StronglySorted_app in Hs as (Hall & Ht & Hd).
  apply StronglySorted_app. split_and!; [|done|].
  - intros a b Ha Hb. apply Hall; [done|].
    rewrite <- (drop_drop l 1 n) in Hb. eapply elem_of_sublist; [done|].
    apply sublist_drop.
  - rewrite <- (drop_drop l 1 n). by apply (sorted_numbers_drop (drop n l) 1).
Qed.

Lemma fmap_delete {A B} (f : A → B) (n : nat) (l : list A) :
  f <$> delete n l = delete n (f <$> l).
Proof. by rewrite !delete_take_drop, fmap_app, fmap_take, fmap_drop. Qed.

Lemma unsplitAtIndex_sorted (m : CommandStateMutator Calc) (splitIdx : Z) :
  sorted_by_t (m_mutations m) → sorted_by_t (m_mutations (unsplitAtIndex m splitIdx)).
Proof.
  unfold sorted_by_t, unsplitAtIndex, splice_remove. cbn. intros Hs.
  rewrite fmap_delete. by apply sorted_numbers_delete.
Qed.

Lemma convertAtIndex_ts (m m' : CommandStateMutator Calc) (splitIdx : Z) (svgChar : SvgChar.t) :
  convertAtIndex m splitIdx svgChar = Ok m' →
  mut_t <$> m_mutations m' = mut_t <$> m_mutations m.
Proof.
  unfold convertAtIndex, at_index. intros Hc.
  destruct (splitIdx <? 0); [done|].
  destruct (m_mutations m !! Z.to_nat splitIdx) as [mu|] eqn:Hmu; [|done].
  simplify_eq/=. rewrite list_fmap_insert. cbn.
  apply list_insert_id. by rewrite list_lookup_fmap, Hmu.
Qed.

Lemma unconvertSubpath_ts (m : CommandStateMutator Calc) :
  mut_t <$> m_mutations (unconvertSubpath m) = mut_t <$> m_mutations m.
Proof.
  unfold unconvertSubpath. cbn. apply list_eq. intros i.
  rewrite !list_lookup_fmap, list_lookup_imap. by destruct (m_mutations m !! i).
Qed.

Lemma forkLeft_sorted (m m' : CommandStateMutator Calc) (splitIdx : Z) :
  forkLeft m splitIdx = Ok m' →
  sorted_by_t (m_mutations m) → sorted_by_t (m_mutations m').
Proof.
  unfold forkLeft, sorted_by_t. intros Hf Hs.
  destruct (at_index _ _); [|done]. simplify_eq/=.
  rewrite fmap_take. by apply sorted_numbers_take.
Qed.

Lemma forkRight_sorted (m m' : CommandStateMutator Calc) (splitIdx : Z) :
  forkRight m splitIdx = Ok m' →
  sorted_by_t (m_mutations m) → sorted_by_t (m_mutations m').
Proof.
  unfold forkRight, sorted_by_t. intros Hf Hs.
  destruct (at_index _ _); [|done]. simplify_eq/=.
  rewrite fmap_drop. by apply sorted_numbers_drop.
Qed.

Lemma fork_sorted (cs l r : CommandState Calc) (splitIdx : Z) :
  fork cs splitIdx = Ok (l, r) →
  sorted_by_t (mutations cs) →
  sorted_by_t (mutations l) ∧ sorted_by_t (mutations r).
Proof.
  unfold fork, rbind. intros Hf Hs.
  destruct (forkLeft _ _) as [ml|] eqn:Hl; [|done].
  destruct (build ml) as [l'|] eqn:Hbl; [|done].
  destruct (forkRight _ _) as [mr|] eqn:Hr; [|done].
  destruct (build mr) as [r'|] eqn:Hbr; [|done].
  simplify_eq/=.
  apply build_fields in Hbl as (_ & -> & _), Hbr as (_ & -> & _).
  split; [by eapply forkLeft_sorted|by eapply forkRight_sorted].
Qed.

(** C4. The mutation list of every command state the operations reach is
    sorted ascending by [t]. After a split that adds mutations no
    mutation but the last is a closepath, and after [unconvertSubpath] on
    a closepath every mutation but the last is a line and the last is
    the closepath. *)
Theorem reachable_mutations_sorted :
  (∀ cs : CommandState Calc, reachable cs → sorted_by_t (mutations cs))
  ∧ (∀ (m m' : CommandStateMutator Calc) ts w w',
       ts ≠ [] → getSvgChar (m_backingCommand m) ≠ SvgChar.M →
       split m ts w = Ok (m', w') → no_close_before_last (m_mutations m'))
  ∧ (∀ m : CommandStateMutator Calc,
       getSvgChar (m_backingCommand m) = SvgChar.Z →
       lines_before_last (m_mutations (unconvertSubpath m))
       ∧ (mut_svgChar <$> last (m_mutations (unconvertSubpath m))
          = (λ _, SvgChar.Z) <$> last (m_mutations m))).
Proof.
  split_and!.
  - intros cs Hr. induction Hr as
      [ cmd
      | cs splitIdx ts w m w' cs' _ IH Hsplit Hbuild
      | cs splitIdx w m w' cs' _ IH Hsplit Hbuild
      | cs splitIdx cs' _ IH Hbuild
      | cs splitIdx svgChar m cs' _ IH Hconv Hbuild
      | cs cs' _ IH Hbuild
      | cs splitIdx l r _ IH Hfork
      | cs splitIdx l r _ IH Hfork
      | a b w m w' cs' _ IHa _ IHb Hmerge Hbuild
      | cs m cs' _ IH Hrev Hbuild ].
    + repeat constructor.
    + apply build_fields in Hbuild as (_ & -> & _). by eapply split_sorted.
    + apply build_fields in Hbuild as (_ & -> & _). by eapply split_sorted.
    + apply build_fields in Hbuild as (_ & -> & _). by apply unsplitAtIndex_sorted.
    + apply build_fields in Hbuild as (_ & -> & _).
      unfold sorted_by_t. by rewrite (convertAtIndex_ts _ _ _ _ Hconv).
    + apply build_fields in Hbuild as (_ & -> & _).
      unfold sorted_by_t. by rewrite unconvertSubpath_ts.
    + by destruct (fork_sorted _ _ _ _ Hfork IH).
    + by destruct (fork_sorted _ _ _ _ Hfork IH).
    + apply build_fields in Hbuild as (_ & -> & _).
      unfold merge, bind in Hmerge.
      destruct (merge_loop_spec (list_to_set (mut_id <$> m_mutations (mutate a)))
                  (mutations b) (m_mutations (mutate a)) w) as (ms' & Hrun & _ & Hsort).
      rewrite Hrun in Hmerge. unfold ret in Hmerge. simplify_eq/=. by apply Hsort.
    + apply build_fields in Hbuild as (_ & -> & _).
      unfold revert in Hrev. destruct (last _); [|done]. simplify_eq/=.
      repeat constructor.
  - intros m m' ts w w' Hts HM Hsplit. unfold split in Hsplit.
    rewrite !bool_decide_eq_false_2 in Hsplit by done. cbn [orb] in Hsplit.
    unfold bind in Hsplit. destruct (split_loop _ _ _ _ _) as [[ms w1]|]; [|done].
    unfold ret in Hsplit. simplify_eq/=. apply forceLines_no_close.
  - intros m HZ. unfold unconvertSubpath. cbn. rewrite HZ. split.
    + intros i mu Hi Hlt. rewrite length_imap in Hlt.
      rewrite list_lookup_imap in Hi. destruct (m_mutations m !! i); [|done].
      simplify_eq/=. by rewrite bool_decide_eq_false_2 by lia.
    + rewrite !last_lookup, length_imap, list_lookup_imap.
      destruct (m_mutations m !! _) as [mu|] eqn:Hmu; [|done]. cbn.
      apply lookup_lt_Some in Hmu.
      by rewrite !bool_decide_eq_true_2 by (done || lia).
Qed.
End ReachableProperties.

(** The left half of the forked example is reached by [splitAtIndex]
    and [fork], and ends at [t = 0.5]. *)
Lemma leftHalf_reachable :
  ∃ cs, Examples.leftHalf = Ok cs
        ∧ reachable (H := Examples.pointCalculator) cs
        ∧ mut_t <$> last (mutations cs) = Some (Q2Qc (1 # 2)).
Proof.
  eexists. split; [vm_compute; reflexivity|]. split; [|reflexivity].
  eapply (reach_fork_left (H := Examples.pointCalculator) _ 0 _ _).
  - eapply (reach_splitAtIndex (H := Examples.pointCalculator)
              Examples.lineState 0 [Q2Qc (1 # 2)] Examples.world0).
    + apply reach_new.
    + vm_compute. reflexivity.
    + vm_compute. reflexivity.
  - vm_compute. reflexivity.
Qed.

Lemma reachable_mutations_sorted_witness :
  ∃ cs, Examples.leftHalf = Ok cs ∧ sorted_by_t (mutations cs).
Proof.
  destruct leftHalf_reachable as (cs & Hcs & Hreach & _).
  exists cs. split; [exact Hcs|].
  by apply (proj1 (reachable_mutations_sorted (H := Examples.pointCalculator))).
Defined.

(** The invariant the data model states does not hold of every reachable
    state: the left half of a fork ends at the fork parameter, not at 1. *)
Lemma reachable_breaks_mutation_invariant :
  ¬ ∀ cs : CommandState PointCalculator,
      reachable (H := Examples.pointCalculator) cs →
      mutation_invariant (backingCommand cs) (mutations cs).
Proof.
  intros Hall. destruct leftHalf_reachable as (cs & _ & Hreach & Hlast).
  destruct (Hall cs Hreach) as (_ & Hone & _).
  rewrite Hlast in Hone. by injection Hone.
Qed.

(** Nor does the third part: [convertAtIndex] gives a mutation before the
    last of a closepath the kind it is asked for. *)
Lemma convertAtIndex_breaks_lines_before_last :
  ∃ cs, Examples.convertedClose = Ok cs
        ∧ getSvgChar (backingCommand cs) = SvgChar.Z
        ∧ mut_svgChar <$> mutations cs = [SvgChar.C; SvgChar.Z].
Proof. eexists. split; [vm_compute; reflexivity|]. by split. Qed.

(** ** CommandState: splitting and unsplitting again *)

Section RoundTripProperties.
Context {Calc : Type} `{Calculator Calc} {ar : Arith}.

Lemma ascending_lookup (l : list number) (i j : nat) (a b : number) :
  StronglySorted Qclt l → (i < j)%nat → l !! i = Some a → l !! j = Some b → (a < b)%Qc.
Proof.
  intros Hs. revert i j. induction Hs as [|c l Hs IH Hall]; intros i j Hij Hi Hj.
  - by rewrite lookup_nil in Hi.
  - destruct i as [|i], j as [|j]; simplify_eq/=; try lia.
    + rewrite Forall_forall in Hall. apply Hall. by eapply list_elem_of_lookup_2.
    + eapply IH; [|done..]. lia.
Qed.

Lemma ascending_sorted (l : list number) : StronglySorted Qclt l → sorted_numbers l.
Proof.
  induction 1 as [|c l Hs IH Hall]; constructor; [done|].
  eapply Forall_impl; [done|]. intros. by apply Qclt_le_weak.
Qed.

Lemma lookup_splice_insert_lt {A} (k j : nat) (a : A) (l : list A) :
  (j < k)%nat → (k ≤ length l)%nat → splice_insert k a l !! j = l !! j.
Proof.
  intros Hj Hk. unfold splice_insert.
  rewrite lookup_app_l by (rewrite length_take; lia). by rewrite lookup_take_lt.
Qed.

Lemma lookup_splice_insert_eq {A} (k : nat) (a : A) (l : list A) :
  (k ≤ length l)%nat → splice_insert k a l !! k = Some a.
Proof.
  intros Hk. unfold splice_insert.
  rewrite lookup_app_r by (rewrite length_take; lia).
  rewrite length_take. by replace (k - k `min` length l)%nat with 0%nat by lia.
Qed.

Lemma lookup_splice_insert_gt {A} (k j : nat) (a : A) (l : list A) :
  (k ≤ j)%nat → (k ≤ length l)%nat → splice_insert k a l !! S j = l !! j.
Proof.
  intros Hj Hk. unfold splice_insert.
  rewrite lookup_app_r by (rewrite length_take; lia).
  rewrite length_take. replace (S j - k `min` length l)%nat with (S (j - k)) by lia.
  change ((a :: drop k l) !! S (j - k)) with (drop k l !! (j - k)%nat).
  rewrite lookup_drop. f_equal. lia.
Qed.

(** The second loop of [split] leaves an insertion in front of an
    existing mutation as it is, but for the kind of the new mutation when
    that is a closepath. *)
Lemma forceLines_splice_insert (ms : list Mutation) (k : nat) (mu : Mutation) :
  no_close_before_last ms → (k < length ms)%nat →
  ∃ mu', forceLines (splice_insert k mu ms) = splice_insert k mu' ms
         ∧ mut_t mu' = mut_t mu
         ∧ (mut_svgChar mu ≠ SvgChar.Z → mu' = mu).
Proof.
  intros Hnc Hk.
  exists (if bool_decide (mut_svgChar mu = SvgChar.Z)
          then mkMutation (mut_id mu) (mut_t mu) SvgChar.L else mu).
  split_and!.
  - apply list_eq. intros j. rewrite forceLines_lookup, length_splice_insert.
    destruct (Nat.lt_trichotomy j k) as [Hlt|[->|Hgt]].
    + rewrite !lookup_splice_insert_lt by lia.
      destruct (ms !! j) as [mj|] eqn:Hj; [|done]. cbn. f_equal.
      rewrite bool_decide_eq_true_2 by lia. cbn.
      case_bool_decide as Hz; [|done]. destruct (Hnc j mj Hj); [lia|done].
    + rewrite !lookup_splice_insert_eq by lia. cbn.
      by rewrite bool_decide_eq_true_2 by lia.
    + destruct j as [|j]; [lia|]. rewrite !lookup_splice_insert_gt by lia.
      destruct (ms !! j) as [mj|] eqn:Hj; [|done]. cbn. f_equal.
      case_bool_decide as Hlast; [|done]. cbn.
      case_bool_decide as Hz; [|done]. destruct (Hnc j mj Hj); [lia|done].
  - by case_bool_decide.
  - intros Hz. by rewrite bool_decide_eq_false_2.
Qed.

Lemma delete_splice_insert {A} (k : nat) (a : A) (l : list A) :
  (k ≤ length l)%nat → delete k (splice_insert k a l) = l.
Proof.
  intros Hk. apply list_eq. intros j. destruct (decide (j < k)%nat).
  - by rewrite list_lookup_delete_lt, lookup_splice_insert_lt by lia.
  - by rewrite list_lookup_delete_ge, lookup_splice_insert_gt by lia.
Qed.

Lemma delete_after_splice_insert {A} (k : nat) (a : A) (l : list A) :
  (k < length l)%nat → delete (S k) (splice_insert k a l) = <[k := a]> l.
Proof.
  intros Hk. apply list_eq. intros j.
  destruct (Nat.lt_trichotomy j k) as [Hlt|[->|Hgt]].
  - rewrite list_lookup_delete_lt, lookup_splice_insert_lt, list_lookup_insert_ne by lia. done.
  - rewrite list_lookup_delete_lt, lookup_splice_insert_eq, list_lookup_insert_eq by lia. done.
  - rewrite list_lookup_delete_ge, list_lookup_insert_ne by lia.
    by rewrite lookup_splice_insert_gt by lia.
Qed.
End RoundTripProperties.

Section RoundTripTheorem.
Context {Calc : Type} `{Calculator Calc} {ar : Arith}.

Lemma splice_remove_of_nat {A} (i : nat) (l : list A) :
  (i ≤ length l)%nat → splice_remove (Z.of_nat i) l = delete i l.
Proof.
  intros Hi. unfold splice_remove.
  destruct (Z.ltb_spec (Z.of_nat i) 0); [lia|]. f_equal. lia.
Qed.

(** Where a new parameter [v] between the boundaries [s] and [e] at [i]
    and [i + 1] is put: at index [i], or, when it falls on the boundary
    below, in front of the mutation that ends there. *)
Lemma split_index_cases (minT s e v : number) (ms : list Mutation) (i : nat) :
  StronglySorted Qclt (boundaries minT ms) →
  boundaries minT ms !! i = Some s →
  boundaries minT ms !! S i = Some e →
  (s <= v)%Qc → (v <= e)%Qc →
  let k := sortedIndex (mut_t <$> ms) v in
  ((s < v)%Qc ∧ k = i)
  ∨ (v = s ∧ k = i ∧ i = 0%nat)
  ∨ (v = s ∧ S k = i).
Proof.
  intros Hasc Hs He Hsv0 Hve k. subst k.
  assert (s < e)%Qc as Hse by (eapply (ascending_lookup _ i (S i)); [done|lia|done..]).
  pose proof (ascending_sorted _ Hasc) as Hsorted.
  assert (sorted_numbers (mut_t <$> ms)) as Hts.
  { unfold boundaries in Hsorted. by apply StronglySorted_inv in Hsorted as [? _]. }
  assert (i < length (mut_t <$> ms))%nat as Hi.
  { apply lookup_lt_Some in He. unfold boundaries in He. cbn in He. lia. }
  destruct (Qcle_lt_or_eq _ _ Hsv0) as [Hsv|<-].
  - left. split; [done|].
    apply sortedIndex_unique; [done|lia| |].
    + intros j c Hj Hc. eapply Qcle_lt_trans; [|exact Hsv].
      eapply (sorted_numbers_lookup (boundaries minT ms) (S j) i);
        [done|lia|exact Hc|exact Hs].
    + intros j c Hj Hc. eapply Qcle_trans; [exact Hve|].
      eapply (sorted_numbers_lookup (boundaries minT ms) (S i) (S j));
        [done|lia|exact He|exact Hc].
  - right. destruct i as [|i'].
    + left. split_and!; [done| |done]. apply sortedIndex_unique; [done|lia| |].
      * intros j c Hj. lia.
      * intros j c Hj Hc. apply Qclt_le_weak.
        eapply (ascending_lookup (boundaries minT ms) 0 (S j));
          [done|lia|exact Hs|exact Hc].
    + right. split; [done|]. f_equal. apply sortedIndex_unique; [done|lia| |].
      * intros j c Hj Hc.
        eapply (ascending_lookup (boundaries minT ms) (S j) (S i'));
          [done|lia|exact Hc|exact Hs].
      * intros j c Hj Hc.
        eapply (sorted_numbers_lookup (boundaries minT ms) (S i') (S j));
          [done|lia|exact Hs|exact Hc].
Qed.

(** The commands [build] makes depend on the parameters and kinds of the
    mutations, and on their ids only for the ids of the commands. *)
Lemma build_loop_geometry (calc : Calc) (prevT : number) (ms ms' : list Mutation)
    (cmds : list Command) :
  parameters_and_kinds ms = parameters_and_kinds ms' →
  build_loop calc prevT ms = Ok cmds →
  ∃ cmds', build_loop calc prevT ms' = Ok cmds' ∧ geometry <$> cmds' = geometry <$> cmds.
Proof.
  revert prevT ms' cmds. induction ms as [|mu ms IH]; intros prevT ms' cmds Hpk Hb.
  - destruct ms'; [|done]. simplify_eq/=. by exists [].
  - destruct ms' as [|mu' ms']; [done|].
    unfold parameters_and_kinds in Hpk. rewrite !fmap_cons in Hpk.
    injection Hpk as Ht Hk Hrest.
    cbn [build_loop] in *. unfold rbind in *. rewrite <- Ht, <- Hk.
    destruct (calc_toCommand _) as [cmd|]; [|done].
    destruct (build_loop calc (mut_t mu) ms) as [rest|] eqn:Hrest'; [|done].
    destruct (IH _ ms' rest Hrest Hrest') as (rest' & -> & Hgeo).
    simplify_eq/=. eexists. split; [done|]. cbn. f_equal; [|done].
    assert (ms = [] ↔ ms' = []) as Hnil.
    { apply (f_equal length) in Hrest. rewrite !length_fmap in Hrest.
      destruct ms, ms'; naive_solver. }
    destruct Hnil. do 2 case_bool_decide; naive_solver.
Qed.

Lemma build_geometry (m m' : CommandStateMutator Calc) (cs : CommandState Calc) :
  parameters_and_kinds (m_mutations m') = parameters_and_kinds (m_mutations m) →
  m_calculator m' = m_calculator m → m_minT m' = m_minT m → m_maxT m' = m_maxT m →
  build m = Ok cs →
  ∃ cs', build m' = Ok cs'
         ∧ geometry <$> commands cs' = geometry <$> commands cs
         ∧ mutations cs' = m_mutations m'
         ∧ minT cs' = minT cs ∧ maxT cs' = maxT cs.
Proof.
  intros Hpk Hcalc Hmin Hmax. unfold build, rbind. intros Hb.
  destruct (build_loop _ _ (m_mutations m)) as [cmds|] eqn:Hl; [|done].
  rewrite <- Hcalc, <- Hmin in Hl.
  destruct (build_loop_geometry _ _ _ _ _ (eq_sym Hpk) Hl) as (cmds' & -> & Hgeo).
  simplify_eq/=. eexists. by split_and!.
Qed.

(** C3. For a command state that is not Move-backed, whose boundaries
    ([minT] and the mutations' parameters) ascend strictly and which has
    no closepath before its last mutation, [splitAtIndex(i, [t])] between
    the boundaries [s] and [e] at [i] and [i + 1] adds one mutation when
    the parameter [lerp s e t] it computes is neither below [s] nor above
    [e], and when the state with that mutation builds,
    [unsplitAtIndex(i)] after it gives a state with the parameters and
    kinds of the mutations of the original, the same range, and commands
    of the same kinds, points and split flags as the original built
    anew. *)
Theorem split_then_unsplit_restores
    (cs cs0 : CommandState Calc) (i : nat) (s e t : number) (w : World) :
  getSvgChar (backingCommand cs) ≠ SvgChar.M →
  StronglySorted Qclt (boundaries (minT cs) (mutations cs)) →
  no_close_before_last (mutations cs) →
  boundaries (minT cs) (mutations cs) !! i = Some s →
  boundaries (minT cs) (mutations cs) !! S i = Some e →
  (s <= lerp s e t)%Qc → (lerp s e t <= e)%Qc →
  build (mutate cs) = Ok cs0 →
  ∃ m1 w1,
    splitAtIndex (mutate cs) (Z.of_nat i) [t] w = Ok (m1, w1)
    ∧ length (m_mutations m1) = S (length (mutations cs))
    ∧ ∀ cs1, build m1 = Ok cs1 →
        ∃ cs2, splitThenUnsplit cs (Z.of_nat i) t w = Ok (cs2, w1)
               ∧ parameters_and_kinds (mutations cs2) = parameters_and_kinds (mutations cs)
               ∧ geometry <$> commands cs2 = geometry <$> commands cs0
               ∧ minT cs2 = minT cs ∧ maxT cs2 = maxT cs.
Proof.
  intros HM Hasc Hnc Hs He Hsv Hve Hb0.
  assert (i < length (mutations cs))%nat as Hi.
  { apply lookup_lt_Some in He. unfold boundaries in He. cbn in He.
    rewrite length_fmap in He. lia. }
  pose proof (split_index_cases _ s e (lerp s e t) _ i Hasc Hs He Hsv Hve) as Hcases.
  cbn zeta in Hcases.
  set (v := lerp s e t) in *. set (k := sortedIndex (mut_t <$> mutations cs) v) in *.
  assert (k < length (mutations cs))%nat as Hk by (destruct Hcases as [?|[?|?]]; lia).
  destruct (lookup_lt_is_Some_2 _ _ Hk) as [owner Ho].
  assert (splitAtIndex (mutate cs) (Z.of_nat i) [t] w
          = split (mutate cs) [Some v] w) as Hsplit.
  { unfold splitAtIndex. rewrite at_index_of_nat, at_index_succ.
    unfold boundaries in Hs, He. cbn [mutate m_minT m_mutations].
    by rewrite Hs, He. }
  rewrite (split_one (mutate cs) v owner w HM Ho) in Hsplit.
  cbn [mutate m_mutations] in Hsplit. fold k in Hsplit.
  set (new := mkMutation (pretty (N.succ (idCounter w))) v (mut_svgChar owner)) in *.
  destruct (forceLines_splice_insert (mutations cs) k new Hnc Hk)
    as (new' & Hforce & Hnewt & Hnewk).
  rewrite Hforce in Hsplit.
  eexists _, _. split; [exact Hsplit|]. split.
  { cbn. by rewrite length_splice_insert. }
  intros cs1 Hb1. unfold splitThenUnsplit, bind. rewrite Hsplit. cbn [lift].
  rewrite Hb1. cbn [lift].
  pose proof (build_fields _ _ Hb1) as (Hback & Hmut & Hcalc & Hmin & Hmax & _).
  cbn in Hback, Hmut, Hcalc, Hmin, Hmax.
  assert (parameters_and_kinds (m_mutations (unsplitAtIndex (mutate cs1) (Z.of_nat i)))
          = parameters_and_kinds (mutations cs)) as Hpk.
  { cbn [unsplitAtIndex setMutations mutate m_mutations]. rewrite Hmut.
    rewrite splice_remove_of_nat by (rewrite length_splice_insert; lia).
    destruct Hcases as [[_ Hki]|[(_ & Hki & _)|[Hvs Hki]]].
    - rewrite <- Hki. by rewrite delete_splice_insert by lia.
    - rewrite <- Hki. by rewrite delete_splice_insert by lia.
    - rewrite <- Hki, delete_after_splice_insert by lia.
      unfold parameters_and_kinds. rewrite list_fmap_insert.
      apply list_insert_id. rewrite list_lookup_fmap, Ho. cbn. f_equal.
      assert (mut_svgChar owner ≠ SvgChar.Z) as Hnz by (apply (Hnc k owner Ho); lia).
      rewrite (Hnewk Hnz). cbn. f_equal.
      assert (boundaries (minT cs) (mutations cs) !! S k = Some (mut_t owner)) as Hbk.
      { change ((mut_t <$> mutations cs) !! k = Some (mut_t owner)).
        by rewrite list_lookup_fmap, Ho. }
      rewrite Hki, Hs in Hbk. fold v. rewrite Hvs. by injection Hbk. }
  destruct (build_geometry (mutate cs) (unsplitAtIndex (mutate cs1) (Z.of_nat i)) cs0)
    as (cs2 & Hb2 & Hgeo & Hmut2 & Hmin2 & Hmax2); [done..|].
  rewrite Hb2. exists cs2. split; [done|].
  apply build_fields in Hb0 as (_ & _ & _ & Hmin0 & Hmax0 & _). cbn in Hmin0, Hmax0.
  rewrite Hmut2, Hmin2, Hmax2. by split_and!.
Qed.
End RoundTripTheorem.

(** The example state, split between 0.3 and 0.7 at their midpoint. *)
Lemma split_then_unsplit_restores_witness :
  ∃ cs2, splitThenUnsplit (H := Examples.pointCalculator) Examples.threeSplits 1
           (Q2Qc (1 # 2)) Examples.world0 = Ok (cs2, mkWorld 1 [])
         ∧ parameters_and_kinds (mutations cs2)
           = parameters_and_kinds (mutations Examples.threeSplits).
Proof.
  destruct (split_then_unsplit_restores (H := Examples.pointCalculator)
              Examples.threeSplits Examples.threeSplits 1 Examples.t03 Examples.t07
              (Q2Qc (1 # 2)) Examples.world0)
    as (m1 & w1 & Hsplit & _ & Hrest).
  - intros [=].
  - repeat constructor; vm_compute; reflexivity.
  - intros [|[|[|i]]] mu Hi Hlt; cbn in Hi, Hlt; try lia; by injection Hi as <-.
  - reflexivity.
  - reflexivity.
  - vm_compute. intros [=].
  - vm_compute. intros [=].
  - vm_compute. reflexivity.
  - vm_compute in Hsplit. injection Hsplit as <- <-.
    edestruct Hrest as (cs2 & Hrun & Hpk & _); [vm_compute; reflexivity|].
    exists cs2. split; [exact Hrun|exact Hpk].
Defined.

(** On a Move-backed state the split adds nothing and the unsplit then
    removes the only mutation: no command is left. *)
Lemma split_then_unsplit_loses_move :
  ∃ cs2, splitThenUnsplit (H := Examples.moveCalculator) Examples.builtMoveState 0
           (Q2Qc (1 # 2)) Examples.world0 = Ok (cs2, Examples.world0)
         ∧ commands cs2 = []
         ∧ geometry <$> commands cs2 ≠ geometry <$> commands Examples.builtMoveState.
Proof. eexists. split; [vm_compute; reflexivity|]. by split. Qed.

(** Without rounding a parameter [t] between 0 and 1 is interpolated to
    a parameter between the two boundaries. *)
Lemma lerp_exact_within (s e t : number) :
  (s <= e)%Qc → (0 <= t)%Qc → (t <= 1)%Qc →
  (s <= lerp (ar := exact) s e t)%Qc ∧ (lerp (ar := exact) s e t <= e)%Qc.
Proof.
  intros Hse Ht0 Ht1. unfold lerp. cbn [num_add num_mul num_sub exact].
  apply Qcle_minus_iff in Hse. split.
  - rewrite <- (Qcplus_0_r s) at 1.
    by apply Qcplus_le_mono_l, Qcmult_nonneg_nonneg.
  - apply Qcle_trans with (s + (e - s) * 1)%Qc.
    + by apply Qcplus_le_mono_l, Qcmult_le_mono_nonneg_l.
    + replace (s + (e - s) * 1)%Qc with e by ring. apply Qcle_refl.
Qed.

(** With rounding it need not be. On a line with mutations at 0.3, 0.9
    and 1 the program interpolates [t = 1] between 0.3 and 0.9 to
    0.9000000000000001, the float after 0.9. The new mutation is then put
    after the one at 0.9, [unsplitAtIndex(1)] removes that one, and the
    state that is left has the new parameter in its place, with the new
    id. *)
Lemma split_then_unsplit_rounds_past_boundary :
  ∃ cs cs2,
    Examples.wideSplits = Ok cs
    ∧ mutations cs = [mkMutation "1" Examples.t03 SvgChar.L;
                      mkMutation "2" Examples.t09 SvgChar.L;
                      mkMutation "a" 1 SvgChar.L]
    ∧ (Examples.t09 < lerp (ar := binary64) Examples.t03 Examples.t09 1)%Qc
    ∧ splitThenUnsplit (H := Examples.pointCalculator) (ar := binary64) cs 1 1
        (mkWorld 2 []) = Ok (cs2, mkWorld 3 [])
    ∧ mutations cs2
      = [mkMutation "1" Examples.t03 SvgChar.L;
         mkMutation "3" (Q2Qc (4053239664633447 # 4503599627370496)) SvgChar.L;
         mkMutation "a" 1 SvgChar.L].
Proof.
  eexists _, _. split; [vm_compute; reflexivity|].
  split; [reflexivity|]. split; [vm_compute; reflexivity|].
  split; [vm_compute; reflexivity|]. reflexivity.
Qed.

(** ** PathMutator: build *)

Section BuildProperties.
Context {Calc : Type}.
Variable toSubPathCommands : SubPathState Calc → list Command.

Lemma getStart_setFirst (p : option Point) (cmd : Command) :
  getStart (setPoints (PathMutator.setFirst p (getPoints cmd)) cmd) = p.
Proof. unfold getStart, getPoints. cbn. by destruct (cmd_points cmd). Qed.

Lemma relink_head (prev cmd : Command) (cmds : list Command) :
  PathMutator.relink prev cmds !! 0%nat = Some cmd → getStart cmd = getEnd prev.
Proof.
  destruct cmds as [|c cmds]; [done|]. cbn. intros [= <-]. apply getStart_setFirst.
Qed.

Lemma relink_chain (prev a b : Command) (cmds : list Command) (i : nat) :
  PathMutator.relink prev cmds !! i = Some a →
  PathMutator.relink prev cmds !! S i = Some b →
  getStart b = getEnd a.
Proof.
  revert prev i. induction cmds as [|c cmds IH]; intros prev i Ha Hb; [done|].
  cbn [PathMutator.relink] in Ha, Hb. destruct i as [|i].
  - injection Ha as <-. by eapply relink_head.
  - by eapply IH.
Qed.

(** C1. In the snapshot [build] returns the first command has no start
    point, and every later command starts at the end point of the command
    before it, whatever points the commands held. *)
Theorem build_repairs_continuity (pm : PathMutator.t (Calc := Calc))
    (path : PathMutator.Path (Calc := Calc)) :
  PathMutator.build toSubPathCommands pm = Ok path →
  (∀ first, PathMutator.path_commands path !! 0%nat = Some first → getStart first = None)
  ∧ (∀ i prev cmd,
       PathMutator.path_commands path !! i = Some prev →
       PathMutator.path_commands path !! S i = Some cmd →
       getStart cmd = getEnd prev).
Proof.
  unfold PathMutator.build, rbind. intros Hb.
  destruct (PathMutator.reorder _ _) as [reordered|]; [|done].
  injection Hb as <-. cbn [PathMutator.path_commands].
  destruct (concat reordered) as [|c cmds]; [done|].
  cbn [PathMutator.repairContinuity]. split.
  - intros first [= <-]. by destruct (getStart c) eqn:Hc.
  - intros [|i] prev cmd Hprev Hcmd.
    + injection Hprev as <-. by eapply relink_head.
    + by eapply relink_chain.
Qed.

(** [build] returns whenever every entry of the ordering names a leaf. *)
Lemma build_returns (pm : PathMutator.t (Calc := Calc)) :
  Forall (λ i, is_Some (findSubPathState (PathMutator.subPathStateMap pm) i))
         (PathMutator.subPathOrdering pm) →
  ∃ path, PathMutator.build toSubPathCommands pm = Ok path.
Proof.
  unfold PathMutator.build, findSubPathState. intros Hall.
  assert (∃ r, PathMutator.reorder
                 (toSubPathCommands <$> flattenSubPathStates (PathMutator.subPathStateMap pm))
                 (PathMutator.subPathOrdering pm) = Ok r) as [r ->]; [|by eexists].
  induction Hall as [|i l [sps Hi] _ [r IH]]; [by eexists|].
  cbn [PathMutator.reorder]. unfold at_index in *.
  destruct (i <? 0); [done|]. rewrite list_lookup_fmap, Hi. cbn.
  rewrite IH. by eexists.
Qed.
End BuildProperties.

Lemma build_repairs_continuity_witness :
  ∃ path, PathMutator.build Examples.storedCommands Examples.twoCommandsPath = Ok path
          ∧ (∀ first, PathMutator.path_commands path !! 0%nat = Some first →
                      getStart first = None)
          ∧ (∀ i prev cmd,
               PathMutator.path_commands path !! i = Some prev →
               PathMutator.path_commands path !! S i = Some cmd →
               getStart cmd = getEnd prev).
Proof.
  eexists. split; [vm_compute; reflexivity|].
  apply (build_repairs_continuity Examples.storedCommands Examples.twoCommandsPath).
  vm_compute. reflexivity.
Defined.

(** ** PathMutator: the forest of sub-paths *)

Section ForestProperties.
Context {Calc : Type}.
Implicit Types (node state : SubPathState Calc) (forest : list (SubPathState Calc)).
Implicit Types (css : list (CommandState Calc)).

Lemma SubPathState_forest_ind (P : SubPathState Calc → Prop) :
  (∀ css rev off id children,
     Forall P children → P (mkSubPathState css rev off id children)) →
  ∀ node, P node.
Proof.
  intros Hstep. fix IH 1. intros [css rev off id children]. apply Hstep.
  refine ((fix go (l : list (SubPathState Calc)) : Forall P l :=
             match l with
             | [] => Forall_nil_2 P
             | c :: l' => Forall_cons_2 P c l' (IH c) (go l')
             end) children).
Qed.

Lemma flattenNode_leaf css rev off id :
  flattenNode (mkSubPathState css rev off id []) = [mkSubPathState css rev off id []].
Proof. done. Qed.

Lemma flattenNode_children css rev off id (c : SubPathState Calc) children :
  flattenNode (mkSubPathState css rev off id (c :: children))
  = flattenSubPathStates (c :: children).
Proof.
  cbn. apply (f_equal (app (flattenNode c))).
  induction children as [|c' children IH]; [done|].
  cbn. by rewrite IH.
Qed.

Lemma setStateFn_children state cmsIdx css rev off id (c : SubPathState Calc) children counter :
  PathMutator.setStateFn state cmsIdx (mkSubPathState css rev off id (c :: children)) counter
  = ((mkSubPathState css rev off id
        (PathMutator.setStateAll state cmsIdx (c :: children) counter).1),
     (PathMutator.setStateAll state cmsIdx (c :: children) counter).2).
Proof.
  cbn [PathMutator.setStateFn].
  set (mapFn := fix mapFn (l : list (SubPathState Calc)) (c0 : Z) := _).
  assert (∀ l c0, mapFn l c0 = PathMutator.setStateAll state cmsIdx l c0) as Heq.
  { induction l as [|s l IHl]; intros c0; [done|].
    cbn. destruct (PathMutator.setStateFn state cmsIdx s c0) as [s' c1].
    rewrite IHl. by destruct (PathMutator.setStateAll state cmsIdx l c1). }
  cbn [PathMutator.setStateAll].
  destruct (PathMutator.setStateFn state cmsIdx c counter) as [s' c1].
  rewrite Heq. by destruct (PathMutator.setStateAll state cmsIdx children c1).
Qed.

Lemma replaceLeaf_app state cmsIdx counter (l1 l2 : list (SubPathState Calc)) :
  replaceLeaf state cmsIdx counter (l1 ++ l2)
  = replaceLeaf state cmsIdx counter l1
    ++ replaceLeaf state cmsIdx (counter + Z.of_nat (length l1)) l2.
Proof.
  revert counter. induction l1 as [|x l1 IH]; intros counter.
  - cbn. by rewrite Z.add_0_r.
  - cbn [replaceLeaf app length]. rewrite IH, <- app_assoc. do 3 f_equal. lia.
Qed.

Lemma setStateAll_nil state cmsIdx counter :
  PathMutator.setStateAll state cmsIdx [] counter = ([], counter).
Proof. done. Qed.

Lemma setStateAll_length state cmsIdx forest counter :
  length (PathMutator.setStateAll state cmsIdx forest counter).1 = length forest.
Proof.
  revert counter. induction forest as [|s forest IH]; intros counter; [done|].
  cbn. destruct (PathMutator.setStateFn state cmsIdx s counter) as [s' c1].
  specialize (IH c1). destruct (PathMutator.setStateAll state cmsIdx forest c1).
  cbn in *. by rewrite IH.
Qed.

(** [setStateFn] counts the leaves it passes and replaces the one counted
    [cmsIdx]. *)
Lemma setStateFn_flatten state cmsIdx node :
  ∀ counter,
    (PathMutator.setStateFn state cmsIdx node counter).2
    = counter + Z.of_nat (length (flattenNode node))
    ∧ flattenNode (PathMutator.setStateFn state cmsIdx node counter).1
      = replaceLeaf state cmsIdx counter (flattenNode node).
Proof.
  induction node as [css rev off id children IH] using SubPathState_forest_ind.
  intros counter. destruct children as [|c children].
  - cbn [PathMutator.setStateFn]. rewrite flattenNode_leaf. cbn.
    split; [lia|]. rewrite app_nil_r. by destruct (counter =? cmsIdx).
  - rewrite setStateFn_children, flattenNode_children. cbn [fst snd].
    assert (∀ forest c0,
              Forall (λ node, ∀ counter,
                        (PathMutator.setStateFn state cmsIdx node counter).2
                        = counter + Z.of_nat (length (flattenNode node))
                        ∧ flattenNode (PathMutator.setStateFn state cmsIdx node counter).1
                          = replaceLeaf state cmsIdx counter (flattenNode node)) forest →
              (PathMutator.setStateAll state cmsIdx forest c0).2
              = c0 + Z.of_nat (length (flattenSubPathStates forest))
              ∧ flattenSubPathStates (PathMutator.setStateAll state cmsIdx forest c0).1
                = replaceLeaf state cmsIdx c0 (flattenSubPathStates forest)) as Hall.
    { clear. intros forest c0 Hall. revert c0.
      induction Hall as [|s forest Hs _ IHf]; intros c0.
      - cbn. split; [lia|done].
      - cbn [PathMutator.setStateAll]. destruct (Hs c0) as [Hc Hf].
        destruct (PathMutator.setStateFn state cmsIdx s c0) as [s' c1].
        destruct (IHf c1) as [Hc' Hf'].
        destruct (PathMutator.setStateAll state cmsIdx forest c1) as [rest' c2].
        cbn [fst snd] in *. unfold flattenSubPathStates in *.
        rewrite !bind_cons, length_app, replaceLeaf_app, Hf, Hf', Hc.
        split; [lia|done]. }
    destruct (Hall (c :: children) counter IH) as [Hc Hf]. split; [done|].
    pose proof (setStateAll_length state cmsIdx (c :: children) counter) as Hlen.
    destruct (PathMutator.setStateAll state cmsIdx (c :: children) counter).1
      as [|c' children'] eqn:Hch; [done|].
    by rewrite flattenNode_children.
Qed.

Lemma setStateAll_flatten state cmsIdx forest counter :
  flattenSubPathStates (PathMutator.setStateAll state cmsIdx forest counter).1
  = replaceLeaf state cmsIdx counter (flattenSubPathStates forest).
Proof.
  revert counter. induction forest as [|s forest IH]; intros counter; [done|].
  cbn [PathMutator.setStateAll].
  destruct (setStateFn_flatten state cmsIdx s counter) as [Hc Hf].
  destruct (PathMutator.setStateFn state cmsIdx s counter) as [s' c1].
  specialize (IH c1).
  destruct (PathMutator.setStateAll state cmsIdx forest c1) as [rest' c2].
  cbn [fst snd] in *. unfold flattenSubPathStates in *.
  by rewrite !bind_cons, replaceLeaf_app, Hf, IH, Hc.
Qed.

Lemma replaceLeaf_lookup state cmsIdx counter (leaves : list (SubPathState Calc)) (n : nat) :
  cmsIdx = counter + Z.of_nat n → (n < length leaves)%nat →
  replaceLeaf state cmsIdx counter leaves
  = take n leaves ++ flattenNode state ++ drop (S n) leaves.
Proof.
  revert counter n. induction leaves as [|leaf leaves IH]; intros counter n Hn Hlen.
  - cbn in Hlen. lia.
  - cbn [replaceLeaf]. destruct n as [|n].
    + rewrite (proj2 (Z.eqb_eq _ _)) by lia. cbn. f_equal.
      clear IH Hlen. assert (counter + 1 > cmsIdx) as Hgt by lia. clear Hn.
      revert Hgt. generalize (counter + 1) as c. induction leaves as [|l leaves IH];
        intros c Hc; [done|].
      cbn. rewrite (proj2 (Z.eqb_neq _ _)) by lia. cbn. f_equal. apply IH. lia.
    + rewrite (proj2 (Z.eqb_neq _ _)) by lia. cbn. f_equal.
      apply IH; [lia|]. cbn in Hlen. lia.
Qed.

(** After [setSubPathState] a leaf sits where the old leaf was, and a node
    with children has its leaves there. *)
Lemma setSubPathState_flatten (pm : PathMutator.t (Calc := Calc)) state (n : nat) :
  (n < length (flattenSubPathStates (PathMutator.subPathStateMap pm)))%nat →
  flattenSubPathStates
    (PathMutator.subPathStateMap (PathMutator.setSubPathState pm state (Z.of_nat n)))
  = take n (flattenSubPathStates (PathMutator.subPathStateMap pm))
    ++ flattenNode state
    ++ drop (S n) (flattenSubPathStates (PathMutator.subPathStateMap pm)).
Proof.
  intros Hn. unfold PathMutator.setSubPathState. cbn [PathMutator.subPathStateMap].
  rewrite setStateAll_flatten. by apply replaceLeaf_lookup; [lia|].
Qed.

Lemma findSubPathState_Some forest cmsIdx sps :
  findSubPathState forest cmsIdx = Some sps →
  ∃ n, cmsIdx = Z.of_nat n ∧ flattenSubPathStates forest !! n = Some sps
       ∧ splitSubPaths sps = [].
Proof.
  unfold findSubPathState, at_index. intros Hf.
  destruct (Z.ltb_spec cmsIdx 0); [done|].
  exists (Z.to_nat cmsIdx). split; [lia|]. split; [done|].
  assert (∀ node leaf, leaf ∈ flattenNode node → splitSubPaths leaf = []) as Hleaf.
  { clear. induction node as [css rev off id children IH] using SubPathState_forest_ind.
    intros leaf Hin. destruct children as [|c children].
    - rewrite flattenNode_leaf in Hin. by apply list_elem_of_singleton in Hin as ->.
    - rewrite flattenNode_children in Hin. unfold flattenSubPathStates in Hin.
      apply list_elem_of_bind in Hin as (child & Hin & Hchild).
      rewrite Forall_forall in IH. by eapply IH. }
  apply list_elem_of_lookup_2 in Hf. unfold flattenSubPathStates in Hf.
  apply list_elem_of_bind in Hf as (node & Hin & _). by eapply Hleaf.
Qed.

(** Reading back the leaf that [setSubPathState] has just stored. *)
Lemma findSubPathState_setSubPathState (pm : PathMutator.t (Calc := Calc))
    state cmsIdx old :
  findSubPathState (PathMutator.subPathStateMap pm) cmsIdx = Some old →
  splitSubPaths state = [] →
  findSubPathState
    (PathMutator.subPathStateMap (PathMutator.setSubPathState pm state cmsIdx)) cmsIdx
  = Some state.
Proof.
  intros (n & -> & Hn & _)%findSubPathState_Some Hleaf.
  unfold findSubPathState. rewrite at_index_of_nat.
  rewrite setSubPathState_flatten by (by eapply lookup_lt_Some).
  apply lookup_lt_Some in Hn.
  rewrite lookup_app_r by (rewrite length_take; lia).
  rewrite length_take. replace (n - n `min` _)%nat with 0%nat by lia.
  destruct state as [css rev off id children]. cbn in Hleaf. by subst.
Qed.
End ForestProperties.

(** ** PathMutator: shifting and reversing *)

Section ShiftProperties.
Context {Calc : Type}.

Lemma findOrdered_Ok (pm : PathMutator.t (Calc := Calc)) (subIdx cmsIdx : Z)
    (sps : SubPathState Calc) :
  at_index (PathMutator.subPathOrdering pm) subIdx = Some cmsIdx →
  findSubPathState (PathMutator.subPathStateMap pm) cmsIdx = Some sps →
  PathMutator.findOrdered pm subIdx = Ok (cmsIdx, sps).
Proof. unfold PathMutator.findOrdered. by intros -> ->. Qed.

Lemma findOrdered_inv (pm : PathMutator.t (Calc := Calc)) (subIdx cmsIdx : Z)
    (sps : SubPathState Calc) :
  PathMutator.findOrdered pm subIdx = Ok (cmsIdx, sps) →
  at_index (PathMutator.subPathOrdering pm) subIdx = Some cmsIdx
  ∧ findSubPathState (PathMutator.subPathStateMap pm) cmsIdx = Some sps.
Proof.
  unfold PathMutator.findOrdered. intros Hf.
  destruct (at_index _ subIdx) as [i|]; [|done].
  destruct (findSubPathState _ i) as [s|] eqn:Hs; [|done]. by simplify_eq.
Qed.

End ShiftProperties.



(** ** PathMutator: splitting a command *)

Section SplitCommandProperties.
Context {Calc : Type} `{Calculator Calc} {ar : Arith}.

Lemma getUpdatedShiftOffsetsAfterSplit_spec (pm : PathMutator.t (Calc := Calc))
    (cmsIdx : Z) (cmIdx : nat) (numSplits : Z) (sps : SubPathState Calc) :
  findSubPathState (PathMutator.subPathStateMap pm) cmsIdx = Some sps →
  shiftOffset sps ≠ 0 →
  PathMutator.getUpdatedShiftOffsetsAfterSplit pm cmsIdx cmIdx numSplits
  = Ok (if Z.of_nat cmIdx <=? shiftOffset sps
        then shiftOffset sps + numSplits else shiftOffset sps).
Proof.
  intros Hfind Hne. unfold PathMutator.getUpdatedShiftOffsetsAfterSplit.
  rewrite Hfind. rewrite (proj2 (Z.eqb_neq _ _) Hne). cbn [negb andb].
  by destruct (Z.of_nat cmIdx <=? shiftOffset sps).
Qed.

Lemma findTarget_spec (cmsIdx cmdIdx counter : Z) (cms : list (CommandState Calc))
    (cmIdx : nat) (info : PathMutator.CommandStateInfo (Calc := Calc)) :
  PathMutator.findTarget cmsIdx cmdIdx cms counter cmIdx = Ok info →
  PathMutator.info_cmsIdx info = cmsIdx
  ∧ ∃ j, PathMutator.info_cmIdx info = (cmIdx + j)%nat
         ∧ cms !! j = Some (PathMutator.targetCm info).
Proof.
  revert counter cmIdx. induction cms as [|cm cms IH]; intros counter cmIdx Hinfo; [done|].
  cbn [PathMutator.findTarget] in Hinfo. case_match.
  - simplify_eq. cbn. split; [done|]. exists 0%nat. split; [lia|done].
  - destruct (IH _ _ Hinfo) as (Hcms & j & Hj & Hlook). split; [done|].
    exists (S j). split; [lia|done].
Qed.

(** What [findCommandStateInfo] answers: the leaf the ordering names and
    the command state at [cmIdx] in it. *)
Lemma findCommandStateInfo_inv (pm : PathMutator.t (Calc := Calc)) (subIdx cmdIdx : Z)
    (info : PathMutator.CommandStateInfo (Calc := Calc)) :
  PathMutator.findCommandStateInfo pm subIdx cmdIdx = Ok info →
  ∃ sps, PathMutator.findOrdered pm subIdx = Ok (PathMutator.info_cmsIdx info, sps)
         ∧ commandStates sps !! PathMutator.info_cmIdx info
           = Some (PathMutator.targetCm info).
Proof.
  unfold PathMutator.findCommandStateInfo, rbind. intros Hinfo.
  destruct (PathMutator.findOrdered pm subIdx) as [[cmsIdx sps]|] eqn:Hfo; [|done].
  apply findTarget_spec in Hinfo as (-> & j & Hj & Hlook).
  exists sps. split; [done|]. by rewrite Hj.
Qed.

(** The sub-path both split operations store: the old one with the new
    shift offset and the rebuilt command state. *)
Lemma stored_subpath_shiftOffset (pm : PathMutator.t (Calc := Calc)) (cmsIdx offset : Z)
    (cmIdx : nat) (cs : CommandState Calc) (sps : SubPathState Calc) :
  findSubPathState (PathMutator.subPathStateMap pm) cmsIdx = Some sps →
  ∃ sps',
    findSubPathState
      (PathMutator.subPathStateMap
         (PathMutator.setSubPathState pm
            (SubPathStateMutator.setCommandState cs cmIdx
               (SubPathStateMutator.setShiftOffset offset sps)) cmsIdx)) cmsIdx
    = Some sps'
    ∧ shiftOffset sps' = offset
    ∧ commandStates sps' = <[cmIdx := cs]> (commandStates sps).
Proof.
  intros Hfind. pose proof Hfind as (_ & _ & _ & Hleaf)%findSubPathState_Some.
  eexists. split.
  - by eapply findSubPathState_setSubPathState.
  - split; reflexivity.
Qed.

(** The mutations a command state has after [splitAtIndex] or
    [splitInHalfAtIndex] and [build]: one more for each parameter, none
    more when it is Move-backed. *)
Lemma split_build_length (m m' : CommandStateMutator Calc) (cs : CommandState Calc)
    (ts : list (option number)) (w w' : World) :
  split m ts w = Ok (m', w') →
  build m' = Ok cs →
  length (mutations cs)
  = (length (m_mutations m)
     + if bool_decide (getSvgChar (m_backingCommand m) = SvgChar.M) then 0
       else length ts)%nat.
Proof.
  intros Hsplit Hbuild. apply build_fields in Hbuild as (_ & -> & _).
  case_bool_decide as HM.
  - rewrite (proj1 (split_of_move_is_noop m 0 [] ts w HM)) in Hsplit.
    injection Hsplit as <- <-. lia.
  - by eapply split_adds_mutations.
Qed.

(** C8. When [splitCommand] or [splitCommandInHalf] is applied to a
    sub-path whose shift offset is not zero, the offset the sub-path has
    afterwards is the old one plus the number of parameters passed (the
    number of [ts], or one) if the index [cmIdx] of the command state that
    owns the resolved command is at most the old offset, and the old one
    otherwise. That command state is stored back at [cmIdx] with as many
    mutations more as parameters were passed, or with none more when it
    is Move-backed. *)
Theorem split_moves_shift_pivot
    (pm pm' : PathMutator.t (Calc := Calc)) (subIdx cmdIdx : Z)
    (info : PathMutator.CommandStateInfo (Calc := Calc)) (sps : SubPathState Calc)
    (w w' : World) :
  PathMutator.findCommandStateInfo pm subIdx cmdIdx = Ok info →
  findSubPathState (PathMutator.subPathStateMap pm) (PathMutator.info_cmsIdx info)
  = Some sps →
  shiftOffset sps ≠ 0 →
  (∀ ts, PathMutator.splitCommand pm subIdx cmdIdx ts w = Ok (pm', w') →
     ∃ sps' cs',
       findSubPathState (PathMutator.subPathStateMap pm')
         (PathMutator.info_cmsIdx info) = Some sps'
       ∧ (Z.of_nat (PathMutator.info_cmIdx info) <= shiftOffset sps →
          shiftOffset sps' = shiftOffset sps + Z.of_nat (length ts))
       ∧ (shiftOffset sps < Z.of_nat (PathMutator.info_cmIdx info) →
          shiftOffset sps' = shiftOffset sps)
       ∧ commandStates sps !! PathMutator.info_cmIdx info
         = Some (PathMutator.targetCm info)
       ∧ commandStates sps' = <[PathMutator.info_cmIdx info := cs']> (commandStates sps)
       ∧ length (mutations cs')
         = (length (mutations (PathMutator.targetCm info))
            + if bool_decide (getSvgChar (backingCommand (PathMutator.targetCm info))
                              = SvgChar.M)
              then 0 else length ts)%nat)
  ∧ (PathMutator.splitCommandInHalf pm subIdx cmdIdx w = Ok (pm', w') →
     ∃ sps' cs',
       findSubPathState (PathMutator.subPathStateMap pm')
         (PathMutator.info_cmsIdx info) = Some sps'
       ∧ (Z.of_nat (PathMutator.info_cmIdx info) <= shiftOffset sps →
          shiftOffset sps' = shiftOffset sps + 1)
       ∧ (shiftOffset sps < Z.of_nat (PathMutator.info_cmIdx info) →
          shiftOffset sps' = shiftOffset sps)
       ∧ commandStates sps !! PathMutator.info_cmIdx info
         = Some (PathMutator.targetCm info)
       ∧ commandStates sps' = <[PathMutator.info_cmIdx info := cs']> (commandStates sps)
       ∧ length (mutations cs')
         = (length (mutations (PathMutator.targetCm info))
            + if bool_decide (getSvgChar (backingCommand (PathMutator.targetCm info))
                              = SvgChar.M)
              then 0 else 1)%nat).
Proof.
  intros Hinfo Hfind Hne.
  assert (commandStates sps !! PathMutator.info_cmIdx info
          = Some (PathMutator.targetCm info)) as Hown.
  { destruct (findCommandStateInfo_inv _ _ _ _ Hinfo) as (sps0 & Hfo & Htarget).
    apply findOrdered_inv in Hfo as [_ Hfind0]. rewrite Hfind in Hfind0.
    by injection Hfind0 as <-. }
  split.
  - intros ts Hrun. unfold PathMutator.splitCommand in Hrun.
    case_bool_decide; [done|]. unfold bind, lift in Hrun. rewrite Hinfo in Hrun.
    rewrite (getUpdatedShiftOffsetsAfterSplit_spec _ _ _ _ sps Hfind Hne) in Hrun.
    rewrite Hfind in Hrun. cbn [from_option] in Hrun.
    destruct (splitAtIndex _ _ _ _) as [[m w1]|] eqn:Hsplit; [|done].
    destruct (build m) as [cs|] eqn:Hbuild; [|done].
    unfold ret in Hrun. injection Hrun as <- <-.
    destruct (stored_subpath_shiftOffset pm (PathMutator.info_cmsIdx info)
                (if Z.of_nat (PathMutator.info_cmIdx info) <=? shiftOffset sps
                 then shiftOffset sps + Z.of_nat (length ts) else shiftOffset sps)
                (PathMutator.info_cmIdx info) cs sps Hfind)
      as (sps' & Hfind' & Hoff & Hcss).
    exists sps', cs. split; [done|]. rewrite Hoff. split_and!; try done.
    + intros Hcmp. by rewrite (proj2 (Z.leb_le _ _) Hcmp).
    + intros Hcmp. by rewrite (proj2 (Z.leb_gt _ _) Hcmp).
    + unfold splitAtIndex in Hsplit.
      rewrite (split_build_length _ _ _ _ _ _ Hsplit Hbuild).
      by rewrite length_fmap.
  - intros Hrun. unfold PathMutator.splitCommandInHalf in Hrun.
    unfold bind, lift in Hrun. rewrite Hinfo in Hrun.
    rewrite (getUpdatedShiftOffsetsAfterSplit_spec _ _ _ _ sps Hfind Hne) in Hrun.
    rewrite Hfind in Hrun. cbn [from_option] in Hrun.
    destruct (splitInHalfAtIndex _ _ _) as [[m w1]|] eqn:Hsplit; [|done].
    destruct (build m) as [cs|] eqn:Hbuild; [|done].
    unfold ret in Hrun. injection Hrun as <- <-.
    destruct (stored_subpath_shiftOffset pm (PathMutator.info_cmsIdx info)
                (if Z.of_nat (PathMutator.info_cmIdx info) <=? shiftOffset sps
                 then shiftOffset sps + 1 else shiftOffset sps)
                (PathMutator.info_cmIdx info) cs sps Hfind)
      as (sps' & Hfind' & Hoff & Hcss).
    exists sps', cs. split; [done|]. rewrite Hoff. split_and!; try done.
    + intros Hcmp. by rewrite (proj2 (Z.leb_le _ _) Hcmp).
    + intros Hcmp. by rewrite (proj2 (Z.leb_gt _ _) Hcmp).
    + unfold splitInHalfAtIndex in Hsplit.
      by rewrite (split_build_length _ _ _ _ _ _ Hsplit Hbuild).
Qed.
End SplitCommandProperties.

(** [splitCommand] returns whenever the command is found and its command
    state splits and builds. *)
Lemma splitCommand_returns {Calc : Type} `{Calculator Calc} {ar : Arith}
    (pm : PathMutator.t (Calc := Calc)) (subIdx cmdIdx : Z) (ts : list number)
    (info : PathMutator.CommandStateInfo (Calc := Calc))
    (m : CommandStateMutator Calc) (cs : CommandState Calc) (w w1 : World) :
  ts ≠ [] →
  PathMutator.findCommandStateInfo pm subIdx cmdIdx = Ok info →
  splitAtIndex (mutate (PathMutator.targetCm info)) (PathMutator.info_splitIdx info) ts w
  = Ok (m, w1) →
  build m = Ok cs →
  ∃ pm', PathMutator.splitCommand pm subIdx cmdIdx ts w = Ok (pm', w1).
Proof.
  intros Hts Hinfo Hsplit Hbuild.
  destruct (findCommandStateInfo_inv _ _ _ _ Hinfo) as (sps & Hfo & _).
  apply findOrdered_inv in Hfo as [_ Hfind].
  unfold PathMutator.splitCommand. rewrite bool_decide_eq_false_2 by done.
  unfold bind, lift. rewrite Hinfo.
  unfold PathMutator.getUpdatedShiftOffsetsAfterSplit. rewrite Hfind.
  destruct (negb _ && _); cbn [from_option]; rewrite Hsplit, Hbuild; by eexists.
Qed.

Lemma split_moves_shift_pivot_witness :
  ∃ pm' sps' cs',
    PathMutator.splitCommand (H := Examples.pointCalculator) Examples.shiftedPath 0 0
      [Q2Qc (1 # 2)] Examples.world0 = Ok (pm', mkWorld 1 [])
    ∧ findSubPathState (PathMutator.subPathStateMap pm') 0 = Some sps'
    ∧ shiftOffset sps' = 2
    ∧ commandStates sps' = [Examples.moveState; cs'; Examples.lineState]
    ∧ length (mutations cs') = 2%nat.
Proof.
  destruct (PathMutator.splitCommand (H := Examples.pointCalculator) Examples.shiftedPath
              0 0 [Q2Qc (1 # 2)] Examples.world0) as [[pm' w']|] eqn:Hrun;
    [|vm_compute in Hrun; discriminate].
  destruct (split_moves_shift_pivot (H := Examples.pointCalculator)
              Examples.shiftedPath pm' 0 0
              (PathMutator.mkInfo Examples.lineState 0 1 0) Examples.shifted
              Examples.world0 w') as [Hsplit _].
  - reflexivity.
  - reflexivity.
  - intros [=].
  - destruct (Hsplit _ Hrun) as (sps' & cs' & Hfind & Hle & _ & _ & Hcss & Hlen).
    exists pm', sps', cs'. split_and!.
    + vm_compute in Hrun. injection Hrun as <- <-. reflexivity.
    + exact Hfind.
    + apply Hle. vm_compute. intros [=].
    + exact Hcss.
    + exact Hlen.
Defined.

(** The command state's index is not the command's position. On a
    sub-path of a Move, a line in three parts and a line, shifted by two,
    the command at index 1 resolves to the last part of the first line:
    the command at position 3, after the pivot, in the command state at
    index 1, before it. [splitCommand] moves the pivot to 3. *)
Lemma splitCommand_moves_pivot_before_resolved_command :
  ∃ pm' w' sps',
    PathMutator.findCommandStateInfo Examples.pivotPath 0 1
    = Ok (PathMutator.mkInfo Examples.threeSplits 0 1 2)
    ∧ commandPosition Examples.pivotSubPath 1 2 = 3
    ∧ shiftOffset Examples.pivotSubPath = 2
    ∧ PathMutator.splitCommand (H := Examples.pointCalculator) Examples.pivotPath 0 1
        [Q2Qc (1 # 2)] Examples.world0 = Ok (pm', w')
    ∧ findSubPathState (PathMutator.subPathStateMap pm') 0 = Some sps'
    ∧ shiftOffset sps' = 3.
Proof.
  eexists _, _, _. split; [vm_compute; reflexivity|].
  split; [reflexivity|]. split; [reflexivity|].
  split; [vm_compute; reflexivity|]. split; reflexivity.
Qed.

(** ** PathMutator: splitting a stroked sub-path *)

Section StrokeProperties.
Context {Calc : Type} `{Calculator Calc} {ar : Arith}.

Lemma countCommands_app (l1 l2 : list (CommandState Calc)) :
  countCommands (l1 ++ l2) = countCommands l1 + countCommands l2.
Proof.
  unfold countCommands, sum. induction l1 as [|cs l1 IH]; [done|].
  cbn in *. lia.
Qed.

Lemma countCommands_nil : countCommands (Calc := Calc) [] = 0.
Proof. done. Qed.

Lemma countCommands_cons (cs : CommandState Calc) (l : list (CommandState Calc)) :
  countCommands (cs :: l) = Z.of_nat (length (commands cs)) + countCommands l.
Proof. done. Qed.

(** The two halves of a fork share out the mutations of the state. *)
Lemma fork_lengths (cs l r : CommandState Calc) (splitIdx : Z) :
  fork cs splitIdx = Ok (l, r) →
  (length (commands l) + length (commands r) = length (mutations cs))%nat.
Proof.
  unfold fork, rbind. intros Hf.
  destruct (forkLeft _ _) as [ml|] eqn:Hl; [|done].
  destruct (build ml) as [l'|] eqn:Hbl; [|done].
  destruct (forkRight _ _) as [mr|] eqn:Hr; [|done].
  destruct (build mr) as [r'|] eqn:Hbr; [|done].
  simplify_eq/=.
  apply build_fields in Hbl as (_ & Hml & _ & _ & _ & ->).
  apply build_fields in Hbr as (_ & Hmr & _ & _ & _ & ->).
  rewrite Hml, Hmr. unfold forkLeft, forkRight in Hl, Hr.
  destruct (at_index _ _); [|done]. simplify_eq/=.
  rewrite length_take, length_drop. lia.
Qed.

Lemma strokeLoop_spec (cmIdx : nat) (splitIdx : Z) (css : list (CommandState Calc)) :
  ∀ (i : nat) (start end_ start' end' : list (CommandState Calc)) (w w' : World),
    PathMutator.strokeLoop cmIdx splitIdx i css start end_ w = Ok ((start', end'), w') →
    (∀ cs, (i ≤ cmIdx)%nat → css !! (cmIdx - i)%nat = Some cs →
           length (commands cs) = length (mutations cs)) →
    countCommands start' + countCommands end'
    = countCommands start + countCommands end_ + countCommands css
      + (if bool_decide (i ≤ cmIdx < i + length css)%nat then 1 else 0)
    ∧ ∃ suffix, end' = end_ ++ suffix
        ∧ ((i ≤ cmIdx < i + length css)%nat →
           ∃ seam rest, suffix = newCommandState seam :: rest
                        ∧ getSvgChar seam = SvgChar.M).
Proof.
  induction css as [|cs css IH]; intros i start end_ start' end' w w' Hrun Hwf.
  - cbn in Hrun. unfold ret in Hrun. simplify_eq. split.
    + rewrite bool_decide_eq_false_2 by (cbn; lia). rewrite countCommands_nil. lia.
    + exists []. rewrite app_nil_r. split; [done|]. cbn. lia.
  - cbn [PathMutator.strokeLoop] in Hrun. rewrite countCommands_cons. cbn [length].
    destruct (Nat.ltb_spec i cmIdx) as [Hlt|Hge].
    + destruct (IH _ _ _ _ _ _ _ Hrun) as (Hcount & suffix & Hend & Hseam).
      { intros cs' Hi Hcs'. apply Hwf; [lia|].
        by replace (cmIdx - i)%nat with (S (cmIdx - S i)) by lia. }
      rewrite countCommands_app, countCommands_cons, countCommands_nil in Hcount. split.
      * rewrite Hcount. do 2 case_bool_decide; lia.
      * exists suffix. split; [done|]. intros Hr. apply Hseam. lia.
    + destruct (Nat.ltb_spec cmIdx i) as [Hgt|Heq].
      * destruct (IH _ _ _ _ _ _ _ Hrun) as (Hcount & suffix & Hend & Hseam).
        { intros cs' Hi. lia. }
        rewrite countCommands_app, countCommands_cons, countCommands_nil in Hcount. split.
        -- rewrite Hcount. do 2 case_bool_decide; lia.
        -- exists (cs :: suffix). rewrite Hend, <- app_assoc. split; [done|]. lia.
      * assert (i = cmIdx) as -> by lia.
        unfold bind, lift in Hrun.
        destruct (at_index (getCommands cs) splitIdx) as [target|]; [|done].
        cbn [from_option] in Hrun.
        destruct (fork cs splitIdx) as [[l r]|] eqn:Hfork; [|done].
        unfold newCommand, bind, uniqueId, ret in Hrun. cbn [idCounter console] in Hrun.
        apply fork_lengths in Hfork.
        rewrite <- (Hwf cs) in Hfork by (by rewrite ?Nat.sub_diag).
        set (seam := mkCommand SvgChar.M [getEnd target; getEnd target] false
                       (pretty (N.succ (idCounter w)))) in Hrun.
        set (endNext := if bool_decide (getCommands r ≠ [])
                        then (end_ ++ [newCommandState seam]) ++ [r]
                        else end_ ++ [newCommandState seam]) in Hrun.
        assert (countCommands endNext
                = countCommands end_ + 1 + Z.of_nat (length (commands r))) as HcN.
        { subst endNext. case_bool_decide as Hr.
          - rewrite !countCommands_app, !countCommands_cons, !countCommands_nil.
            cbn [newCommandState commands length]. lia.
          - rewrite !countCommands_app, !countCommands_cons, !countCommands_nil.
            cbn [newCommandState commands length].
            assert (commands r = []) as ->; [|cbn; lia].
            destruct (decide (getCommands r = [])); [done|]. by destruct Hr. }
        assert (∃ rest, endNext = end_ ++ newCommandState seam :: rest) as [rest HeN].
        { subst endNext. case_bool_decide; rewrite <- ?app_assoc; by eexists. }
        destruct (IH _ _ _ _ _ _ _ Hrun) as (Hcount & suffix & Hend & _).
        { intros cs' Hi. lia. }
        split.
        -- rewrite Hcount, HcN, countCommands_app, countCommands_cons, countCommands_nil.
           repeat case_bool_decide; lia.
        -- exists (newCommandState seam :: rest ++ suffix).
           rewrite Hend, HeN, <- app_assoc. split; [done|]. intros _. by eexists _, _.
Qed.
End StrokeProperties.

Section StrokeTheorem.
Context {Calc : Type} `{Calculator Calc} {ar : Arith}.

Lemma flattenNode_of_leaf (node : SubPathState Calc) :
  splitSubPaths node = [] → flattenNode node = [node].
Proof. destruct node as [css rev off id children]. cbn. by intros ->. Qed.

(** C7. When [splitStrokedSubPath] returns, the leaf it was applied to has
    become a node with exactly two children, both leaves; the commands of
    the two together are those of the old leaf and one more, the Move at
    the head of the second child; and the ordering has one more entry. *)
Theorem splitStrokedSubPath_makes_two_leaves
    (pm pm' : PathMutator.t (Calc := Calc)) (subIdx cmdIdx : Z)
    (info : PathMutator.CommandStateInfo (Calc := Calc)) (w w' : World) :
  PathMutator.findCommandStateInfo pm subIdx cmdIdx = Ok info →
  length (commands (PathMutator.targetCm info))
  = length (mutations (PathMutator.targetCm info)) →
  PathMutator.splitStrokedSubPath pm subIdx cmdIdx w = Ok (pm', w') →
  ∃ (n : nat) (sps first second : SubPathState Calc) (seam : Command)
    (rest : list (CommandState Calc)),
    PathMutator.info_cmsIdx info = Z.of_nat n
    ∧ flattenSubPathStates (PathMutator.subPathStateMap pm) !! n = Some sps
    ∧ PathMutator.subPathStateMap pm'
      = PathMutator.subPathStateMap
          (PathMutator.setSubPathState pm
             (SubPathStateMutator.setSplitSubPaths [first; second] sps) (Z.of_nat n))
    ∧ flattenSubPathStates (PathMutator.subPathStateMap pm')
      = take n (flattenSubPathStates (PathMutator.subPathStateMap pm))
        ++ [first; second]
        ++ drop (S n) (flattenSubPathStates (PathMutator.subPathStateMap pm))
    ∧ isSplit first = false ∧ isSplit second = false
    ∧ numCommandsInSubPath first + numCommandsInSubPath second
      = numCommandsInSubPath sps + 1
    ∧ commandStates second = newCommandState seam :: rest
    ∧ getSvgChar seam = SvgChar.M
    ∧ length (PathMutator.subPathOrdering pm')
      = S (length (PathMutator.subPathOrdering pm)).
Proof.
  intros Hinfo Hwf Hrun.
  destruct (findCommandStateInfo_inv _ _ _ _ Hinfo) as (sps & Hfo & Htarget).
  apply findOrdered_inv in Hfo as [_ Hfind].
  pose proof Hfind as (n & Hn & Hlook & Hleaf)%findSubPathState_Some.
  unfold PathMutator.splitStrokedSubPath, bind, lift in Hrun.
  rewrite Hinfo, Hfind in Hrun. cbn [from_option] in Hrun.
  destruct (PathMutator.strokeLoop _ _ _ _ _ _ _) as [[[start' end'] w1]|] eqn:Hloop;
    [|done].
  unfold uniqueId, ret in Hrun. cbn [idCounter console] in Hrun.
  injection Hrun as <- <-.
  destruct (strokeLoop_spec _ _ _ _ _ _ _ _ _ _ Hloop) as (Hcount & suffix & Hend & Hseam).
  { intros cs _ Hcs. rewrite Nat.sub_0_r, Htarget in Hcs. by simplify_eq. }
  apply lookup_lt_Some in Htarget as Hlt.
  destruct Hseam as (seam & rest & -> & HM); [lia|].
  rewrite bool_decide_eq_true_2 in Hcount by lia.
  rewrite !(countCommands_nil (Calc := Calc)) in Hcount. cbn [app] in Hend. subst end'.
  eexists n, sps, _, _, seam, rest. rewrite Hn.
  split_and!; [done|done|reflexivity| |done|done| |reflexivity|done|].
  - cbn [PathMutator.subPathStateMap]. apply lookup_lt_Some in Hlook.
    rewrite setStateAll_flatten, (replaceLeaf_lookup _ _ _ _ n) by (lia || done).
    done.
  - change (countCommands start' + countCommands (newCommandState seam :: rest)
            = countCommands (commandStates sps) + 1). lia.
  - cbn. rewrite length_app. cbn. lia.
Qed.
End StrokeTheorem.

Section StrokeReturns.
Context {Calc : Type} `{Calculator Calc} {ar : Arith}.

Lemma strokeLoop_returns (cmIdx : nat) (splitIdx : Z) (css : list (CommandState Calc)) :
  ∀ (i : nat) (start end_ : list (CommandState Calc)) (w : World),
    (∀ cs, (i ≤ cmIdx)%nat → css !! (cmIdx - i)%nat = Some cs →
           is_Some (at_index (getCommands cs) splitIdx)
           ∧ ∃ halves, fork cs splitIdx = Ok halves) →
    ∃ res w', PathMutator.strokeLoop cmIdx splitIdx i css start end_ w = Ok (res, w').
Proof.
  induction css as [|cs css IH]; intros i start end_ w Hok.
  - by eexists _, _.
  - cbn [PathMutator.strokeLoop].
    destruct (Nat.ltb_spec i cmIdx) as [Hlt|Hge].
    + apply IH. intros cs' Hi Hcs'. apply Hok; [lia|].
      by replace (cmIdx - i)%nat with (S (cmIdx - S i)) by lia.
    + destruct (Nat.ltb_spec cmIdx i) as [Hgt|Heq].
      * apply IH. intros cs' Hi. lia.
      * assert (i = cmIdx) as -> by lia.
        destruct (Hok cs) as ([target Htarget] & [l r] & Hfork);
          [lia|by rewrite Nat.sub_diag|].
        unfold bind, lift. rewrite Htarget. cbn [from_option]. rewrite Hfork.
        unfold newCommand, bind, uniqueId, ret. apply IH. intros cs' Hi. lia.
Qed.

(** [splitStrokedSubPath] returns whenever the command is found, is among
    the commands of its command state, and that state forks. *)
Lemma splitStrokedSubPath_returns
    (pm : PathMutator.t (Calc := Calc)) (subIdx cmdIdx : Z)
    (info : PathMutator.CommandStateInfo (Calc := Calc))
    (halves : CommandState Calc * CommandState Calc) (w : World) :
  PathMutator.findCommandStateInfo pm subIdx cmdIdx = Ok info →
  is_Some (at_index (getCommands (PathMutator.targetCm info))
             (PathMutator.info_splitIdx info)) →
  fork (PathMutator.targetCm info) (PathMutator.info_splitIdx info) = Ok halves →
  ∃ pm' w', PathMutator.splitStrokedSubPath pm subIdx cmdIdx w = Ok (pm', w').
Proof.
  intros Hinfo Htarget Hfork.
  destruct (findCommandStateInfo_inv _ _ _ _ Hinfo) as (sps & Hfo & Hlook).
  apply findOrdered_inv in Hfo as [_ Hfind].
  unfold PathMutator.splitStrokedSubPath, bind, lift.
  rewrite Hinfo, Hfind. cbn [from_option].
  destruct (strokeLoop_returns (PathMutator.info_cmIdx info)
              (PathMutator.info_splitIdx info) (commandStates sps) 0 [] [] w)
    as ([start' end'] & w1 & ->).
  { intros cs _ Hcs. rewrite Nat.sub_0_r, Hlook in Hcs. simplify_eq. by eauto. }
  unfold uniqueId, ret. by eexists _, _.
Qed.
End StrokeReturns.

(** The scenario of the specification: a Move and three lines, split at
    the third command. *)
Lemma splitStrokedSubPath_makes_two_leaves_witness :
  ∃ pm' first second,
    PathMutator.splitStrokedSubPath (H := Examples.pointCalculator)
      Examples.fourCommandsPath 0 2 Examples.world0 = Ok (pm', mkWorld 3 [])
    ∧ flattenSubPathStates (PathMutator.subPathStateMap pm') = [first; second]
    ∧ numCommandsInSubPath first + numCommandsInSubPath second = 4 + 1
    ∧ PathMutator.subPathOrdering pm' = [0; 1].
Proof.
  destruct (PathMutator.splitStrokedSubPath (H := Examples.pointCalculator)
              Examples.fourCommandsPath 0 2 Examples.world0) as [[pm' w']|] eqn:Hrun;
    [|vm_compute in Hrun; discriminate].
  destruct (splitStrokedSubPath_makes_two_leaves (H := Examples.pointCalculator)
              Examples.fourCommandsPath pm' 0 2
              (PathMutator.mkInfo Examples.lineState 0 2 0) Examples.world0 w')
    as (n & sps & first & second & seam & rest & Hn & Hsps & _ & Hflat & _ & _ & Hcount & _).
  - reflexivity.
  - reflexivity.
  - exact Hrun.
  - cbn in Hn. assert (n = 0%nat) as -> by lia.
    cbn in Hsps. injection Hsps as <-.
    exists pm', first, second. split_and!.
    + vm_compute in Hrun. injection Hrun as <- <-. reflexivity.
    + exact Hflat.
    + exact Hcount.
    + vm_compute in Hrun. injection Hrun as <- <-. reflexivity.
Defined.

(** * Further properties *)

(** Order between closed rationals. *)
Ltac qc_order := vm_compute; first [reflexivity | intros ?; discriminate].

(** ** CommandState: what build and project return *)

Section BuildIdProperties.
Context {Calc : Type} `{Calculator Calc} {ar : Arith}.

Lemma build_inv (m : CommandStateMutator Calc) (cs : CommandState Calc) :
  build m = Ok cs →
  ∃ cmds, build_loop (m_calculator m) (m_minT m) (m_mutations m) = Ok cmds
          ∧ cs = mkCommandState (m_backingCommand m) cmds (m_mutations m)
                   (m_transforms m) (m_calculator m) (m_minT m) (m_maxT m).
Proof.
  unfold build, rbind. destruct (build_loop _ _ _) as [cmds|]; [|done].
  intros [= <-]. by exists cmds.
Qed.

Lemma mutate_build (m : CommandStateMutator Calc) (cs : CommandState Calc) :
  build m = Ok cs → mutate cs = m.
Proof. intros (cmds & _ & ->)%build_inv. by destruct m. Qed.

Lemma build_loop_ids (calc : Calc) (prevT : number) (ms : list Mutation)
    (cmds : list Command) :
  build_loop calc prevT ms = Ok cmds → getId <$> cmds = mut_id <$> ms.
Proof.
  revert prevT cmds. induction ms as [|mu ms IH]; intros prevT cmds Hrun.
  - by injection Hrun as <-.
  - cbn in Hrun. unfold rbind in Hrun.
    destruct (calc_toCommand _) as [cmd|]; [|done].
    destruct (build_loop calc (mut_t mu) ms) as [rest|] eqn:Hrest; [|done].
    injection Hrun as <-. rewrite !fmap_cons. f_equal; [|by eapply IH].
    by destruct (bool_decide _).
Qed.

(** X1. [build] gives one command per mutation, in the same order, and
    each command carries the id of its mutation; hence [getIdAtIndex] on
    the built state answers with the id of the command at that index. *)
Theorem build_commands_carry_mutation_ids
    (m : CommandStateMutator Calc) (cs : CommandState Calc) :
  build m = Ok cs →
  getId <$> getCommands cs = mut_id <$> m_mutations m
  ∧ ∀ splitIdx cmd,
      at_index (getCommands cs) splitIdx = Some cmd →
      getIdAtIndex cs splitIdx = Ok (getId cmd).
Proof.
  intros (cmds & Hloop & ->)%build_inv. cbn.
  pose proof (build_loop_ids _ _ _ _ Hloop) as Hids.
  split; [done|]. intros splitIdx cmd Hcmd.
  unfold getIdAtIndex, at_index in *. cbn in *.
  destruct (splitIdx <? 0); [done|].
  assert ((getId <$> cmds) !! Z.to_nat splitIdx = Some (getId cmd)) as Hid
    by (by rewrite list_lookup_fmap, Hcmd).
  rewrite Hids, list_lookup_fmap in Hid.
  destruct (m_mutations m !! Z.to_nat splitIdx); cbn in Hid; congruence.
Qed.
Lemma build_loop_app (calc : Calc) (ms1 ms2 : list Mutation) :
  ∀ prevT cmds1 cmds2,
    build_loop calc prevT ms1 = Ok cmds1 →
    build_loop calc (default prevT (mut_t <$> last ms1)) ms2 = Ok cmds2 →
    ∃ cmds, build_loop calc prevT (ms1 ++ ms2) = Ok cmds.
Proof.
  induction ms1 as [|mu ms1 IH]; intros prevT cmds1 cmds2 H1 H2.
  - by exists cmds2.
  - cbn [build_loop app] in *. unfold rbind in *.
    destruct (calc_toCommand _) as [cmd|]; [|done].
    destruct (build_loop calc (mut_t mu) ms1) as [rest|] eqn:Hrest; [|done].
    destruct (IH (mut_t mu) rest cmds2 Hrest) as [cmds ->]; [|by eexists].
    rewrite <- H2. f_equal. rewrite last_cons. by destruct (last ms1).
Qed.

End BuildIdProperties.

Lemma build_commands_carry_mutation_ids_witness :
  getId <$> getCommands Examples.threeSplits = ["1"; "2"; "a"]
  ∧ getIdAtIndex Examples.threeSplits 1 = Ok "2".
Proof.
  destruct (build_commands_carry_mutation_ids (H := Examples.pointCalculator)
              (mutate Examples.threeSplits) Examples.threeSplits) as [Hids Hat].
  - vm_compute. reflexivity.
  - split; [exact Hids|]. apply (Hat 1 (Examples.builtLine "2" true)). reflexivity.
Defined.


Section ProjectRange.
Context {Calc : Type} `{Calculator Calc} {ar : Arith}.


End ProjectRange.

Section ProjectRangeExact.
Context {Calc : Type} `{Calculator Calc}.

End ProjectRangeExact.


(** ** CommandStateMutator: conversions *)

Section UnconvertProperties.
Context {Calc : Type} `{Calculator Calc} {ar : Arith}.

Lemma unconvertSubpath_mutations (m : CommandStateMutator Calc) (ms : list Mutation) :
  mut_id <$> ms = mut_id <$> m_mutations m →
  mut_t <$> ms = mut_t <$> m_mutations m →
  unconvertSubpath (setMutations ms m) = unconvertSubpath m.
Proof.
  intros Hid Ht. unfold unconvertSubpath, setMutations. cbn. f_equal.
  assert (length ms = length (m_mutations m)) as Hlen.
  { by rewrite <- (length_fmap mut_id ms), Hid, length_fmap. }
  apply list_eq. intros i. rewrite !list_lookup_imap, Hlen.
  assert (mut_id <$> ms !! i = mut_id <$> m_mutations m !! i) as Hi
    by (by rewrite <- !list_lookup_fmap, Hid).
  assert (mut_t <$> ms !! i = mut_t <$> m_mutations m !! i) as Hti
    by (by rewrite <- !list_lookup_fmap, Ht).
  destruct (ms !! i) as [a|], (m_mutations m !! i) as [b|]; simplify_eq/=; try done.
  by rewrite Hi, Hti.
Qed.

Lemma unconvertSubpath_twice (m : CommandStateMutator Calc) :
  unconvertSubpath (unconvertSubpath m) = unconvertSubpath m.
Proof.
  destruct m as [bc ms tr calc lo hi].
  apply (unconvertSubpath_mutations (mkMutator bc ms tr calc lo hi)).
  - cbn. rewrite fmap_imap. apply list_eq. intros i.
    rewrite list_lookup_imap, list_lookup_fmap. by destruct (ms !! i).
  - apply (unconvertSubpath_ts (mkMutator bc ms tr calc lo hi)).
Qed.

(** X3. [unconvertSubpath] is idempotent and keeps the id and the
    parameter of every mutation; on a backing command that is not a Close
    every mutation gets the kind of the backing command. *)
Theorem unconvertSubpath_idempotent (m : CommandStateMutator Calc) :
  unconvertSubpath (unconvertSubpath m) = unconvertSubpath m
  ∧ id_and_t <$> m_mutations (unconvertSubpath m) = id_and_t <$> m_mutations m
  ∧ (getSvgChar (m_backingCommand m) ≠ SvgChar.Z →
     Forall (λ mu, mut_svgChar mu = getSvgChar (m_backingCommand m))
            (m_mutations (unconvertSubpath m))).
Proof.
  split_and!.
  - apply unconvertSubpath_twice.
  - unfold unconvertSubpath. cbn. rewrite fmap_imap. apply list_eq. intros i.
    rewrite list_lookup_imap, list_lookup_fmap. by destruct (m_mutations m !! i).
  - intros HZ. unfold unconvertSubpath. cbn. apply Forall_forall.
    intros mu (i & mu' & -> & _)%elem_of_lookup_imap. cbn.
    by rewrite bool_decide_eq_false_2.
Qed.

(** X4. [unconvertSubpath] undoes [convertAtIndex]: for a split
    index that names a mutation, whichever it is and whatever kind it is
    converted to, unconverting the result gives what unconverting the
    mutator before the conversion gives. *)
Theorem unconvertSubpath_erases_convertAtIndex
    (m : CommandStateMutator Calc) (splitIdx : Z) (svgChar : SvgChar.t) :
  0 <= splitIdx < Z.of_nat (length (m_mutations m)) →
  ∃ m', convertAtIndex m splitIdx svgChar = Ok m'
        ∧ unconvertSubpath m' = unconvertSubpath m.
Proof.
  intros Hidx. unfold convertAtIndex.
  destruct (at_index (m_mutations m) splitIdx) as [mu|] eqn:Hmu.
  2:{ unfold at_index in Hmu. rewrite (proj2 (Z.ltb_ge _ _)) in Hmu by lia.
      apply lookup_ge_None in Hmu. lia. }
  eexists. split; [reflexivity|].
  unfold at_index in Hmu. rewrite (proj2 (Z.ltb_ge _ _)) in Hmu by lia.
  apply unconvertSubpath_mutations.
  - rewrite list_fmap_insert. cbn. apply list_insert_id.
    by rewrite list_lookup_fmap, Hmu.
  - rewrite list_fmap_insert. cbn. apply list_insert_id.
    by rewrite list_lookup_fmap, Hmu.
Qed.
End UnconvertProperties.

Lemma unconvertSubpath_idempotent_witness :
  unconvertSubpath (unconvertSubpath Examples.lineAsMove)
  = unconvertSubpath Examples.lineAsMove
  ∧ mut_svgChar <$> m_mutations (unconvertSubpath Examples.lineAsMove) = [SvgChar.L].
Proof.
  destruct (unconvertSubpath_idempotent Examples.lineAsMove) as (Hidem & _ & Hkinds).
  split; [exact Hidem|]. reflexivity.
Defined.

Lemma unconvertSubpath_erases_convertAtIndex_witness :
  ∃ m', convertAtIndex (mutate Examples.threeSplits) 1 SvgChar.C = Ok m'
        ∧ mut_svgChar <$> m_mutations m' = [SvgChar.L; SvgChar.C; SvgChar.L]
        ∧ unconvertSubpath m' = unconvertSubpath (mutate Examples.threeSplits).
Proof.
  destruct (unconvertSubpath_erases_convertAtIndex (mutate Examples.threeSplits)
              1 SvgChar.C) as (m' & Hm' & Hun); [cbn; lia|].
  exists m'. split; [exact Hm'|]. split; [|exact Hun].
  cbn in Hm'. by injection Hm' as <-.
Defined.

(** ** CommandStateMutator: reverting *)

Section RevertProperties.
Context {Calc : Type} `{Calculator Calc} {ar : Arith}.

Lemma last_splice_insert {A} (k : nat) (a : A) (l : list A) :
  (k < length l)%nat → last (splice_insert k a l) = last l.
Proof.
  intros Hk. rewrite !last_lookup, length_splice_insert. cbn.
  replace (length l) with (S (pred (length l))) at 1 by lia.
  apply lookup_splice_insert_gt; lia.
Qed.

Lemma last_forceLines (ms : list Mutation) : last (forceLines ms) = last ms.
Proof.
  rewrite !last_lookup, length_forceLines, forceLines_lookup.
  destruct (ms !! pred (length ms)) as [mu|] eqn:Hmu; [|done]. cbn.
  rewrite bool_decide_eq_false_2; [done|lia].
Qed.

Lemma split_loop_last (currSplits : list number) (currSvgChars : list SvgChar.t)
    (ts : list (option number)) (ms ms' : list Mutation) (lm : Mutation) (w w' : World) :
  sorted_by_t ms → last ms = Some lm →
  Forall (λ t, ∃ q, t = Some q ∧ (q <= mut_t lm)%Qc) ts →
  split_loop currSplits currSvgChars ts ms w = Ok (ms', w') →
  last ms' = Some lm.
Proof.
  revert ms w. induction ts as [|t ts IH]; intros ms w Hs Hl Hts Hrun.
  - cbn in Hrun. unfold ret in Hrun. by simplify_eq.
  - apply Forall_cons in Hts as [(q & -> & Hq) Hts].
    cbn in Hrun. unfold bind, uniqueId in Hrun. cbn in Hrun.
    destruct (currSvgChars !! sortedIndex currSplits q) as [svgChar|]; [|done].
    eapply IH in Hrun; [done| |  |done].
    + by apply sorted_by_t_insert.
    + rewrite last_splice_insert; [done|].
      rewrite sortedIndexBy_mut_t. cbn.
      rewrite <- (length_fmap mut_t ms).
      eapply sortedIndex_lt_length; [done| |done].
      by rewrite fmap_last, Hl.
Qed.

(** The loop returns when every parameter is a number that is not above
    the last split it started with: a kind is found for each. *)
Lemma split_loop_returns (currSplits : list number) (currSvgChars : list SvgChar.t)
    (ts : list (option number)) (ms : list Mutation) (c : number) (w : World) :
  sorted_numbers currSplits → last currSplits = Some c →
  length currSvgChars = length currSplits →
  Forall (λ t, ∃ q, t = Some q ∧ (q <= c)%Qc) ts →
  ∃ ms' w', split_loop currSplits currSvgChars ts ms w = Ok (ms', w').
Proof.
  intros Hs Hl Hlen. revert ms w. induction ts as [|t ts IH]; intros ms w Hts.
  - by eexists _, _.
  - apply Forall_cons in Hts as [(q & -> & Hq) Hts].
    cbn [split_loop]. unfold bind, uniqueId.
    destruct (lookup_lt_is_Some_2 currSvgChars (sortedIndex currSplits q)) as [k Hk].
    { rewrite Hlen. by eapply sortedIndex_lt_length. }
    rewrite Hk. by apply IH.
Qed.

Lemma revert_via_last (m m' : CommandStateMutator Calc) :
  m_backingCommand m' = m_backingCommand m →
  m_minT m' = m_minT m → m_maxT m' = m_maxT m →
  mut_id <$> last (m_mutations m') = mut_id <$> last (m_mutations m) →
  revert m' = revert m.
Proof.
  intros Hb Hlo Hhi Hl. unfold revert.
  destruct (last (m_mutations m')), (last (m_mutations m)); simplify_eq/=; [|done].
  by rewrite Hb, Hlo, Hhi, Hl.
Qed.

(** X5. [revert] throws a TypeError on a mutator with no mutation.
    Otherwise it leaves one mutation, with the id of the last one, the
    parameter [maxT] and the kind of the backing command, resets the
    transforms to the identity and the calculator to that of the backing
    command, and keeps [minT] and [maxT]; reverting again changes nothing,
    and the state built from it has one command with that id. *)
Theorem revert_resets_to_one_mutation (m : CommandStateMutator Calc) :
  match last (m_mutations m) with
  | None => revert m = Err TypeError
  | Some lm =>
      ∃ m', revert m = Ok m'
            ∧ m_mutations m'
              = [mkMutation (mut_id lm) (m_maxT m) (getSvgChar (m_backingCommand m))]
            ∧ m_transforms m' = [identityMatrix]
            ∧ m_calculator m' = newCalculator (m_backingCommand m)
            ∧ m_minT m' = m_minT m ∧ m_maxT m' = m_maxT m
            ∧ revert m' = Ok m'
            ∧ ∀ cs, build m' = Ok cs → getId <$> getCommands cs = [mut_id lm]
  end.
Proof.
  unfold revert. destruct (last (m_mutations m)) as [lm|]; [|done].
  eexists. split; [done|]. cbn. split_and!; try done.
  intros cs Hcs. unfold build, rbind in Hcs.
  destruct (build_loop _ _ _) as [cmds|] eqn:Hloop; [|done]. injection Hcs as <-.
  cbn in *. unfold rbind in Hloop. destruct (calc_toCommand _) as [cmd|]; [|done].
  by injection Hloop as <-.
Qed.

(** X6. [revert] forgets splits: on a mutator whose mutations are
    sorted by parameter, [splitAtIndex] between the boundaries [s] and [e]
    returns if every parameter [lerp s e t] it computes is at most that of
    the last mutation, and [revert] then gives what it gives without the
    split. *)
Theorem revert_undoes_splitAtIndex
    (m : CommandStateMutator Calc) (i : nat) (s e : number) (lm : Mutation)
    (ts : list number) (w : World) :
  sorted_by_t (m_mutations m) →
  boundaries (m_minT m) (m_mutations m) !! i = Some s →
  boundaries (m_minT m) (m_mutations m) !! S i = Some e →
  last (m_mutations m) = Some lm →
  Forall (λ t, (lerp s e t <= mut_t lm)%Qc) ts →
  ∃ m' w', splitAtIndex m (Z.of_nat i) ts w = Ok (m', w')
           ∧ revert m' = revert m.
Proof.
  intros Hsorted Hs He Hlast Hts.
  assert (Forall (λ t, ∃ q, t = Some q ∧ (q <= mut_t lm)%Qc)
            ((λ t, lerp_undefined (Some s) (Some e) t) <$> ts)) as Hts'.
  { apply Forall_fmap. eapply Forall_impl; [exact Hts|].
    intros t Ht. cbn. by eexists. }
  unfold splitAtIndex, split.
  fold (boundaries (m_minT m) (m_mutations m)).
  rewrite at_index_of_nat, at_index_succ, Hs, He.
  destruct (bool_decide _ || bool_decide _) eqn:Hguard.
  { by eexists _, _. }
  unfold bind.
  destruct (split_loop_returns (mut_t <$> m_mutations m) (mut_svgChar <$> m_mutations m)
              ((λ t, lerp_undefined (Some s) (Some e) t) <$> ts) (m_mutations m)
              (mut_t lm) w) as (ms' & w1 & Hloop);
    [done|by rewrite fmap_last, Hlast|by rewrite !length_fmap|done|].
  rewrite Hloop. eexists _, _. split; [reflexivity|].
  apply revert_via_last; try done. cbn. rewrite last_forceLines, Hlast.
  by erewrite (split_loop_last _ _ _ _ _ lm); [|done|done|done|exact Hloop].
Qed.

End RevertProperties.

Lemma revert_resets_to_one_mutation_witness :
  ∃ m', revert (H := Examples.pointCalculator) (mutate Examples.threeSplits) = Ok m'
        ∧ m_mutations m' = [mkMutation "a" 1 SvgChar.L]
        ∧ revert (H := Examples.pointCalculator) m' = Ok m'.
Proof.
  pose proof (revert_resets_to_one_mutation (H := Examples.pointCalculator)
                (mutate Examples.threeSplits)) as Hrevert.
  cbn [last mutate m_mutations Examples.threeSplits mutations] in Hrevert.
  destruct Hrevert as (m' & Hm' & Hms & _ & _ & _ & _ & Hagain & _).
  exists m'. split; [exact Hm'|]. split; [exact Hms|exact Hagain].
Defined.

Lemma revert_undoes_splitAtIndex_witness :
  ∃ m' w',
    splitAtIndex (mutate Examples.threeSplits) 1 [Q2Qc (1 # 2); 1%Qc] Examples.world0
    = Ok (m', w')
    ∧ length (m_mutations m') = 5%nat
    ∧ revert (H := Examples.pointCalculator) m'
      = revert (H := Examples.pointCalculator) (mutate Examples.threeSplits).
Proof.
  destruct (revert_undoes_splitAtIndex (H := Examples.pointCalculator)
              (mutate Examples.threeSplits) 1 Examples.t03 Examples.t07
              (mkMutation "a" 1 SvgChar.L) [Q2Qc (1 # 2); 1%Qc] Examples.world0)
    as (m' & w' & Hrun & Hrevert).
  - unfold sorted_by_t, sorted_numbers. cbn. repeat constructor; qc_order.
  - reflexivity.
  - reflexivity.
  - reflexivity.
  - repeat constructor; qc_order.
  - exists m', w'. split; [exact Hrun|]. split; [|exact Hrevert].
    vm_compute in Hrun. by injection Hrun as <- <-.
Defined.

(** ** CommandStateMutator: the ids of a split, and PointCalculator *)

Section SplitFreshProperties.
Context {Calc : Type} `{Calculator Calc} {ar : Arith}.

Lemma freshIds_S (c : N) (n : nat) :
  freshIds c (S n) = pretty (N.succ c) :: freshIds (N.succ c) n.
Proof.
  unfold freshIds. cbn [seq fmap list_fmap]. f_equal.
  - f_equal. lia.
  - rewrite <- fmap_S_seq, <- list_fmap_compose. apply list_fmap_ext.
    intros _ k _. cbn. f_equal. lia.
Qed.

Lemma split_loop_fresh (currSplits : list number) (currSvgChars : list SvgChar.t)
    (qs : list number) (ms ms' : list Mutation) (w w' : World) :
  split_loop currSplits currSvgChars (Some <$> qs) ms w = Ok (ms', w') →
  idCounter w' = (idCounter w + N.of_nat (length qs))%N
  ∧ console w' = console w
  ∧ id_and_t <$> ms' ≡ₚ (id_and_t <$> ms) ++ zip (freshIds (idCounter w) (length qs)) qs.
Proof.
  revert ms w. induction qs as [|q qs IH]; intros ms w Hrun.
  - cbn in Hrun. unfold ret in Hrun. simplify_eq. cbn.
    rewrite app_nil_r. split; [lia|done].
  - cbn in Hrun. unfold bind, uniqueId in Hrun. cbn in Hrun.
    destruct (currSvgChars !! sortedIndex currSplits q) as [svgChar|]; [|done].
    apply IH in Hrun as (Hc & Hcons & Hperm). cbn in Hc, Hcons.
    split_and!; [cbn; lia|done|].
    rewrite Hperm, fmap_splice_insert, splice_insert_Permutation.
    cbn [length]. rewrite freshIds_S. cbn.
    by rewrite <- Permutation_middle.
Qed.

Lemma id_and_t_forceLines (ms : list Mutation) :
  id_and_t <$> forceLines ms = id_and_t <$> ms.
Proof.
  apply list_eq. intros i. rewrite !list_lookup_fmap, forceLines_lookup.
  destruct (ms !! i) as [mu|]; [|done]. cbn. by destruct (_ && _).
Qed.

(** X7. On a backing command that is not a Move, [splitAtIndex]
    between the boundaries [s] and [e] draws one fresh id per parameter
    from the counter (and writes nothing to the console); the mutations
    afterwards are, up to order, the old ones and one per parameter [t]
    with the next fresh id and the parameter [lerp s e t]. Mutations that
    were sorted by parameter stay sorted, and [minT] and [maxT] stay. *)
Theorem splitAtIndex_inserts_fresh_mutations
    (m m' : CommandStateMutator Calc) (i : nat) (s e : number) (ts : list number)
    (w w' : World) :
  getSvgChar (m_backingCommand m) ≠ SvgChar.M →
  boundaries (m_minT m) (m_mutations m) !! i = Some s →
  boundaries (m_minT m) (m_mutations m) !! S i = Some e →
  splitAtIndex m (Z.of_nat i) ts w = Ok (m', w') →
  idCounter w' = (idCounter w + N.of_nat (length ts))%N
  ∧ console w' = console w
  ∧ id_and_t <$> m_mutations m'
    ≡ₚ (id_and_t <$> m_mutations m)
       ++ zip (freshIds (idCounter w) (length ts)) (lerp s e <$> ts)
  ∧ (sorted_by_t (m_mutations m) → sorted_by_t (m_mutations m'))
  ∧ m_minT m' = m_minT m ∧ m_maxT m' = m_maxT m.
Proof.
  intros HM Hs He Hrun.
  pose proof (split_sorted m m' _ w w' Hrun) as Hsorted.
  unfold splitAtIndex, split in Hrun.
  fold (boundaries (m_minT m) (m_mutations m)) in Hrun.
  rewrite at_index_of_nat, at_index_succ, Hs, He in Hrun.
  assert ((λ t, lerp_undefined (Some s) (Some e) t) <$> ts = Some <$> (lerp s e <$> ts))
    as Hts by (by rewrite <- list_fmap_compose).
  rewrite Hts in Hrun. clear Hts.
  rewrite (bool_decide_eq_false_2 (getSvgChar _ = _)), orb_false_r in Hrun by done.
  destruct (bool_decide (Some <$> (lerp s e <$> ts) = [])) eqn:Hnil.
  { apply bool_decide_eq_true in Hnil. destruct ts; [|done].
    unfold ret in Hrun. simplify_eq. cbn. rewrite app_nil_r.
    split_and!; try done. lia. }
  unfold bind in Hrun.
  destruct (split_loop _ _ _ _ w) as [[ms' w1]|] eqn:Hloop; [|done].
  unfold ret in Hrun. simplify_eq.
  apply split_loop_fresh in Hloop as (Hc & Hcons & Hperm).
  rewrite length_fmap in Hc, Hperm.
  cbn [m_mutations setMutations m_minT m_maxT]. rewrite id_and_t_forceLines.
  split_and!; done.
Qed.
End SplitFreshProperties.

Lemma splitAtIndex_inserts_fresh_mutations_witness :
  ∃ m' w',
    splitAtIndex (mutate Examples.lineState) 0 [Examples.t03; Examples.t07]
      Examples.world0 = Ok (m', w')
    ∧ idCounter w' = 2%N
    ∧ id_and_t <$> m_mutations m'
      ≡ₚ [("a", Q2Qc 1); ("1", Examples.t03); ("2", Examples.t07)].
Proof.
  destruct (splitAtIndex (mutate Examples.lineState) 0 [Examples.t03; Examples.t07]
              Examples.world0) as [[m' w']|] eqn:Hrun; [|vm_compute in Hrun; discriminate].
  exists m', w'. split; [reflexivity|].
  destruct (splitAtIndex_inserts_fresh_mutations (Calc := PointCalculator)
              (mutate Examples.lineState) m' 0 (Q2Qc 0) (Q2Qc 1)
              [Examples.t03; Examples.t07] Examples.world0 w')
    as (Hc & _ & Hperm & _).
  - by intros [=].
  - reflexivity.
  - reflexivity.
  - exact Hrun.
  - split; [exact Hc|]. rewrite Hperm.
    assert (lerp 0 1 Examples.t03 = Examples.t03) as Ht03 by (vm_compute; reflexivity).
    assert (lerp 0 1 Examples.t07 = Examples.t07) as Ht07 by (vm_compute; reflexivity).
    cbn [fmap list_fmap zip zip_with freshIds length seq mutate m_mutations
         Examples.lineState newCommandState mutations id_and_t mut_id mut_t app].
    rewrite Ht03, Ht07. reflexivity.
Defined.

Section PointCalculatorProperties.
Context {ar : Arith}.
Variable distance : Point → Point → number.

Lemma pointCalculator_toCommand (svgChar : SvgChar.t) (point : Point) :
  PointCalculator.toCommand (mkPointCalculator svgChar point)
  = if bool_decide (svgChar = SvgChar.M) then Err (Thrown "Invalid command type: M")
    else Ok (CommandBuilder svgChar
               (replicate (match svgChar with
                           | SvgChar.Q => 3 | SvgChar.C => 4 | _ => 2 end) point)).
Proof. by destruct svgChar. Qed.

(** X8. With [PointCalculator], [build] throws
    "Invalid command type: M" as soon as one mutation has the kind Move. *)
Theorem pointCalculator_build_throws_on_move (m : CommandStateMutator PointCalculator) :
  SvgChar.M ∈ mut_svgChar <$> m_mutations m →
  build (H := PointCalculator.calculator distance) m
  = Err (Thrown "Invalid command type: M").
Proof.
  intros HM. unfold build.
  assert (build_loop (H := PointCalculator.calculator distance)
            (m_calculator m) (m_minT m) (m_mutations m)
          = Err (Thrown "Invalid command type: M")) as ->; [|done].
  generalize (m_minT m). induction (m_mutations m) as [|mu ms IH]; intros prevT.
  - by apply elem_of_nil in HM.
  - cbn [build_loop]. cbn [calc_toCommand calc_convert calc_split PointCalculator.calculator].
    unfold PointCalculator.convert, PointCalculator.split. cbn [pc_point pc_svgChar].
    rewrite pointCalculator_toCommand.
    destruct (bool_decide (mut_svgChar mu = SvgChar.M)) eqn:Hk; [done|].
    apply bool_decide_eq_false in Hk. cbn [rbind].
    rewrite fmap_cons in HM. apply elem_of_cons in HM as [HM|HM]; [done|].
    by rewrite IH.
Qed.

(** X9. With [PointCalculator] and no mutation of kind Move,
    [build] succeeds; the commands have the kinds of the mutations, and
    every point of every command, its start and its end, is the point of
    the calculator. *)
Theorem pointCalculator_build_is_degenerate (m : CommandStateMutator PointCalculator) :
  SvgChar.M ∉ mut_svgChar <$> m_mutations m →
  ∃ cs, build (H := PointCalculator.calculator distance) m = Ok cs
        ∧ getSvgChar <$> getCommands cs = mut_svgChar <$> m_mutations m
        ∧ Forall (λ cmd, Forall (λ p, p = Some (pc_point (m_calculator m))) (getPoints cmd)
                         ∧ getStart cmd = Some (pc_point (m_calculator m))
                         ∧ getEnd cmd = Some (pc_point (m_calculator m)))
                 (getCommands cs).
Proof.
  intros HM. unfold build.
  assert (∃ cmds, build_loop (H := PointCalculator.calculator distance)
            (m_calculator m) (m_minT m) (m_mutations m) = Ok cmds
          ∧ getSvgChar <$> cmds = mut_svgChar <$> m_mutations m
          ∧ Forall (λ cmd, Forall (λ p, p = Some (pc_point (m_calculator m))) (getPoints cmd)
                         ∧ getStart cmd = Some (pc_point (m_calculator m))
                         ∧ getEnd cmd = Some (pc_point (m_calculator m))) cmds)
    as (cmds & -> & ? & ?); [|by eexists].
  generalize (m_minT m). induction (m_mutations m) as [|mu ms IH]; intros prevT.
  - by exists [].
  - rewrite fmap_cons in HM. apply not_elem_of_cons in HM as [Hmu HM].
    destruct (IH HM (mut_t mu)) as (cmds & Hcmds & Hkinds & Hpts).
    cbn [build_loop]. cbn [calc_toCommand calc_convert calc_split PointCalculator.calculator].
    unfold PointCalculator.convert, PointCalculator.split. cbn [pc_point pc_svgChar].
    rewrite pointCalculator_toCommand, bool_decide_eq_false_2 by done.
    cbn [rbind]. rewrite Hcmds. cbn [rbind]. eexists. split; [done|]. split.
    + rewrite !fmap_cons. f_equal; [|done]. by destruct (bool_decide _).
    + constructor; [|done].
      destruct (bool_decide (ms = [])), (mut_svgChar mu); cbn; try done;
        repeat constructor.
Qed.

(** X10. With [PointCalculator], whose [findTimeByDistance] hands
    the distance back, [splitInHalfAtIndex] is [splitAtIndex] with the one
    parameter 1/2. *)
Theorem pointCalculator_splitInHalf_is_split_at_half
    (m : CommandStateMutator PointCalculator) (splitIdx : Z) :
  splitInHalfAtIndex (H := PointCalculator.calculator distance) m splitIdx
  = splitAtIndex m splitIdx [Q2Qc (1 # 2)].
Proof.
  unfold splitInHalfAtIndex, splitAtIndex. cbn. f_equal. f_equal.
  by destruct (lerp_undefined _ _ _).
Qed.
End PointCalculatorProperties.

Lemma pointCalculator_build_throws_on_move_witness :
  build (H := Examples.pointCalculator) Examples.lineAsMove
  = Err (Thrown "Invalid command type: M").
Proof.
  apply (pointCalculator_build_throws_on_move Examples.axisDistance Examples.lineAsMove).
  cbn. apply list_elem_of_here.
Defined.

Lemma pointCalculator_build_is_degenerate_witness :
  ∃ cs, build (H := Examples.pointCalculator) (mutate Examples.threeSplits) = Ok cs
        ∧ getSvgChar <$> getCommands cs = [SvgChar.L; SvgChar.L; SvgChar.L]
        ∧ Forall (λ cmd, getStart cmd = Some Examples.origin
                         ∧ getEnd cmd = Some Examples.origin) (getCommands cs).
Proof.
  destruct (pointCalculator_build_is_degenerate Examples.axisDistance
              (mutate Examples.threeSplits)) as (cs & Hcs & Hkinds & Hpoints).
  - apply (bool_decide_unpack _). vm_compute. reflexivity.
  - exists cs. split; [exact Hcs|]. split; [exact Hkinds|].
    eapply Forall_impl; [exact Hpoints|]. by intros cmd (_ & Hs & He).
Defined.

Lemma pointCalculator_splitInHalf_is_split_at_half_witness :
  splitInHalfAtIndex (H := Examples.pointCalculator) (mutate Examples.lineState) 0
  = splitAtIndex (mutate Examples.lineState) 0 [Q2Qc (1 # 2)].
Proof.
  exact (pointCalculator_splitInHalf_is_split_at_half Examples.axisDistance
           (mutate Examples.lineState) 0).
Defined.

(** ** CommandState: fork and merge *)

Section ForkProperties.
Context {Calc : Type} `{Calculator Calc} {ar : Arith}.

Lemma fork_inv (cs l r : CommandState Calc) (splitIdx : Z) :
  fork cs splitIdx = Ok (l, r) →
  ∃ mu, at_index (mutations cs) splitIdx = Some mu
        ∧ build (mkMutator (backingCommand cs)
                   (take (Z.to_nat (splitIdx + 1)) (mutations cs))
                   (transforms cs) (calculator cs) (minT cs) (mut_t mu)) = Ok l
        ∧ build (mkMutator (backingCommand cs)
                   (drop (Z.to_nat (splitIdx + 1)) (mutations cs))
                   (transforms cs) (calculator cs) (mut_t mu) (maxT cs)) = Ok r.
Proof.
  unfold fork, forkLeft, forkRight, rbind. cbn.
  destruct (at_index (mutations cs) splitIdx) as [mu|]; [|done].
  intros Hrun. exists mu. split; [done|].
  destruct (build _) as [l'|]; [|done].
  destruct (build _) as [r'|]; [|done]. by simplify_eq.
Qed.

(** X11. When [fork] succeeds, the split index names a mutation,
    the mutations of the left state followed by those of the right state
    are those of the forked state, the left ones being those up to and
    including the split index; the left state ranges from [minT] to the
    parameter of that mutation and the right state from there to [maxT],
    and both keep the backing command. With a split index out of range
    [fork] throws a TypeError. *)
Theorem fork_partitions_mutations (cs : CommandState Calc) (splitIdx : Z) :
  (∀ l r,
     fork cs splitIdx = Ok (l, r) →
     ∃ mu, at_index (mutations cs) splitIdx = Some mu
           ∧ mutations l ++ mutations r = mutations cs
           ∧ Z.of_nat (length (mutations l)) = splitIdx + 1
           ∧ minT l = minT cs ∧ maxT l = mut_t mu
           ∧ minT r = mut_t mu ∧ maxT r = maxT cs
           ∧ backingCommand l = backingCommand cs
           ∧ backingCommand r = backingCommand cs)
  ∧ (splitIdx < 0 ∨ Z.of_nat (length (mutations cs)) <= splitIdx →
     fork cs splitIdx = Err TypeError).
Proof.
  split.
  - intros l r (mu & Hmu & Hl & Hr)%fork_inv. exists mu.
    apply build_inv in Hl as (cl & _ & ->), Hr as (cr & _ & ->). cbn.
    split_and!; try done.
    + apply take_drop.
    + unfold at_index in Hmu. destruct (splitIdx <? 0) eqn:Hneg; [done|].
      apply Z.ltb_ge in Hneg. apply lookup_lt_Some in Hmu.
      rewrite length_take. lia.
  - intros Hrange. unfold fork, forkLeft. cbn.
    assert (at_index (mutations cs) splitIdx = None) as ->; [|done].
    unfold at_index. destruct (splitIdx <? 0) eqn:Hneg; [done|].
    apply Z.ltb_ge in Hneg. apply lookup_ge_None. lia.
Qed.

Lemma ascending_NoDup (l : list number) : StronglySorted Qclt l → NoDup l.
Proof.
  induction 1 as [|a l Hs IH Hall]; constructor; [|done].
  intros Hin. rewrite Forall_forall in Hall. specialize (Hall _ Hin).
  by apply Qclt_not_le in Hall; apply Hall, Qcle_refl.
Qed.

Lemma sorted_NoDup_ascending (l : list number) :
  sorted_numbers l → NoDup l → StronglySorted Qclt l.
Proof.
  induction 1 as [|a l Hs IH Hall]; intros Hnd; [constructor|].
  apply NoDup_cons in Hnd as [Hnin Hnd]. constructor; [by apply IH|].
  rewrite Forall_forall in Hall |- *. intros b Hb.
  destruct (Qcle_lt_or_eq _ _ (Hall _ Hb)) as [?| ->]; done.
Qed.

Lemma StronglySorted_of_fmap {A B} (f : A → B) (R : relation B) (l : list A) :
  StronglySorted R (f <$> l) → StronglySorted (λ x y, R (f x) (f y)) l.
Proof.
  induction l as [|a l IH]; [constructor|].
  rewrite fmap_cons. intros [Hs Hall]%StronglySorted_inv.
  constructor; [by apply IH|]. by apply (proj1 (Forall_fmap _ _ _)) in Hall.
Qed.

(** A mutation list sorted by [t] is the only arrangement of its elements
    when no two of them share a [t]. *)
Lemma sorted_by_t_unique (ms ms' : list Mutation) :
  StronglySorted Qclt (mut_t <$> ms) → sorted_by_t ms' → ms' ≡ₚ ms → ms' = ms.
Proof.
  intros Hasc Hsorted Hperm.
  apply (StronglySorted_unique_strong (λ a b : Mutation, (mut_t a < mut_t b)%Qc)); [| | |done].
  - intros a b _ _ Hab Hba. exfalso.
    apply (Qclt_not_le _ _ Hab). by apply Qclt_le_weak.
  - apply StronglySorted_of_fmap, sorted_NoDup_ascending; [done|].
    rewrite Hperm. by apply ascending_NoDup.
  - by apply StronglySorted_of_fmap.
Qed.

Lemma conflicting_nil (ms1 ms2 : list Mutation) :
  NoDup (mut_id <$> (ms1 ++ ms2)) →
  conflicting (list_to_set (mut_id <$> ms1)) ms2 = [].
Proof.
  rewrite fmap_app. intros (_ & Hdisj & _)%NoDup_app. unfold conflicting.
  induction ms2 as [|mu ms2 IH]; [done|].
  rewrite filter_cons. destruct (decide _) as [Hin|_].
  - exfalso. apply elem_of_list_to_set in Hin. apply (Hdisj _ Hin).
    rewrite fmap_cons. apply list_elem_of_here.
  - apply IH. intros id Hid1 Hid2. apply (Hdisj id Hid1).
    rewrite fmap_cons. by apply list_elem_of_further.
Qed.

Lemma fork_merge_mutate (cs l r : CommandState Calc) (splitIdx : Z) (w : World) :
  StronglySorted Qclt (mut_t <$> mutations cs) →
  NoDup (mut_id <$> mutations cs) →
  fork cs splitIdx = Ok (l, r) →
  (minT l <= minT r)%Qc → (maxT l <= maxT r)%Qc →
  merge (mutate l) r w = Ok (mutate cs, w).
Proof.
  intros Hasc Hids (mu & Hmu & Hl & Hr)%fork_inv Hlo Hhi.
  apply build_inv in Hl as (cl & _ & ->), Hr as (cr & _ & ->). cbn in *.
  unfold merge, bind. cbn.
  set (n := Z.to_nat (splitIdx + 1)) in *.
  destruct (merge_loop_spec (list_to_set (mut_id <$> take n (mutations cs)))
              (drop n (mutations cs)) (take n (mutations cs)) w)
    as (ms' & -> & Hperm & Hsorted).
  rewrite take_drop in Hperm.
  assert (ms' = mutations cs) as ->.
  { apply sorted_by_t_unique; [done| |done].
    apply Hsorted. unfold sorted_by_t. rewrite fmap_take.
    by apply sorted_numbers_take, ascending_sorted. }
  rewrite conflicting_nil by (by rewrite take_drop).
  cbn. rewrite app_nil_r. unfold ret, mutate. cbn.
  assert (num_min (minT cs) (mut_t mu) = minT cs) as ->.
  { unfold num_min. destruct (num_lt _ _) eqn:Hlt; [|done].
    apply num_lt_spec in Hlt. by apply Qclt_not_le in Hlt. }
  assert (num_max (mut_t mu) (maxT cs) = maxT cs) as ->.
  { unfold num_max. destruct (num_lt _ _) eqn:Hlt; [done|].
    apply num_lt_false in Hlt. by apply Qcle_antisym. }
  by destruct w.
Qed.

(** X12. On a state whose mutations ascend strictly by parameter and
    have distinct ids, when the left half of a [fork] starts and ends no
    later than the right half, merging the right half into the left one
    and building gives back a state with the mutator of the forked one,
    logging nothing and drawing no id; it is the forked state itself when
    that one is what [build] gives from its own mutator. *)
Theorem fork_then_merge_restores (cs l r : CommandState Calc) (splitIdx : Z) (w : World) :
  StronglySorted Qclt (mut_t <$> mutations cs) →
  NoDup (mut_id <$> mutations cs) →
  fork cs splitIdx = Ok (l, r) →
  (minT l <= minT r)%Qc → (maxT l <= maxT r)%Qc →
  ∃ cs',
    (m <~ merge (mutate l) r ;; lift (build m)) w = Ok (cs', w)
    ∧ mutate cs' = mutate cs
    ∧ getId <$> getCommands cs' = mut_id <$> mutations cs
    ∧ (build (mutate cs) = Ok cs → cs' = cs).
Proof.
  intros Hasc Hids Hfork Hlo Hhi. unfold bind, lift.
  rewrite (fork_merge_mutate cs l r splitIdx w) by done.
  pose proof (fork_inv _ _ _ _ Hfork) as (mu & Hmu & Hl & Hr).
  apply build_inv in Hl as (cl & Hcl & _), Hr as (cr & Hcr & _). cbn in Hcl, Hcr.
  destruct (build_loop_app (calculator cs) (take (Z.to_nat (splitIdx + 1)) (mutations cs))
              (drop (Z.to_nat (splitIdx + 1)) (mutations cs)) (minT cs) cl cr Hcl)
    as [cmds Hcmds].
  { assert (last (take (Z.to_nat (splitIdx + 1)) (mutations cs)) = Some mu) as ->; [|done].
    unfold at_index in Hmu. destruct (splitIdx <? 0) eqn:Hneg; [done|].
    apply Z.ltb_ge in Hneg. pose proof (lookup_lt_Some _ _ _ Hmu) as Hlt.
    rewrite last_lookup, length_take, lookup_take_lt by lia.
    by replace (pred (Z.to_nat (splitIdx + 1) `min` length (mutations cs)))
      with (Z.to_nat splitIdx) by lia. }
  rewrite take_drop in Hcmds.
  assert (build (mutate cs)
          = Ok (mkCommandState (backingCommand cs) cmds (mutations cs) (transforms cs)
                  (calculator cs) (minT cs) (maxT cs))) as Hb.
  { unfold build, mutate. cbn. by rewrite Hcmds. }
  rewrite Hb. eexists. split; [done|]. split_and!; try done.
  - cbn. by eapply build_loop_ids.
  - intros Hcs. by injection Hcs.
Qed.
End ForkProperties.

Lemma fork_partitions_mutations_witness :
  ∃ l r, fork (H := Examples.pointCalculator) Examples.threeSplits 0 = Ok (l, r)
         ∧ mutations l ++ mutations r = mutations Examples.threeSplits
         ∧ maxT l = Examples.t03 ∧ minT r = Examples.t03
         ∧ fork (H := Examples.pointCalculator) Examples.threeSplits 3 = Err TypeError.
Proof.
  destruct (fork_partitions_mutations (H := Examples.pointCalculator) Examples.threeSplits 0)
    as [Hin _].
  destruct (fork_partitions_mutations (H := Examples.pointCalculator) Examples.threeSplits 3)
    as [_ Hout].
  destruct (fork (H := Examples.pointCalculator) Examples.threeSplits 0)
    as [[l r]|] eqn:Hfork; [|vm_compute in Hfork; discriminate].
  destruct (Hin l r eq_refl) as (mu & Hmu & Happ & _ & _ & Hmax & Hmin & _).
  injection Hmu as <-.
  exists l, r.
  split_and!; [reflexivity|exact Happ|exact Hmax|exact Hmin|apply Hout; right; cbn; lia].
Defined.

Lemma fork_then_merge_restores_witness :
  ∃ l r, fork (H := Examples.pointCalculator) Examples.threeSplits 0 = Ok (l, r)
         ∧ (m <~ merge (mutate l) r ;; lift (build (H := Examples.pointCalculator) m))
             Examples.world0
           = Ok (Examples.threeSplits, Examples.world0).
Proof.
  destruct (fork (H := Examples.pointCalculator) Examples.threeSplits 0)
    as [[l r]|] eqn:Hfork; [|vm_compute in Hfork; discriminate].
  exists l, r. split; [reflexivity|].
  destruct (fork_then_merge_restores (H := Examples.pointCalculator)
              Examples.threeSplits l r 0 Examples.world0)
    as (cs' & Hrun & _ & _ & Hsame).
  - cbn. repeat constructor; qc_order.
  - apply (bool_decide_unpack _). vm_compute. reflexivity.
  - exact Hfork.
  - vm_compute in Hfork. injection Hfork as <- <-. qc_order.
  - vm_compute in Hfork. injection Hfork as <- <-. qc_order.
  - rewrite Hrun, Hsame; [reflexivity|]. vm_compute. reflexivity.
Defined.

(** ** PathMutator: moving a sub-path *)

Section MoveProperties.
Context {Calc : Type}.

Lemma splice_start_of_nat (len i : nat) :
  (i ≤ len)%nat → splice_start len (Z.of_nat i) = i.
Proof.
  intros Hi. unfold splice_start.
  rewrite (proj2 (Z.ltb_ge _ _)) by lia. lia.
Qed.

Lemma splice_start_le (len : nat) (start : Z) : (splice_start len start ≤ len)%nat.
Proof.
  unfold splice_start. destruct (start <? 0) eqn:Hneg; [apply Z.ltb_lt in Hneg|]; lia.
Qed.

Lemma splice_insert_delete {A} (i : nat) (a : A) (l : list A) :
  l !! i = Some a → splice_insert i a (delete i l) = l.
Proof.
  intros Hi. pose proof (lookup_lt_Some _ _ _ Hi) as Hlt.
  unfold splice_insert. rewrite delete_take_drop.
  rewrite take_app_length', drop_app_length' by (rewrite length_take; lia).
  by apply take_drop_middle.
Qed.

(** X13. With a position to move from that is below the length of
    an ordering that is not empty (a negative one counts from the end, as
    [splice] has it) and any position to move to, [moveSubPath] permutes
    [subPathOrdering] and touches nothing else. *)
Theorem moveSubPath_permutes_ordering
    (pm : PathMutator.t (Calc := Calc)) (fromSubIdx toSubIdx : Z) :
  PathMutator.subPathOrdering pm ≠ [] →
  fromSubIdx < Z.of_nat (length (PathMutator.subPathOrdering pm)) →
  ∃ pm',
    PathMutator.moveSubPath pm fromSubIdx toSubIdx = Ok pm'
    ∧ PathMutator.subPathOrdering pm' ≡ₚ PathMutator.subPathOrdering pm
    ∧ PathMutator.subPathStateMap pm' = PathMutator.subPathStateMap pm
    ∧ PathMutator.numCollapsingSubPaths pm' = PathMutator.numCollapsingSubPaths pm.
Proof.
  intros Hne Hfrom. unfold PathMutator.moveSubPath.
  assert (splice_start (length (PathMutator.subPathOrdering pm)) fromSubIdx
          < length (PathMutator.subPathOrdering pm))%nat as Hstart.
  { destruct (PathMutator.subPathOrdering pm) as [|c l]; [done|].
    unfold splice_start. cbn [length] in *.
    destruct (fromSubIdx <? 0) eqn:Hneg; [apply Z.ltb_lt in Hneg|apply Z.ltb_ge in Hneg];
      lia. }
  destruct (lookup_lt_is_Some_2 _ _ Hstart) as [cmsIdx Hlook]. rewrite Hlook.
  eexists. split; [reflexivity|]. cbn. split; [|done].
  rewrite splice_insert_Permutation.
  symmetry. by apply delete_Permutation.
Qed.

(** X14. With both positions inside the ordering, [moveSubPath]
    succeeds and puts the entry of the first position at the second;
    moving it back restores the path. *)
Theorem moveSubPath_there_and_back
    (pm : PathMutator.t (Calc := Calc)) (fromSubIdx toSubIdx : nat) (cmsIdx : Z) :
  PathMutator.subPathOrdering pm !! fromSubIdx = Some cmsIdx →
  (toSubIdx < length (PathMutator.subPathOrdering pm))%nat →
  ∃ pm', PathMutator.moveSubPath pm (Z.of_nat fromSubIdx) (Z.of_nat toSubIdx) = Ok pm'
         ∧ PathMutator.subPathOrdering pm' !! toSubIdx = Some cmsIdx
         ∧ PathMutator.moveSubPath pm' (Z.of_nat toSubIdx) (Z.of_nat fromSubIdx) = Ok pm.
Proof.
  intros Hfrom Hto. pose proof (lookup_lt_Some _ _ _ Hfrom) as Hlt.
  destruct pm as [map ordering n]. cbn in *.
  unfold PathMutator.moveSubPath. cbn.
  rewrite (splice_start_of_nat _ fromSubIdx) by lia. rewrite Hfrom.
  assert (length (delete fromSubIdx ordering) = pred (length ordering)) as Hlen.
  { rewrite length_delete by done. lia. }
  rewrite (splice_start_of_nat _ toSubIdx) by lia.
  eexists. split; [done|]. cbn.
  assert (splice_insert toSubIdx cmsIdx (delete fromSubIdx ordering) !! toSubIdx
          = Some cmsIdx) as Hat by (apply lookup_splice_insert_eq; lia).
  split; [done|].
  rewrite length_splice_insert, (splice_start_of_nat _ toSubIdx) by lia.
  rewrite Hat, delete_splice_insert by lia.
  rewrite (splice_start_of_nat _ fromSubIdx) by lia.
  by rewrite splice_insert_delete.
Qed.
End MoveProperties.

Lemma moveSubPath_permutes_ordering_witness :
  ∃ pm', PathMutator.moveSubPath Examples.threeSubPaths (-1) 0 = Ok pm'
         ∧ PathMutator.subPathOrdering pm' = [1; 2; 0]
         ∧ PathMutator.subPathOrdering pm' ≡ₚ [2; 0; 1].
Proof.
  destruct (moveSubPath_permutes_ordering Examples.threeSubPaths (-1) 0)
    as (pm' & Hmove & Hperm & _); [done|cbn; lia|].
  exists pm'. split; [exact Hmove|]. split; [|exact Hperm].
  vm_compute in Hmove. by injection Hmove as <-.
Defined.

Lemma moveSubPath_there_and_back_witness :
  ∃ pm', PathMutator.moveSubPath Examples.threeSubPaths 0 2 = Ok pm'
         ∧ PathMutator.subPathOrdering pm' !! 2%nat = Some 2
         ∧ PathMutator.moveSubPath pm' 2 0 = Ok Examples.threeSubPaths.
Proof.
  apply (moveSubPath_there_and_back Examples.threeSubPaths 0 2 2).
  - reflexivity.
  - cbn. lia.
Defined.

(** ** PathMutator: deleting the collapsing sub-paths *)

Section DeleteCollapsingProperties.
Context {Calc : Type}.

Lemma imapResult_Forall2 {A B} (f : nat → A → Result B) (P : A → B → Prop)
    (l : list A) (i : nat) :
  (∀ j a, l !! j = Some a → ∃ b, f (i + j)%nat a = Ok b ∧ P a b) →
  ∃ bs, imapResult f i l = Ok bs ∧ Forall2 P l bs.
Proof.
  revert i. induction l as [|a l IH]; intros i Hf.
  - by exists [].
  - destruct (Hf 0%nat a eq_refl) as (b & Hb & HP).
    rewrite Nat.add_0_r in Hb.
    destruct (IH (S i)) as (bs & Hbs & HPs).
    { intros j a' Ha'. destruct (Hf (S j) a' Ha') as (b' & Hb' & HP').
      exists b'. split; [|done]. by rewrite Nat.add_succ_comm. }
    exists (b :: bs). cbn. rewrite Hb. cbn. rewrite Hbs. by split; [|constructor].
Qed.

Lemma toSubIdxFn_Ok (ordering : list Z) (cmsIdx : Z) :
  cmsIdx ∈ ordering →
  ∃ j, PathMutator.toSubIdxFn ordering cmsIdx = Ok (Z.of_nat j)
       ∧ ordering !! j = Some cmsIdx.
Proof.
  intros Hin. unfold PathMutator.toSubIdxFn.
  destruct (list_find_elem_of (λ c, c = cmsIdx) ordering cmsIdx Hin eq_refl)
    as [[j c] Hfind].
  rewrite Hfind. apply list_find_Some in Hfind as (Hj & -> & _). by exists j.
Qed.

Lemma toSubIdxFn_Err (ordering : list Z) (cmsIdx : Z) :
  cmsIdx ∉ ordering →
  PathMutator.toSubIdxFn ordering cmsIdx
  = Err (Thrown ("Invalid cmsIdx: " +:+ pretty cmsIdx)).
Proof.
  intros Hnin. unfold PathMutator.toSubIdxFn.
  destruct (list_find _ ordering) as [[j c]|] eqn:Hfind; [|done].
  apply list_find_Some in Hfind as (Hj & -> & _).
  by apply list_elem_of_lookup_2 in Hj.
Qed.

Lemma splice_delete_tail {A} (n k : nat) (l : list A) :
  (k ≤ n)%nat → (length l ≤ n)%nat →
  splice_delete (Z.of_nat (n - k)) (Z.of_nat k) l = take (n - k) l.
Proof.
  intros Hk Hlen. unfold splice_delete, splice_start.
  rewrite (proj2 (Z.ltb_ge _ _)) by lia.
  destruct (decide (n - k ≤ length l)%nat) as [Hle|Hgt].
  - replace (Z.to_nat (Z.min (Z.of_nat (n - k)) (Z.of_nat (length l)))) with (n - k)%nat by lia.
    rewrite drop_ge, app_nil_r; [done|lia].
  - replace (Z.to_nat (Z.min (Z.of_nat (n - k)) (Z.of_nat (length l)))) with (length l) by lia.
    rewrite !take_ge, !drop_ge by lia. by rewrite app_nil_r.
Qed.

Lemma bind_seqZ_lookup {A B} (l : list A) (f : A → list B) (g : Z → list B) :
  (∀ j a, l !! j = Some a → g (Z.of_nat j) = f a) →
  seqZ 0 (Z.of_nat (length l)) ≫= g = l ≫= f.
Proof.
  induction l as [|a l IH] using rev_ind; intros Hg; [done|].
  rewrite length_app, Nat.add_1_r, seqZ_S, !bind_app. cbn. rewrite !app_nil_r.
  f_equal.
  - apply IH. intros j a' Ha'. apply Hg. by rewrite lookup_app_l by by eapply lookup_lt_Some.
  - apply Hg. by rewrite lookup_app_r, Nat.sub_diag.
Qed.

Lemma bind_filter {A} (P : A → Prop) `{∀ a, Decision (P a)} (l : list A) :
  l ≫= (λ a, if decide (P a) then [a] else []) = filter P l.
Proof.
  induction l as [|a l IH]; [done|]. rewrite bind_cons, filter_cons, IH.
  by destruct (decide (P a)).
Qed.

Lemma rebuildOrdering_filter (ordering inv : list Z) (n k : nat) :
  ordering ≡ₚ seqZ 0 (Z.of_nat n) → (k ≤ n)%nat →
  Forall2 (λ c s, ∃ j, s = Z.of_nat j ∧ ordering !! j = Some c) (seqZ 0 (Z.of_nat n)) inv →
  PathMutator.rebuildOrdering (take (n - k) inv) (Z.of_nat n)
  = filter (λ c, c < Z.of_nat (n - k)) ordering.
Proof.
  intros Hperm Hk Hinv.
  assert (NoDup ordering) as Hnd by (rewrite Hperm; apply NoDup_seqZ).
  assert (length ordering = n) as Hlen.
  { rewrite Hperm, length_seqZ. lia. }
  assert (length inv = n) as Hlinv.
  { apply Forall2_length in Hinv. rewrite length_seqZ in Hinv. lia. }
  unfold PathMutator.rebuildOrdering.
  rewrite <- (bind_filter (λ c, c < Z.of_nat (n - k))). subst n.
  apply bind_seqZ_lookup. intros j c Hj.
  pose proof (lookup_lt_Some _ _ _ Hj) as Hjlt.
  assert (0 <= c < Z.of_nat (length ordering)) as Hc.
  { apply list_elem_of_lookup_2 in Hj. rewrite Hperm in Hj.
    apply elem_of_seqZ in Hj. lia. }
  destruct (list_find (λ s, s = Z.of_nat j) (take (length ordering - k) inv))
    as [[i s]|] eqn:Hfind.
  - apply list_find_Some in Hfind as (Hi & -> & _).
    apply lookup_take_Some in Hi as [Hi Hik].
    destruct (Forall2_lookup_r _ _ _ _ _ Hinv Hi) as (c' & Hc' & j' & Hjj & Hord).
    apply lookup_seqZ in Hc' as [-> _]. apply Nat2Z.inj in Hjj as <-.
    rewrite Hj in Hord. injection Hord as ->.
    by rewrite decide_True by lia.
  - rewrite decide_False; [done|]. intros Hlt.
    apply list_find_None in Hfind. rewrite Forall_forall in Hfind.
    destruct (lookup_lt_is_Some_2 inv (Z.to_nat c)) as [s Hs]; [lia|].
    destruct (Forall2_lookup_r _ _ _ _ _ Hinv Hs) as (c' & Hc' & j' & -> & Hord).
    apply lookup_seqZ in Hc' as [-> _].
    replace (0 + Z.of_nat (Z.to_nat c)) with c in Hord by lia.
    pose proof (NoDup_lookup _ _ _ _ Hnd Hj Hord) as <-.
    apply (Hfind (Z.of_nat j)); [|done].
    apply (list_elem_of_lookup_2 _ (Z.to_nat c)).
    apply lookup_take_Some. split; [done|lia].
Qed.

Lemma length_map_le_leaves (forest : list (SubPathState Calc)) :
  (length forest ≤ length (flattenSubPathStates forest))%nat.
Proof.
  assert (∀ node : SubPathState Calc, (1 ≤ length (flattenNode node))%nat) as Hnode.
  { induction node as [css rev off id children IH] using SubPathState_forest_ind.
    destruct children as [|c children]; [cbn; lia|].
    rewrite flattenNode_children. unfold flattenSubPathStates. cbn.
    apply Forall_cons in IH as [Hc _]. rewrite length_app. lia. }
  induction forest as [|node forest IH]; [done|].
  unfold flattenSubPathStates in *. cbn. rewrite length_app.
  specialize (Hnode node). lia.
Qed.

Lemma filter_all {A} (P : A → Prop) `{∀ a, Decision (P a)} (l : list A) :
  Forall P l → filter P l = l.
Proof.
  induction 1 as [|a l Ha _ IH]; [done|]. by rewrite filter_cons, decide_True, IH.
Qed.

Lemma filter_none {A} (P : A → Prop) `{∀ a, Decision (P a)} (l : list A) :
  Forall (λ a, ¬ P a) l → filter P l = [].
Proof.
  induction 1 as [|a l Ha _ IH]; [done|]. by rewrite filter_cons, decide_False, IH.
Qed.

Lemma filter_below_seqZ (n k : nat) :
  (k ≤ n)%nat →
  filter (λ c, c < Z.of_nat (n - k)) (seqZ 0 (Z.of_nat n)) = seqZ 0 (Z.of_nat (n - k)).
Proof.
  intros Hk. replace (Z.of_nat n) with (Z.of_nat (n - k) + Z.of_nat k) at 1 by lia.
  rewrite seqZ_app, filter_app by lia.
  rewrite filter_all, filter_none, app_nil_r; [done|..].
  - apply Forall_seqZ. lia.
  - apply Forall_seqZ. lia.
Qed.

Lemma deleteCollapsingSubPaths_run (pm : PathMutator.t (Calc := Calc)) (n k : nat) :
  length (flattenSubPathStates (PathMutator.subPathStateMap pm)) = n →
  PathMutator.subPathOrdering pm ≡ₚ seqZ 0 (Z.of_nat n) →
  PathMutator.numCollapsingSubPaths pm = Z.of_nat k → (k ≤ n)%nat →
  PathMutator.deleteCollapsingSubPaths pm
  = Ok (PathMutator.mk
          (take (n - k) (PathMutator.subPathStateMap pm))
          (filter (λ c, c < Z.of_nat (n - k)) (PathMutator.subPathOrdering pm))
          0).
Proof.
  intros Hn Hperm Hk Hkn. unfold PathMutator.deleteCollapsingSubPaths.
  unfold countSubPathStates. rewrite Hn, Hk.
  destruct (imapResult_Forall2 (λ _, PathMutator.toSubIdxFn (PathMutator.subPathOrdering pm))
              (λ c s, ∃ j, s = Z.of_nat j ∧ PathMutator.subPathOrdering pm !! j = Some c)
              (seqZ 0 (Z.of_nat n)) 0) as (inv & Hinv & Hrel).
  { intros j c Hc. apply list_elem_of_lookup_2 in Hc. rewrite <- Hperm in Hc.
    destruct (toSubIdxFn_Ok _ _ Hc) as (j' & Hj' & Hord).
    exists (Z.of_nat j'). split; [done|]. by exists j'. }
  unfold mapResult. rewrite Hinv. cbn [rbind].
  assert (length inv = n) as Hlinv.
  { apply Forall2_length in Hrel. rewrite length_seqZ in Hrel. lia. }
  replace (Z.of_nat n - Z.of_nat k) with (Z.of_nat (n - k)) by lia.
  rewrite !splice_delete_tail; try lia.
  2:{ rewrite <- Hn. apply length_map_le_leaves. }
  by rewrite (rebuildOrdering_filter _ _ _ _ Hperm Hkn Hrel).
Qed.

(** X15. On a path of [n] leaves whose ordering is a permutation of
    0 .. n-1 and that counts [k] collapsing sub-paths,
    [deleteCollapsingSubPaths] keeps the first [n - k] entries of the
    state map, keeps of the ordering the entries below [n - k] in their
    order, which leaves a permutation of 0 .. n-k-1, and resets the
    count to 0. *)
Theorem deleteCollapsingSubPaths_keeps_real_subpaths
    (pm : PathMutator.t (Calc := Calc)) (n k : nat) :
  length (flattenSubPathStates (PathMutator.subPathStateMap pm)) = n →
  PathMutator.subPathOrdering pm ≡ₚ seqZ 0 (Z.of_nat n) →
  PathMutator.numCollapsingSubPaths pm = Z.of_nat k → (k ≤ n)%nat →
  ∃ pm',
    PathMutator.deleteCollapsingSubPaths pm = Ok pm'
    ∧ PathMutator.subPathStateMap pm' = take (n - k) (PathMutator.subPathStateMap pm)
    ∧ PathMutator.subPathOrdering pm'
      = filter (λ c, c < Z.of_nat (n - k)) (PathMutator.subPathOrdering pm)
    ∧ PathMutator.subPathOrdering pm' ≡ₚ seqZ 0 (Z.of_nat (n - k))
    ∧ PathMutator.numCollapsingSubPaths pm' = 0.
Proof.
  intros Hn Hperm Hk Hkn. eexists. split; [by apply deleteCollapsingSubPaths_run|].
  cbn. split_and!; try done.
  rewrite (filter_Permutation _ _ _ Hperm). by rewrite filter_below_seqZ.
Qed.

(** X16. [deleteCollapsingSubPaths] throws "Invalid cmsIdx: i" for
    the first leaf index [i] that the ordering does not name. *)
Theorem deleteCollapsingSubPaths_throws_on_missing_entry
    (pm : PathMutator.t (Calc := Calc)) (cmsIdx : Z) :
  0 <= cmsIdx < countSubPathStates (PathMutator.subPathStateMap pm) →
  cmsIdx ∉ PathMutator.subPathOrdering pm →
  (∀ c, 0 <= c < cmsIdx → c ∈ PathMutator.subPathOrdering pm) →
  PathMutator.deleteCollapsingSubPaths pm
  = Err (Thrown ("Invalid cmsIdx: " +:+ pretty cmsIdx)).
Proof.
  intros Hrange Hnin Hbefore. unfold PathMutator.deleteCollapsingSubPaths.
  set (n := countSubPathStates _) in *.
  replace n with (cmsIdx + (n - cmsIdx)) by lia.
  rewrite seqZ_app by lia. rewrite (seqZ_cons _ (n - cmsIdx)) by lia.
  unfold mapResult.
  assert (∀ (l1 l2 : list Z) i,
            Forall (λ c, c ∈ PathMutator.subPathOrdering pm) l1 →
            imapResult (λ _, PathMutator.toSubIdxFn (PathMutator.subPathOrdering pm)) i
              (l1 ++ cmsIdx :: l2)
            = Err (Thrown ("Invalid cmsIdx: " +:+ pretty cmsIdx))) as Hloop.
  { induction l1 as [|c l1 IH]; intros l2 i Hall.
    - cbn. by rewrite toSubIdxFn_Err.
    - apply Forall_cons in Hall as [Hc Hall]. cbn.
      destruct (toSubIdxFn_Ok _ _ Hc) as (j & -> & _). cbn. by rewrite IH. }
  rewrite Hloop; [done|]. apply Forall_seqZ. intros c Hc. apply Hbefore. lia.
Qed.
End DeleteCollapsingProperties.

Lemma deleteCollapsingSubPaths_keeps_real_subpaths_witness :
  ∃ pm', PathMutator.deleteCollapsingSubPaths Examples.threeSubPaths = Ok pm'
         ∧ PathMutator.subPathStateMap pm' = [Examples.twoCommands; Examples.fourCommands]
         ∧ PathMutator.subPathOrdering pm' = [0; 1]
         ∧ PathMutator.numCollapsingSubPaths pm' = 0.
Proof.
  destruct (deleteCollapsingSubPaths_keeps_real_subpaths Examples.threeSubPaths 3 1)
    as (pm' & Hrun & Hmap & Hord & _ & Hnum).
  - reflexivity.
  - exact (Permutation_app_comm [2] [0; 1]).
  - reflexivity.
  - lia.
  - exists pm'. split_and!; [exact Hrun|exact Hmap|exact Hord|exact Hnum].
Defined.

Lemma deleteCollapsingSubPaths_throws_on_missing_entry_witness :
  PathMutator.deleteCollapsingSubPaths Examples.missingEntryPath
  = Err (Thrown "Invalid cmsIdx: 1").
Proof.
  apply (deleteCollapsingSubPaths_throws_on_missing_entry Examples.missingEntryPath 1).
  - vm_compute. split; [discriminate|reflexivity].
  - apply (bool_decide_unpack _). vm_compute. reflexivity.
  - intros c Hc. assert (c = 0) as -> by lia. apply list_elem_of_here.
Defined.

(** ** PathMutator: adding collapsing sub-paths, and reverting *)

Section CollapsingRoundTrip.
Context {Calc : Type} `{Calculator Calc} {ar : Arith}.
Variable toSubPaths : SubPathState Calc → list (list Command).
Variable revertSubPathState : SubPathState Calc → Result (SubPathState Calc).

Lemma imap_index_seqZ {A} (l : list A) :
  imap (λ i _, Z.of_nat i) l = seqZ 0 (Z.of_nat (length l)).
Proof.
  apply list_eq. intros i. rewrite list_lookup_imap.
  destruct (l !! i) as [a|] eqn:Hi; cbn.
  - symmetry. apply lookup_seqZ. apply lookup_lt_Some in Hi. lia.
  - symmetry. apply lookup_seqZ_ge. apply lookup_ge_None in Hi. lia.
Qed.

Lemma flatten_leaves (forest : list (SubPathState Calc)) :
  Forall (λ s, splitSubPaths s = []) forest → flattenSubPathStates forest = forest.
Proof.
  induction 1 as [|s forest Hs _ IH]; [done|].
  unfold flattenSubPathStates in *. by rewrite bind_cons, flattenNode_of_leaf, IH.
Qed.

(** X17. [PathMutator.revert], on a path of [n] leaves whose
    ordering is a permutation of 0 .. n-1 and that counts [k] collapsing
    sub-paths, keeps the first [n - k] entries of the state map (its
    roots, while [n] counts leaves), each of them reverted, sets the
    ordering to 0 .. n-k-1 and the count of collapsing sub-paths to 0. *)
Theorem path_revert_restores_identity_ordering
    (pm : PathMutator.t (Calc := Calc)) (n k : nat) (map : list (SubPathState Calc)) :
  length (flattenSubPathStates (PathMutator.subPathStateMap pm)) = n →
  PathMutator.subPathOrdering pm ≡ₚ seqZ 0 (Z.of_nat n) →
  PathMutator.numCollapsingSubPaths pm = Z.of_nat k → (k ≤ n)%nat →
  mapResult revertSubPathState (take (n - k) (PathMutator.subPathStateMap pm)) = Ok map →
  PathMutator.revert revertSubPathState pm
  = Ok (PathMutator.mk map (seqZ 0 (Z.of_nat (n - k))) 0).
Proof.
  intros Hn Hperm Hk Hkn Hmap. unfold PathMutator.revert.
  rewrite (deleteCollapsingSubPaths_run pm n k) by done. cbn [rbind].
  cbn [PathMutator.subPathStateMap PathMutator.subPathOrdering
       PathMutator.numCollapsingSubPaths].
  rewrite Hmap. cbn [rbind]. do 2 f_equal.
  rewrite imap_index_seqZ. do 2 f_equal.
  rewrite (filter_Permutation _ _ _ Hperm), filter_below_seqZ, length_seqZ by done. lia.
Qed.

(** X18. Starting from a path without split or collapsing
    sub-paths whose ordering is a permutation of its leaf indices, every
    [addCollapsingSubPath] appends one leaf to the map and the index of
    that leaf to the ordering, and after any number of them
    [deleteCollapsingSubPaths] gives back the path started from. *)
Theorem addCollapsingSubPath_then_delete
    (pm0 pm : PathMutator.t (Calc := Calc)) (k : nat) :
  no_split_roots pm0 →
  PathMutator.subPathOrdering pm0
  ≡ₚ seqZ 0 (countSubPathStates (PathMutator.subPathStateMap pm0)) →
  PathMutator.numCollapsingSubPaths pm0 = 0 →
  collapsing_added pm0 pm k →
  PathMutator.deleteCollapsingSubPaths pm = Ok pm0
  ∧ ∀ point numCommands w pm' w',
      PathMutator.addCollapsingSubPath toSubPaths pm point numCommands w = Ok (pm', w') →
      collapsing_added pm0 pm' (S k).
Proof.
  intros Hroots Hperm Hzero (added & Hlen & Hleaves & Hmap & Hord & Hnum).
  unfold no_split_roots in Hroots.
  assert (flattenSubPathStates (PathMutator.subPathStateMap pm)
          = PathMutator.subPathStateMap pm0 ++ added) as Hflat.
  { rewrite Hmap. apply flatten_leaves. by apply Forall_app. }
  unfold countSubPathStates in Hperm, Hord. rewrite (flatten_leaves _ Hroots) in Hperm, Hord.
  set (n0 := length (PathMutator.subPathStateMap pm0)) in *.
  split.
  - rewrite (deleteCollapsingSubPaths_run pm (n0 + k) k); [|by rewrite Hflat, length_app, Hlen
                                                         | |done|lia].
    + replace (n0 + k - k)%nat with n0 by lia.
      rewrite Hmap. unfold n0 at 1. rewrite take_app_length, Hord, filter_app.
      rewrite filter_all, filter_none, app_nil_r.
      * destruct pm0. cbn in *. by rewrite Hzero.
      * apply Forall_seqZ. lia.
      * rewrite Hperm. apply Forall_seqZ. lia.
    + rewrite Hord, Hperm, Nat2Z.inj_add. by rewrite seqZ_app by lia.
  - intros point numCommands w pm' w' Hrun.
    unfold PathMutator.addCollapsingSubPath, bind, lift, newSubPathState, newCommand,
      uniqueId, ret in Hrun.
    repeat (case_match; simplify_eq/=; try done).
    eexists (added ++ [mkSubPathState _ false 0 _ []]). split_and!.
    + rewrite length_app. cbn. lia.
    + apply Forall_app. split; [done|]. by constructor.
    + cbn. by rewrite Hmap, <- app_assoc.
    + cbn. unfold countSubPathStates.
      rewrite Hflat, (flatten_leaves _ Hroots), Hord, length_app, <- app_assoc.
      f_equal. fold n0. rewrite seqZ_S. do 2 f_equal. lia.
    + cbn. lia.
Qed.
End CollapsingRoundTrip.

Lemma path_revert_restores_identity_ordering_witness :
  PathMutator.revert Ok Examples.threeSubPaths
  = Ok (PathMutator.mk [Examples.twoCommands; Examples.fourCommands] [0; 1] 0).
Proof.
  apply (path_revert_restores_identity_ordering Ok Examples.threeSubPaths 3 1).
  - reflexivity.
  - exact (Permutation_app_comm [2] [0; 1]).
  - reflexivity.
  - lia.
  - reflexivity.
Defined.

Lemma addCollapsingSubPath_then_delete_witness :
  ∃ pm' w',
    PathMutator.addCollapsingSubPath (H := Examples.pointCalculator) Examples.storedSubPaths Examples.twoCommandsPath
      Examples.origin 3 Examples.world0 = Ok (pm', w')
    ∧ collapsing_added Examples.twoCommandsPath pm' 1
    ∧ PathMutator.deleteCollapsingSubPaths pm' = Ok Examples.twoCommandsPath.
Proof.
  assert (no_split_roots Examples.twoCommandsPath) as Hroots by (by repeat constructor).
  assert (collapsing_added Examples.twoCommandsPath Examples.twoCommandsPath 0) as Hnone.
  { exists []. by repeat split. }
  destruct (PathMutator.addCollapsingSubPath (H := Examples.pointCalculator) Examples.storedSubPaths
              Examples.twoCommandsPath Examples.origin 3 Examples.world0)
    as [[pm' w']|] eqn:Hrun; [|vm_compute in Hrun; discriminate].
  exists pm', w'. split; [reflexivity|].
  destruct (addCollapsingSubPath_then_delete (H := Examples.pointCalculator) Examples.storedSubPaths
              Examples.twoCommandsPath Examples.twoCommandsPath 0)
    as [_ Hadd]; [exact Hroots|reflexivity|reflexivity|exact Hnone|].
  pose proof (Hadd _ _ _ _ _ Hrun) as Hone.
  split; [exact Hone|].
  by destruct (addCollapsingSubPath_then_delete (H := Examples.pointCalculator) Examples.storedSubPaths
                 Examples.twoCommandsPath pm' 1) as [Hdel _].
Defined.

(** ** PathMutator: storing a leaf twice *)

Section ForestRoundTrips.
Context {Calc : Type}.

Lemma setStateAll_cons state cmsIdx (s : SubPathState Calc) rest counter :
  PathMutator.setStateAll state cmsIdx (s :: rest) counter
  = ((PathMutator.setStateFn state cmsIdx s counter).1
       :: (PathMutator.setStateAll state cmsIdx rest
             (PathMutator.setStateFn state cmsIdx s counter).2).1,
     (PathMutator.setStateAll state cmsIdx rest
        (PathMutator.setStateFn state cmsIdx s counter).2).2).
Proof.
  cbn [PathMutator.setStateAll].
  destruct (PathMutator.setStateFn state cmsIdx s counter) as [s' c1]. cbn [fst snd].
  by destruct (PathMutator.setStateAll state cmsIdx rest c1).
Qed.

Lemma setStateFn_leaf state cmsIdx (node : SubPathState Calc) counter :
  splitSubPaths node = [] →
  PathMutator.setStateFn state cmsIdx node counter
  = (if counter =? cmsIdx then state else node, counter + 1).
Proof. destruct node as [css rev off id children]. cbn. by intros ->. Qed.

Lemma setStateFn_counter state state' cmsIdx (node : SubPathState Calc) counter :
  (PathMutator.setStateFn state cmsIdx node counter).2
  = (PathMutator.setStateFn state' cmsIdx node counter).2.
Proof.
  by rewrite (proj1 (setStateFn_flatten state cmsIdx node counter)),
             (proj1 (setStateFn_flatten state' cmsIdx node counter)).
Qed.

(** Storing a leaf and then another one at the same index is storing the
    second one. *)
Lemma setStateFn_twice s1 s2 cmsIdx (node : SubPathState Calc) :
  splitSubPaths s1 = [] →
  ∀ counter,
    PathMutator.setStateFn s2 cmsIdx
      (PathMutator.setStateFn s1 cmsIdx node counter).1 counter
    = PathMutator.setStateFn s2 cmsIdx node counter.
Proof.
  intros Hleaf.
  induction node as [css rev off id children IH] using SubPathState_forest_ind.
  intros counter. destruct children as [|c children].
  - rewrite (setStateFn_leaf s1) by done. cbn [fst].
    destruct (counter =? cmsIdx) eqn:Hc; [|done].
    rewrite !setStateFn_leaf by done. by rewrite Hc.
  - assert (∀ forest c0,
              Forall (λ node, ∀ counter,
                        PathMutator.setStateFn s2 cmsIdx
                          (PathMutator.setStateFn s1 cmsIdx node counter).1 counter
                        = PathMutator.setStateFn s2 cmsIdx node counter) forest →
              PathMutator.setStateAll s2 cmsIdx
                (PathMutator.setStateAll s1 cmsIdx forest c0).1 c0
              = PathMutator.setStateAll s2 cmsIdx forest c0) as Hall.
    { clear -Hleaf. intros forest c0 Hall. revert c0.
      induction Hall as [|s forest Hs _ IHf]; intros c0; [done|].
      rewrite (setStateAll_cons s1). cbn [fst].
      rewrite !(setStateAll_cons s2), Hs.
      by rewrite (setStateFn_counter s1 s2), IHf. }
    rewrite (setStateFn_children s1). cbn [fst].
    pose proof (setStateAll_length s1 cmsIdx (c :: children) counter) as Hlen.
    specialize (Hall (c :: children) counter IH).
    destruct (PathMutator.setStateAll s1 cmsIdx (c :: children) counter).1
      as [|c' children'] eqn:Hch; [done|].
    by rewrite !setStateFn_children, Hall.
Qed.

Lemma setStateAll_twice s1 s2 cmsIdx (forest : list (SubPathState Calc)) counter :
  splitSubPaths s1 = [] →
  PathMutator.setStateAll s2 cmsIdx
    (PathMutator.setStateAll s1 cmsIdx forest counter).1 counter
  = PathMutator.setStateAll s2 cmsIdx forest counter.
Proof.
  intros Hleaf. revert counter. induction forest as [|s forest IH]; intros counter; [done|].
  rewrite (setStateAll_cons s1). cbn [fst].
  rewrite !(setStateAll_cons s2), setStateFn_twice by done.
  by rewrite (setStateFn_counter s1 s2), IH.
Qed.



Lemma setSubPathState_twice (pm : PathMutator.t (Calc := Calc)) s1 s2 cmsIdx :
  splitSubPaths s1 = [] →
  PathMutator.setSubPathState (PathMutator.setSubPathState pm s1 cmsIdx) s2 cmsIdx
  = PathMutator.setSubPathState pm s2 cmsIdx.
Proof.
  intros Hleaf. unfold PathMutator.setSubPathState. cbn.
  by rewrite setStateAll_twice.
Qed.

End ForestRoundTrips.

(** ** PathMutator: reversing, unconverting, unsplitting and converting *)

Section SubPathOperations.
Context {Calc : Type} `{Calculator Calc} {ar : Arith}.

Lemma findOrdered_setSubPathState (pm : PathMutator.t (Calc := Calc)) (subIdx cmsIdx : Z)
    (old state : SubPathState Calc) :
  PathMutator.findOrdered pm subIdx = Ok (cmsIdx, old) →
  splitSubPaths state = [] →
  PathMutator.findOrdered (PathMutator.setSubPathState pm state cmsIdx) subIdx
  = Ok (cmsIdx, state).
Proof.
  intros [Hord Hfind]%findOrdered_inv Hleaf. apply findOrdered_Ok; [done|].
  by eapply findSubPathState_setSubPathState.
Qed.

Lemma findOrdered_leaf (pm : PathMutator.t (Calc := Calc)) (subIdx cmsIdx : Z)
    (sps : SubPathState Calc) :
  PathMutator.findOrdered pm subIdx = Ok (cmsIdx, sps) → splitSubPaths sps = [].
Proof.
  intros [_ Hfind]%findOrdered_inv.
  by apply findSubPathState_Some in Hfind as (_ & _ & _ & ?).
Qed.


Lemma imapResult_fixed {A} (f : nat → A → Result A) (l l' : list A) (i : nat) :
  (∀ j a b, f j a = Ok b → f j b = Ok b) →
  imapResult f i l = Ok l' → imapResult f i l' = Ok l'.
Proof.
  intros Hf. revert i l'. induction l as [|a l IH]; intros i l' Hrun.
  - by injection Hrun as <-.
  - cbn in Hrun. unfold rbind in Hrun.
    destruct (f i a) as [b|] eqn:Hb; [|done].
    destruct (imapResult f (S i) l) as [bs|] eqn:Hbs; [|done].
    injection Hrun as <-. cbn. by rewrite (Hf _ _ _ Hb), (IH _ _ Hbs).
Qed.

(** X20. [unconvertSubPath] is idempotent: on the path it returns,
    unconverting the same sub-path again changes nothing. *)
Theorem unconvertSubPath_twice_is_once
    (pm pm' : PathMutator.t (Calc := Calc)) (subIdx : Z) :
  PathMutator.unconvertSubPath pm subIdx = Ok pm' →
  PathMutator.unconvertSubPath pm' subIdx = Ok pm'.
Proof.
  unfold PathMutator.unconvertSubPath, rbind.
  destruct (PathMutator.findOrdered pm subIdx) as [[cmsIdx sps]|] eqn:Hfo; [|done].
  destruct (imapResult _ 0 (commandStates sps)) as [css|] eqn:Hcss; [|done].
  intros [= <-]. pose proof (findOrdered_leaf _ _ _ _ Hfo) as Hleaf.
  rewrite (findOrdered_setSubPathState _ _ _ sps) by done.
  cbn [commandStates SubPathStateMutator.setCommandStates].
  erewrite imapResult_fixed; [| |exact Hcss].
  - by rewrite setSubPathState_twice.
  - intros j a b. destruct (bool_decide (j = 0%nat)); [by intros [= ->]|].
    intros Hb. apply mutate_build in Hb as Hm.
    by rewrite Hm, unconvertSubpath_twice.
Qed.

(** X21. [unsplitCommand] removes one mutation of the command state
    that holds the command (the one before the split index when the
    sub-path is reversed), writes the rebuilt state back in place, lowers
    a non-zero shift offset by one when the command state is at or before
    it, and keeps the reversal and the ordering. *)
Theorem unsplitCommand_moves_shift_pivot_back
    (pm pm' : PathMutator.t (Calc := Calc)) (subIdx cmdIdx : Z)
    (info : PathMutator.CommandStateInfo (Calc := Calc)) (sps : SubPathState Calc) :
  PathMutator.findCommandStateInfo pm subIdx cmdIdx = Ok info →
  findSubPathState (PathMutator.subPathStateMap pm) (PathMutator.info_cmsIdx info)
  = Some sps →
  PathMutator.unsplitCommand pm subIdx cmdIdx = Ok pm' →
  ∃ sps' cs',
    findSubPathState (PathMutator.subPathStateMap pm') (PathMutator.info_cmsIdx info)
    = Some sps'
    ∧ shiftOffset sps'
      = (if bool_decide (shiftOffset sps ≠ 0
                         ∧ Z.of_nat (PathMutator.info_cmIdx info) <= shiftOffset sps)
         then shiftOffset sps - 1 else shiftOffset sps)
    ∧ isReversed sps' = isReversed sps
    ∧ commandStates sps' = <[PathMutator.info_cmIdx info := cs']> (commandStates sps)
    ∧ mutations cs'
      = splice_remove (if isReversed sps then PathMutator.info_splitIdx info - 1
                       else PathMutator.info_splitIdx info)
          (mutations (PathMutator.targetCm info))
    ∧ PathMutator.subPathOrdering pm' = PathMutator.subPathOrdering pm.
Proof.
  intros Hinfo Hsps Hrun. unfold PathMutator.unsplitCommand, rbind in Hrun.
  rewrite Hinfo, Hsps in Hrun. cbn [from_option] in Hrun.
  destruct (build _) as [cs'|] eqn:Hcs; [|done].
  pose proof (findSubPathState_Some _ _ _ Hsps) as (_ & _ & _ & Hleaf).
  set (sps1 := SubPathStateMutator.setCommandState cs' (PathMutator.info_cmIdx info) sps) in *.
  rewrite (findSubPathState_setSubPathState pm sps1 _ sps Hsps) in Hrun by done.
  cbn [from_option] in Hrun.
  apply build_inv in Hcs as (cmds & _ & Hcs').
  assert (mutations cs'
          = splice_remove (if isReversed sps then PathMutator.info_splitIdx info - 1
                           else PathMutator.info_splitIdx info)
              (mutations (PathMutator.targetCm info))) as Hmut by (by rewrite Hcs').
  destruct (negb (shiftOffset sps1 =? 0)
            && (Z.of_nat (PathMutator.info_cmIdx info) <=? shiftOffset sps1)) eqn:Hguard;
    injection Hrun as <-.
  - apply andb_true_iff in Hguard as [Hnz Hle].
    apply negb_true_iff, Z.eqb_neq in Hnz. apply Z.leb_le in Hle.
    eexists _, cs'. split.
    { eapply findSubPathState_setSubPathState; [|done].
      by eapply findSubPathState_setSubPathState. }
    cbn. rewrite bool_decide_eq_true_2 by done. done.
  - eexists _, cs'. split; [by eapply findSubPathState_setSubPathState|].
    cbn. rewrite bool_decide_eq_false_2; [done|].
    intros [Hnz Hle]. apply andb_false_iff in Hguard as [Hg|Hg].
    + apply negb_false_iff, Z.eqb_eq in Hg. done.
    + apply Z.leb_gt in Hg. cbn in Hg. lia.
Qed.

(** X22. [convertCommand] changes the kind of the one mutation that
    the command resolves to, keeps its id and parameter and all other
    mutations, and writes the rebuilt command state back in place; the
    number of commands, the ordering and the count of collapsing
    sub-paths stay. *)
Theorem convertCommand_converts_one_segment
    (pm pm' : PathMutator.t (Calc := Calc)) (subIdx cmdIdx : Z) (svgChar : SvgChar.t)
    (info : PathMutator.CommandStateInfo (Calc := Calc)) (sps : SubPathState Calc) :
  PathMutator.findCommandStateInfo pm subIdx cmdIdx = Ok info →
  findSubPathState (PathMutator.subPathStateMap pm) (PathMutator.info_cmsIdx info)
  = Some sps →
  PathMutator.convertCommand pm subIdx cmdIdx svgChar = Ok pm' →
  ∃ cs' mu,
    findSubPathState (PathMutator.subPathStateMap pm') (PathMutator.info_cmsIdx info)
    = Some (SubPathStateMutator.setCommandState cs' (PathMutator.info_cmIdx info) sps)
    ∧ at_index (mutations (PathMutator.targetCm info)) (PathMutator.info_splitIdx info)
      = Some mu
    ∧ mutations cs'
      = <[Z.to_nat (PathMutator.info_splitIdx info)
          := mkMutation (mut_id mu) (mut_t mu) svgChar]>
          (mutations (PathMutator.targetCm info))
    ∧ length (getCommands cs') = length (mutations (PathMutator.targetCm info))
    ∧ PathMutator.subPathOrdering pm' = PathMutator.subPathOrdering pm
    ∧ PathMutator.numCollapsingSubPaths pm' = PathMutator.numCollapsingSubPaths pm.
Proof.
  intros Hinfo Hsps Hrun. unfold PathMutator.convertCommand, rbind in Hrun.
  rewrite Hinfo, Hsps in Hrun. cbn [from_option] in Hrun.
  unfold convertAtIndex in Hrun.
  destruct (at_index _ (PathMutator.info_splitIdx info)) as [mu|] eqn:Hmu; [|done].
  destruct (build _) as [cs'|] eqn:Hcs; [|done]. injection Hrun as <-.
  pose proof (findSubPathState_Some _ _ _ Hsps) as (_ & _ & _ & Hleaf).
  pose proof (build_fields _ _ Hcs) as (_ & Hm & _ & _ & _ & Hlen).
  exists cs', mu. split_and!; try done.
  - by eapply findSubPathState_setSubPathState.
  - unfold getCommands. rewrite Hlen, Hm. cbn. by rewrite length_insert.
Qed.
End SubPathOperations.


Lemma unconvertSubPath_twice_is_once_witness :
  ∃ pm', PathMutator.unconvertSubPath (H := Examples.pointCalculator)
           Examples.twoCommandsPath 0 = Ok pm'
         ∧ PathMutator.unconvertSubPath (H := Examples.pointCalculator) pm' 0 = Ok pm'.
Proof.
  destruct (PathMutator.unconvertSubPath (H := Examples.pointCalculator)
              Examples.twoCommandsPath 0) as [pm'|] eqn:Hrun;
    [|vm_compute in Hrun; discriminate].
  exists pm'. split; [reflexivity|].
  exact (unconvertSubPath_twice_is_once (H := Examples.pointCalculator)
           Examples.twoCommandsPath pm' 0 Hrun).
Defined.

Lemma unsplitCommand_moves_shift_pivot_back_witness :
  ∃ pm' sps' cs',
    PathMutator.unsplitCommand (H := Examples.pointCalculator)
      Examples.shiftedSplitPath 0 2 = Ok pm'
    ∧ findSubPathState (PathMutator.subPathStateMap pm') 0 = Some sps'
    ∧ shiftOffset sps' = 1
    ∧ commandStates sps' = [Examples.moveState; cs']
    ∧ mut_id <$> mutations cs' = ["2"; "a"].
Proof.
  destruct (PathMutator.findCommandStateInfo Examples.shiftedSplitPath 0 2)
    as [info|] eqn:Hinfo; [|vm_compute in Hinfo; discriminate].
  destruct (PathMutator.unsplitCommand (H := Examples.pointCalculator)
              Examples.shiftedSplitPath 0 2) as [pm'|] eqn:Hrun;
    [|vm_compute in Hrun; discriminate].
  destruct (unsplitCommand_moves_shift_pivot_back (H := Examples.pointCalculator)
              Examples.shiftedSplitPath pm' 0 2 info Examples.shiftedSplit)
    as (sps' & cs' & Hfind & Hshift & _ & Hstates & Hmuts & _);
    [exact Hinfo| |exact Hrun|].
  - vm_compute in Hinfo. injection Hinfo as <-. reflexivity.
  - vm_compute in Hinfo. injection Hinfo as <-.
    exists pm', sps', cs'. split_and!; [reflexivity|exact Hfind|exact Hshift|exact Hstates|].
    by rewrite Hmuts.
Defined.

Lemma convertCommand_converts_one_segment_witness :
  ∃ pm' cs',
    PathMutator.convertCommand (H := Examples.pointCalculator)
      Examples.splitLinePath 0 1 SvgChar.C = Ok pm'
    ∧ findSubPathState (PathMutator.subPathStateMap pm') 0
      = Some (SubPathStateMutator.setCommandState cs' 1 Examples.splitLineSubPath)
    ∧ mut_svgChar <$> mutations cs' = [SvgChar.C; SvgChar.L; SvgChar.L]
    ∧ length (getCommands cs') = 3%nat.
Proof.
  destruct (PathMutator.findCommandStateInfo Examples.splitLinePath 0 1)
    as [info|] eqn:Hinfo; [|vm_compute in Hinfo; discriminate].
  destruct (PathMutator.convertCommand (H := Examples.pointCalculator)
              Examples.splitLinePath 0 1 SvgChar.C) as [pm'|] eqn:Hrun;
    [|vm_compute in Hrun; discriminate].
  destruct (convertCommand_converts_one_segment (H := Examples.pointCalculator)
              Examples.splitLinePath pm' 0 1 SvgChar.C info Examples.splitLineSubPath)
    as (cs' & mu & Hfind & Hmu & Hmuts & Hlen & _);
    [exact Hinfo| |exact Hrun|].
  - vm_compute in Hinfo. injection Hinfo as <-. reflexivity.
  - vm_compute in Hinfo. injection Hinfo as <-.
    exists pm', cs'. split_and!; [reflexivity|exact Hfind| |exact Hlen].
    rewrite Hmuts. cbn in Hmu. injection Hmu as <-. reflexivity.
Defined.

(** ** PathMutator: resolving a command index, and the errors of build *)

Section ResolveProperties.
Context {Calc : Type}.

Lemma findTarget_resolves (cmsIdx idx : Z) (cms : list (CommandState Calc)) :
  ∀ counter cmIdx,
    counter <= idx < counter + countCommands cms →
    ∃ info, PathMutator.findTarget cmsIdx idx cms counter cmIdx = Ok info
            ∧ PathMutator.info_cmsIdx info = cmsIdx
            ∧ 0 <= PathMutator.info_splitIdx info
            ∧ cms !! (PathMutator.info_cmIdx info - cmIdx)%nat
              = Some (PathMutator.targetCm info)
            ∧ (cmIdx ≤ PathMutator.info_cmIdx info)%nat
            ∧ at_index (getCommands (PathMutator.targetCm info))
                (PathMutator.info_splitIdx info)
              = (cms ≫= getCommands) !! Z.to_nat (idx - counter)
            ∧ is_Some (at_index (getCommands (PathMutator.targetCm info))
                         (PathMutator.info_splitIdx info)).
Proof.
  induction cms as [|cm cms IH]; intros counter cmIdx Hidx.
  - rewrite countCommands_nil in Hidx. lia.
  - rewrite countCommands_cons in Hidx. cbn [PathMutator.findTarget].
    rewrite bind_cons. unfold getCommands at 1 2.
    destruct (idx <? counter + Z.of_nat (length (commands cm))) eqn:Hlt.
    + apply Z.ltb_lt in Hlt. eexists. split; [done|]. cbn.
      rewrite Nat.sub_diag. split_and!; try done; try lia.
      * unfold at_index. rewrite (proj2 (Z.ltb_ge _ _)) by lia.
        rewrite lookup_app_l; [done|]. unfold getCommands. lia.
      * unfold at_index. rewrite (proj2 (Z.ltb_ge _ _)) by lia.
        apply lookup_lt_is_Some_2. unfold getCommands. lia.
    + apply Z.ltb_ge in Hlt.
      destruct (IH (counter + Z.of_nat (length (commands cm))) (S cmIdx))
        as (info & Hrun & Hc & Hs & Hcm & Hle & Hat & Hsome); [lia|].
      exists info. split_and!; try done; try lia.
      * replace (PathMutator.info_cmIdx info - cmIdx)%nat
          with (S (PathMutator.info_cmIdx info - S cmIdx)) by lia. done.
      * rewrite Hat, lookup_app_r by (unfold getCommands; lia).
        f_equal. unfold getCommands. lia.
Qed.

Lemma findTarget_throws (cmsIdx idx : Z) (cms : list (CommandState Calc)) :
  ∀ counter cmIdx,
    counter + countCommands cms <= idx →
    PathMutator.findTarget cmsIdx idx cms counter cmIdx
    = Err (Thrown "Error retrieving command mutation").
Proof.
  induction cms as [|cm cms IH]; intros counter cmIdx Hidx; [done|].
  rewrite countCommands_cons in Hidx. cbn [PathMutator.findTarget].
  unfold getCommands.
  assert (0 <= countCommands cms) as Hnn.
  { clear. induction cms as [|c cms IH]; [done|]. rewrite countCommands_cons. lia. }
  rewrite (proj2 (Z.ltb_ge _ _)) by lia. apply IH. lia.
Qed.

(** X23. On a sub-path that is not shifted, an index below the
    number of commands resolves: the command state and split index found
    name the stored command at that index, or, on a reversed sub-path and
    for an index other than 0, at the number of commands minus the
    index. *)
Theorem findCommandStateInfo_resolves_stored_command
    (pm : PathMutator.t (Calc := Calc)) (subIdx cmdIdx cmsIdx : Z)
    (sps : SubPathState Calc) :
  PathMutator.findOrdered pm subIdx = Ok (cmsIdx, sps) →
  shiftOffset sps = 0 →
  0 <= cmdIdx < numCommandsInSubPath sps →
  ∃ info,
    PathMutator.findCommandStateInfo pm subIdx cmdIdx = Ok info
    ∧ PathMutator.info_cmsIdx info = cmsIdx
    ∧ commandStates sps !! PathMutator.info_cmIdx info = Some (PathMutator.targetCm info)
    ∧ at_index (getCommands (PathMutator.targetCm info)) (PathMutator.info_splitIdx info)
      = (commandStates sps ≫= getCommands)
          !! Z.to_nat (if negb (cmdIdx =? 0) && isReversed sps
                       then numCommandsInSubPath sps - cmdIdx else cmdIdx)
    ∧ is_Some (at_index (getCommands (PathMutator.targetCm info))
                 (PathMutator.info_splitIdx info)).
Proof.
  intros Hfo Hoff Hidx. unfold PathMutator.findCommandStateInfo, rbind.
  rewrite Hfo, Hoff, Z.add_0_r.
  set (idx := if negb (cmdIdx =? 0) && isReversed sps
              then numCommandsInSubPath sps - cmdIdx else cmdIdx).
  assert (0 <= idx < numCommandsInSubPath sps) as Hrange.
  { unfold idx. destruct (cmdIdx =? 0) eqn:H0; cbn; [lia|].
    apply Z.eqb_neq in H0. destruct (isReversed sps); lia. }
  rewrite (proj2 (Z.leb_gt _ _)) by lia.
  destruct (findTarget_resolves cmsIdx idx (commandStates sps) 0 0)
    as (info & -> & Hc & _ & Hcm & _ & Hat & Hsome); [done|].
  exists info. rewrite Nat.sub_0_r in Hcm. rewrite Z.sub_0_r in Hat. done.
Qed.

(** X24. On a sub-path of [N] commands that is neither shifted nor
    reversed, an index from [N] to [2N - 2] wraps around to the command
    at the index minus [N - 1]; from [2N - 1] on [findCommandStateInfo]
    throws "Error retrieving command mutation". *)
Theorem findCommandStateInfo_wraps_then_throws
    (pm : PathMutator.t (Calc := Calc)) (subIdx cmdIdx cmsIdx : Z)
    (sps : SubPathState Calc) :
  PathMutator.findOrdered pm subIdx = Ok (cmsIdx, sps) →
  shiftOffset sps = 0 → isReversed sps = false →
  numCommandsInSubPath sps <= cmdIdx →
  (cmdIdx < 2 * numCommandsInSubPath sps - 1 →
   ∃ info,
     PathMutator.findCommandStateInfo pm subIdx cmdIdx = Ok info
     ∧ at_index (getCommands (PathMutator.targetCm info)) (PathMutator.info_splitIdx info)
       = (commandStates sps ≫= getCommands)
           !! Z.to_nat (cmdIdx - (numCommandsInSubPath sps - 1)))
  ∧ (2 * numCommandsInSubPath sps - 1 <= cmdIdx →
     PathMutator.findCommandStateInfo pm subIdx cmdIdx
     = Err (Thrown "Error retrieving command mutation")).
Proof.
  intros Hfo Hoff Hrev Hidx. unfold PathMutator.findCommandStateInfo, rbind.
  rewrite Hfo, Hoff, Hrev, Z.add_0_r, andb_false_r.
  rewrite (proj2 (Z.leb_le _ _)) by lia.
  assert (0 <= numCommandsInSubPath sps) as Hnn.
  { unfold numCommandsInSubPath. generalize (commandStates sps). clear.
    induction l as [|c l IH]; [done|]. cbn. unfold sum in IH. lia. }
  split; intros Hwrap.
  - destruct (findTarget_resolves cmsIdx (cmdIdx - (numCommandsInSubPath sps - 1))
                (commandStates sps) 0 0)
      as (info & -> & _ & _ & _ & _ & Hat & _).
    { change (countCommands (commandStates sps)) with (numCommandsInSubPath sps). lia. }
    exists info. by rewrite Z.sub_0_r in Hat.
  - apply findTarget_throws.
    change (countCommands (commandStates sps)) with (numCommandsInSubPath sps). lia.
Qed.
End ResolveProperties.

Lemma findCommandStateInfo_resolves_stored_command_witness :
  ∃ info,
    PathMutator.findCommandStateInfo Examples.splitLinePath 0 2 = Ok info
    ∧ at_index (getCommands (PathMutator.targetCm info)) (PathMutator.info_splitIdx info)
      = Some (Examples.builtLine "2" true).
Proof.
  destruct (findCommandStateInfo_resolves_stored_command Examples.splitLinePath 0 2 0
              Examples.splitLineSubPath) as (info & Hinfo & _ & _ & Hcmd & _).
  - reflexivity.
  - reflexivity.
  - vm_compute. split; [discriminate|reflexivity].
  - exists info. split; [exact Hinfo|]. rewrite Hcmd. reflexivity.
Defined.

Lemma findCommandStateInfo_wraps_then_throws_witness :
  (∃ info,
     PathMutator.findCommandStateInfo Examples.splitLinePath 0 5 = Ok info
     ∧ at_index (getCommands (PathMutator.targetCm info)) (PathMutator.info_splitIdx info)
       = Some (Examples.builtLine "2" true))
  ∧ PathMutator.findCommandStateInfo Examples.splitLinePath 0 7
    = Err (Thrown "Error retrieving command mutation").
Proof.
  split.
  - destruct (findCommandStateInfo_wraps_then_throws Examples.splitLinePath 0 5 0
                Examples.splitLineSubPath) as [Hwrap _];
      [reflexivity|reflexivity|reflexivity|vm_compute; discriminate|].
    destruct Hwrap as (info & Hinfo & Hcmd); [vm_compute; reflexivity|].
    exists info. split; [exact Hinfo|]. rewrite Hcmd. reflexivity.
  - destruct (findCommandStateInfo_wraps_then_throws Examples.splitLinePath 0 7 0
                Examples.splitLineSubPath) as [_ Hthrow];
      [reflexivity|reflexivity|reflexivity|vm_compute; discriminate|].
    apply Hthrow. vm_compute. discriminate.
Defined.

Section BuildErrors.
Context {Calc : Type}.
Variable toSubPathCommands : SubPathState Calc → list Command.

Lemma reorder_dangling (subPathCmds : list (list Command)) (ordering : list Z) :
  Exists (λ i, at_index subPathCmds i = None) ordering →
  PathMutator.reorder subPathCmds ordering = Err TypeError.
Proof.
  induction 1 as [i l Hi|i l _ IH]; cbn [PathMutator.reorder].
  - by rewrite Hi.
  - destruct (at_index subPathCmds i); [|done]. by rewrite IH.
Qed.

(** X25. [PathMutator.build] succeeds when every entry of the
    ordering names a leaf, and the snapshot then carries the state map,
    the ordering and the count of collapsing sub-paths unchanged; it
    throws a TypeError when some entry names no leaf. *)
Theorem build_throws_on_dangling_ordering (pm : PathMutator.t (Calc := Calc)) :
  (Forall (λ i, is_Some (findSubPathState (PathMutator.subPathStateMap pm) i))
          (PathMutator.subPathOrdering pm) →
   ∃ path, PathMutator.build toSubPathCommands pm = Ok path
           ∧ PathMutator.path_subPathStateMap path = PathMutator.subPathStateMap pm
           ∧ PathMutator.path_subPathOrdering path = PathMutator.subPathOrdering pm
           ∧ PathMutator.path_numCollapsingSubPaths path
             = PathMutator.numCollapsingSubPaths pm)
  ∧ (Exists (λ i, findSubPathState (PathMutator.subPathStateMap pm) i = None)
            (PathMutator.subPathOrdering pm) →
     PathMutator.build toSubPathCommands pm = Err TypeError).
Proof.
  split.
  - intros [path Hpath]%(build_returns toSubPathCommands). exists path.
    split; [done|]. unfold PathMutator.build, rbind in Hpath.
    destruct (PathMutator.reorder _ _); [|done]. by injection Hpath as <-.
  - intros Hex. unfold PathMutator.build. rewrite reorder_dangling; [done|].
    eapply Exists_impl; [exact Hex|]. intros i Hi. cbn in Hi.
    unfold findSubPathState, at_index in *. destruct (i <? 0); [done|].
    by rewrite list_lookup_fmap, Hi.
Qed.
End BuildErrors.

Lemma build_throws_on_dangling_ordering_witness :
  PathMutator.build Examples.storedCommands Examples.danglingPath = Err TypeError
  ∧ ∃ path, PathMutator.build Examples.storedCommands Examples.threeSubPaths = Ok path
            ∧ PathMutator.path_subPathOrdering path = [2; 0; 1].
Proof.
  split.
  - apply (build_throws_on_dangling_ordering Examples.storedCommands Examples.danglingPath).
    apply Exists_cons_tl, Exists_cons_hd. reflexivity.
  - destruct (build_throws_on_dangling_ordering Examples.storedCommands
                Examples.threeSubPaths) as [Hbuilds _].
    destruct Hbuilds as (path & Hpath & _ & Hord & _).
    + repeat constructor; by eexists.
    + by exists path.
Defined.

(** ** PathMutator: what build keeps *)

Section BuildKeeps.
Context {Calc : Type}.
Variable toSubPathCommands : SubPathState Calc → list Command.

Lemma relink_keeps (prev : Command) (cmds : list Command) :
  identity_of <$> PathMutator.relink prev cmds = identity_of <$> cmds
  ∧ pointsAfterFirst <$> PathMutator.relink prev cmds = pointsAfterFirst <$> cmds.
Proof.
  revert prev. induction cmds as [|cmd cmds IH]; intros prev; [done|].
  cbn [PathMutator.relink]. rewrite !fmap_cons.
  destruct (IH (setPoints (PathMutator.setFirst (getEnd prev) (getPoints cmd)) cmd))
    as [-> ->].
  split; [done|]. f_equal. unfold pointsAfterFirst, getPoints. cbn.
  by destruct (cmd_points cmd).
Qed.

(** X26. [PathMutator.build] gives the commands of the reordered
    sub-paths with their kind, id and split flag; of every command but
    the first it keeps all points after the first one, and of the first
    command it keeps the end point. *)
Theorem build_rewrites_first_points_only (pm : PathMutator.t (Calc := Calc))
    (path : PathMutator.Path (Calc := Calc)) :
  PathMutator.build toSubPathCommands pm = Ok path →
  ∃ reordered,
    PathMutator.reorder
      (toSubPathCommands <$> flattenSubPathStates (PathMutator.subPathStateMap pm))
      (PathMutator.subPathOrdering pm) = Ok reordered
    ∧ identity_of <$> PathMutator.path_commands path = identity_of <$> concat reordered
    ∧ pointsAfterFirst <$> drop 1 (PathMutator.path_commands path)
      = pointsAfterFirst <$> drop 1 (concat reordered)
    ∧ (getEnd <$> head (PathMutator.path_commands path)
       = getEnd <$> head (concat reordered)).
Proof.
  unfold PathMutator.build, rbind.
  destruct (PathMutator.reorder _ _) as [reordered|]; [|done].
  intros [= <-]. exists reordered. split; [done|]. cbn.
  destruct (concat reordered) as [|cmd cmds]; [done|].
  cbn [PathMutator.repairContinuity].
  set (first := match getStart cmd with Some _ => _ | None => _ end).
  destruct (relink_keeps first cmds) as [Hid Hpts].
  split_and!.
  - rewrite !fmap_cons, Hid. f_equal. subst first. by destruct (getStart cmd).
  - exact Hpts.
  - subst first. by destruct (getStart cmd).
Qed.
End BuildKeeps.

Lemma build_rewrites_first_points_only_witness :
  ∃ path,
    PathMutator.build Examples.storedCommands Examples.twoCommandsPath = Ok path
    ∧ identity_of <$> PathMutator.path_commands path
      = identity_of <$> [Examples.moveCmd; Examples.lineCmd]
    ∧ getEnd <$> PathMutator.path_commands path = [Some Examples.origin; Some Examples.origin].
Proof.
  destruct (PathMutator.build Examples.storedCommands Examples.twoCommandsPath)
    as [path|] eqn:Hrun; [|vm_compute in Hrun; discriminate].
  exists path. split; [reflexivity|].
  destruct (build_rewrites_first_points_only Examples.storedCommands
              Examples.twoCommandsPath path Hrun) as (reordered & Hre & Hid & _ & _).
  vm_compute in Hre. injection Hre as <-.
  split; [exact Hid|]. vm_compute in Hrun. by injection Hrun as <-.
Defined.

(** ** PathMutator: joining a split sub-path *)

Section UnsplitSubPathProperties.
Context {Calc : Type} `{Calculator Calc} {ar : Arith}.

Lemma recurseFn_unfold (cmsIdx : option Z) (p : SubPathState Calc) (counter : Z)
    (updatedParentNode : option (SubPathState Calc)) (w : World) :
  PathMutator.recurseFn cmsIdx p counter updatedParentNode w
  = recurseStates cmsIdx p (splitSubPaths p) counter updatedParentNode w.
Proof.
  destruct p as [css rev off id children]. cbn [PathMutator.recurseFn splitSubPaths].
  match goal with
  | |- ?f children counter updatedParentNode w = _ =>
      assert (∀ l c u w',
                f l c u w'
                = recurseStates cmsIdx (mkSubPathState css rev off id children) l c u w')
        as Hloop
  end.
  { induction l as [|state rest IH]; intros c u w'; [done|].
    cbn [recurseStates]. destruct (negb (isSplit state)).
    - destruct (bool_decide (cmsIdx = Some c)); [done|]. apply IH.
    - unfold bind. destruct (PathMutator.recurseFn cmsIdx state c u w') as [[r w1]|]; [|done].
      apply IH. }
  apply Hloop.
Qed.

Lemma recurseStates_miss (cmsIdx : option Z) (p : SubPathState Calc)
    (states : list (SubPathState Calc)) :
  Forall (λ state, ∀ counter u w,
            (∀ n, 0 <= n < nestedLeaves state → cmsIdx ≠ Some (counter + n)) →
            PathMutator.recurseFn cmsIdx state counter u w
            = Ok ((counter + nestedLeaves state, u), w)) states →
  ∀ counter u w,
    (∀ n, 0 <= n < Z.of_nat (length (flattenSubPathStates states)) →
          cmsIdx ≠ Some (counter + n)) →
    recurseStates cmsIdx p states counter u w
    = Ok ((counter + Z.of_nat (length (flattenSubPathStates states)), u), w).
Proof.
  induction 1 as [|state rest Hstate _ IH]; intros counter u w Hmiss.
  - cbn. unfold ret. do 3 f_equal. lia.
  - cbn [recurseStates]. unfold flattenSubPathStates in *.
    rewrite bind_cons, length_app in *.
    destruct (isSplit state) eqn:Hsplit; cbn [negb].
    + unfold bind. rewrite Hstate.
      * cbn [fst snd]. rewrite IH.
        -- unfold nestedLeaves. rewrite Hsplit. do 3 f_equal. lia.
        -- intros n Hn. unfold nestedLeaves. rewrite Hsplit.
           replace (counter + Z.of_nat (length (flattenNode state)) + n)
             with (counter + (Z.of_nat (length (flattenNode state)) + n)) by lia.
           apply Hmiss. lia.
      * intros n Hn. apply Hmiss. unfold nestedLeaves in Hn. rewrite Hsplit in Hn. lia.
    + assert (flattenNode state = [state]) as Hflat.
      { apply flattenNode_of_leaf. unfold isSplit in Hsplit.
        apply bool_decide_eq_false in Hsplit. by destruct (splitSubPaths state); [|destruct Hsplit]. }
      rewrite Hflat in *. cbn [length] in *.
      rewrite bool_decide_eq_false_2.
      * rewrite IH.
        -- do 3 f_equal. lia.
        -- intros n Hn. replace (counter + 1 + n) with (counter + (1 + n)) by lia.
           apply Hmiss. lia.
      * specialize (Hmiss 0). rewrite Z.add_0_r in Hmiss. apply Hmiss. lia.
Qed.

Lemma recurseFn_miss (cmsIdx : option Z) (p : SubPathState Calc) :
  ∀ counter u w,
    (∀ n, 0 <= n < nestedLeaves p → cmsIdx ≠ Some (counter + n)) →
    PathMutator.recurseFn cmsIdx p counter u w = Ok ((counter + nestedLeaves p, u), w).
Proof.
  induction p as [css rev off id children IH] using SubPathState_forest_ind.
  intros counter u w Hmiss. rewrite recurseFn_unfold. cbn [splitSubPaths].
  destruct children as [|c children].
  - cbn. unfold ret, nestedLeaves. cbn. do 3 f_equal. lia.
  - assert (nestedLeaves (mkSubPathState css rev off id (c :: children))
            = Z.of_nat (length (flattenSubPathStates (c :: children)))) as Hn.
    { unfold nestedLeaves, isSplit. cbn [splitSubPaths].
      by rewrite bool_decide_eq_true_2, flattenNode_children. }
    rewrite Hn in *. by apply recurseStates_miss.
Qed.

(** X27. [unsplitSubPath] throws a TypeError unless the ordering
    entry names a leaf nested in the first root of the forest: in
    particular for a position outside the ordering, and for a sub-path
    that was never split. *)
Theorem unsplitSubPath_throws_outside_first_root
    (pm : PathMutator.t (Calc := Calc)) (subIdx : Z) (root : SubPathState Calc)
    (rest : list (SubPathState Calc)) (w : World) :
  PathMutator.subPathStateMap pm = root :: rest →
  (∀ cmsIdx, at_index (PathMutator.subPathOrdering pm) subIdx = Some cmsIdx →
             cmsIdx < 0 ∨ nestedLeaves root <= cmsIdx) →
  PathMutator.unsplitSubPath pm subIdx w = Err TypeError.
Proof.
  intros Hmap Hout. unfold PathMutator.unsplitSubPath, bind.
  rewrite Hmap. cbn [length PathMutator.unsplitLoop lookup list_lookup].
  unfold bind. rewrite recurseFn_miss; [done|].
  intros n Hn Hc. destruct (Hout _ Hc); lia.
Qed.
End UnsplitSubPathProperties.

Lemma unsplitSubPath_throws_outside_first_root_witness :
  PathMutator.unsplitSubPath (H := Examples.pointCalculator)
    Examples.twoCommandsPath 0 Examples.world0 = Err TypeError.
Proof.
  apply (unsplitSubPath_throws_outside_first_root (H := Examples.pointCalculator)
           Examples.twoCommandsPath 0 Examples.twoCommands []).
  - reflexivity.
  - intros cmsIdx [= <-]. right. vm_compute. discriminate.
Defined.

Section RejoinRoundTrip.
Context {Calc : Type} `{Calculator Calc} {ar : Arith}.

Lemma strokeLoop_after (cmIdx : nat) (splitIdx : Z) (css : list (CommandState Calc)) :
  ∀ i start end_ w,
    (cmIdx < i)%nat →
    PathMutator.strokeLoop cmIdx splitIdx i css start end_ w
    = Ok ((start, end_ ++ css), w).
Proof.
  induction css as [|cs css IH]; intros i start end_ w Hi.
  - cbn. by rewrite app_nil_r.
  - cbn [PathMutator.strokeLoop].
    rewrite (proj2 (Nat.ltb_ge _ _)), (proj2 (Nat.ltb_lt _ _)) by lia.
    rewrite IH by lia. by rewrite <- app_assoc.
Qed.

Lemma strokeLoop_inv (cmIdx : nat) (splitIdx : Z) (cs : CommandState Calc)
    (post : list (CommandState Calc)) :
  ∀ pre i start end_ w res w',
    (i + length pre = cmIdx)%nat →
    PathMutator.strokeLoop cmIdx splitIdx i (pre ++ cs :: post) start end_ w
    = Ok (res, w') →
    ∃ target l r,
      at_index (getCommands cs) splitIdx = Some target
      ∧ fork cs splitIdx = Ok (l, r)
      ∧ res = (start ++ pre ++ [l],
               end_ ++ newCommandState
                         (mkCommand SvgChar.M [getEnd target; getEnd target] false
                            (pretty (N.succ (idCounter w))))
                    :: (if bool_decide (getCommands r ≠ []) then [r] else []) ++ post)
      ∧ w' = mkWorld (N.succ (idCounter w)) (console w).
Proof.
  induction pre as [|c pre IH]; intros i start end_ w res w' Hi Hrun.
  - cbn [app PathMutator.strokeLoop] in Hrun. cbn in Hi.
    rewrite (proj2 (Nat.ltb_ge _ _)), (proj2 (Nat.ltb_ge _ _)) in Hrun by lia.
    unfold bind, lift in Hrun.
    destruct (at_index (getCommands cs) splitIdx) as [target|]; [|done].
    cbn [from_option] in Hrun.
    destruct (fork cs splitIdx) as [[l r]|]; [|done].
    unfold newCommand, bind, uniqueId, ret in Hrun. cbn [idCounter console] in Hrun.
    rewrite strokeLoop_after in Hrun by lia. injection Hrun as <- <-.
    exists target, l, r. split_and!; try done.
    f_equal. case_bool_decide; by rewrite <- !app_assoc.
  - cbn [app PathMutator.strokeLoop length] in Hrun, Hi.
    rewrite (proj2 (Nat.ltb_lt _ _)) in Hrun by lia.
    apply IH in Hrun as (target & l & r & Ht & Hf & -> & ->); [|lia].
    exists target, l, r. split_and!; try done. by rewrite <- !app_assoc.
Qed.

Lemma joinSplitSubPaths_after_fork
    (p first second : SubPathState Calc) (pre post : list (CommandState Calc))
    (cs l r seam : CommandState Calc) (splitIdx : Z) (w : World) :
  splitSubPaths p = [first; second] →
  commandStates first = pre ++ [l] →
  commandStates second = seam :: r :: post →
  fork cs splitIdx = Ok (l, r) →
  StronglySorted Qclt (mut_t <$> mutations cs) →
  NoDup (mut_id <$> mutations cs) →
  (minT l <= minT r)%Qc → (maxT l <= maxT r)%Qc →
  build (mutate cs) = Ok cs →
  PathMutator.joinSplitSubPaths p w
  = Ok (SubPathStateMutator.setSplitSubPaths []
          (SubPathStateMutator.setCommandStates (pre ++ [cs] ++ post) p), w).
Proof.
  intros Hp Hfirst Hsecond Hfork Hasc Hids Hlo Hhi Hbuilt.
  unfold PathMutator.joinSplitSubPaths. rewrite Hp. cbn [lookup list_lookup].
  unfold bind, lift. cbn [from_option]. rewrite Hfirst, Hsecond.
  rewrite last_snoc. cbn [from_option lookup list_lookup].
  pose proof (fork_inv _ _ _ _ Hfork) as (mu & _ & Hl & Hr).
  apply build_inv in Hl as (cl & _ & Hl), Hr as (cr & _ & Hr).
  assert (backingCommand l = backingCommand r) as Hback by (by rewrite Hl, Hr).
  rewrite Hback, bool_decide_eq_true_2 by done.
  rewrite (fork_merge_mutate cs l r splitIdx w) by done.
  rewrite Hbuilt. unfold ret. do 3 f_equal.
  rewrite length_app. cbn [length]. rewrite Nat.add_sub, take_app_length. done.
Qed.

Lemma single_leaf_find (root : SubPathState Calc) :
  splitSubPaths root = [] → findSubPathState [root] 0 = Some root.
Proof.
  intros Hleaf. unfold findSubPathState, flattenSubPathStates.
  by rewrite bind_cons, flattenNode_of_leaf.
Qed.

Lemma single_leaf_set (root state : SubPathState Calc) (ordering : list Z) (n : Z) :
  splitSubPaths root = [] →
  PathMutator.setSubPathState (PathMutator.mk [root] ordering n) state 0
  = PathMutator.mk [state] ordering n.
Proof.
  intros Hleaf. unfold PathMutator.setSubPathState.
  cbn [PathMutator.subPathStateMap PathMutator.subPathOrdering
       PathMutator.numCollapsingSubPaths].
  by rewrite setStateAll_cons, setStateFn_leaf.
Qed.

(** X28. On a path of one undivided sub-path,
    [splitStrokedSubPath] at a command that is not the last of its
    command state, followed by [unsplitSubPath] of either half, gives the
    path back, when the command state is what [build] gives from its own
    mutator, its mutations ascend strictly by parameter within the range
    of the state and their ids are distinct. *)
Theorem splitStrokedSubPath_then_unsplitSubPath
    (root : SubPathState Calc) (numCollapsing cmdIdx subIdx : Z)
    (info : PathMutator.CommandStateInfo (Calc := Calc)) (mu : Mutation)
    (pm1 : PathMutator.t (Calc := Calc)) (w w1 : World) :
  splitSubPaths root = [] →
  PathMutator.findCommandStateInfo (PathMutator.mk [root] [0] numCollapsing) 0 cmdIdx
  = Ok info →
  build (mutate (PathMutator.targetCm info)) = Ok (PathMutator.targetCm info) →
  StronglySorted Qclt (mut_t <$> mutations (PathMutator.targetCm info)) →
  NoDup (mut_id <$> mutations (PathMutator.targetCm info)) →
  at_index (mutations (PathMutator.targetCm info)) (PathMutator.info_splitIdx info)
  = Some mu →
  (minT (PathMutator.targetCm info) <= mut_t mu)%Qc →
  (mut_t mu <= maxT (PathMutator.targetCm info))%Qc →
  PathMutator.info_splitIdx info + 1
  < Z.of_nat (length (mutations (PathMutator.targetCm info))) →
  PathMutator.splitStrokedSubPath (PathMutator.mk [root] [0] numCollapsing) 0 cmdIdx w
  = Ok (pm1, w1) →
  subIdx = 0 ∨ subIdx = 1 →
  PathMutator.unsplitSubPath pm1 subIdx w1
  = Ok (PathMutator.mk [root] [0] numCollapsing, w1).
Proof.
  intros Hleaf Hinfo Hbuilt Hasc Hids Hmu Hlo Hhi Hright Hrun HsubIdx.
  destruct (findCommandStateInfo_inv _ _ _ _ Hinfo) as (sps & Hfo & Hcm).
  apply findOrdered_inv in Hfo as [Hord Hfind].
  cbn in Hord. injection Hord as Hcms.
  cbn [PathMutator.subPathStateMap] in Hfind.
  rewrite <- Hcms, single_leaf_find in Hfind by done. injection Hfind as <-.
  unfold PathMutator.splitStrokedSubPath, bind, lift in Hrun.
  rewrite Hinfo in Hrun. cbn [from_option PathMutator.subPathStateMap] in Hrun.
  rewrite <- Hcms, single_leaf_find in Hrun by done. cbn [from_option] in Hrun.
  set (cs := PathMutator.targetCm info) in *.
  set (cmIdx := PathMutator.info_cmIdx info) in *.
  set (splitIdx := PathMutator.info_splitIdx info) in *.
  pose proof (take_drop_middle _ _ _ Hcm) as Hcss.
  set (pre := take cmIdx (commandStates root)) in *.
  set (post := drop (S cmIdx) (commandStates root)) in *.
  rewrite <- Hcss in Hrun.
  destruct (PathMutator.strokeLoop _ _ _ _ _ _ w) as [[[start end_] w2]|] eqn:Hloop; [|done].
  apply strokeLoop_inv in Hloop as (target & l & r & Htarget & Hfork & [= -> ->] & ->).
  2:{ unfold pre, cmIdx. rewrite length_take.
      apply lookup_lt_Some in Hcm. lia. }
  pose proof (fork_inv _ _ _ _ Hfork) as (mu' & Hmu' & Hl & Hr).
  rewrite Hmu in Hmu'. injection Hmu' as <-.
  pose proof (build_fields _ _ Hl) as (_ & Hml & _ & Hminl & Hmaxl & Hlenl).
  pose proof (build_fields _ _ Hr) as (_ & Hmr & _ & Hminr & Hmaxr & Hlenr).
  cbn in Hml, Hminl, Hmaxl, Hmr, Hminr, Hmaxr.
  assert (getCommands r ≠ []) as Hrne.
  { unfold getCommands. intros Hnil. rewrite Hnil, Hmr in Hlenr. cbn in Hlenr.
    rewrite length_drop in Hlenr. unfold at_index in Hmu.
    destruct (splitIdx <? 0) eqn:Hneg; [done|]. apply Z.ltb_ge in Hneg. lia. }
  rewrite bool_decide_eq_true_2 in Hrun by done.
  unfold uniqueId, ret in Hrun. cbn [idCounter console] in Hrun.
  rewrite single_leaf_set in Hrun by done.
  cbn [PathMutator.subPathStateMap PathMutator.subPathOrdering
       PathMutator.numCollapsingSubPaths length app] in Hrun.
  injection Hrun as <- <-.
  change (Z.of_nat 1) with 1.
  set (seam := newCommandState (mkCommand SvgChar.M [getEnd target; getEnd target] false
                                  (pretty (N.succ (idCounter w))))).
  set (first := SubPathStateMutator.setId (pretty (N.succ (N.succ (idCounter w))))
                  (SubPathStateMutator.setSplitSubPaths []
                     (SubPathStateMutator.setCommandStates (pre ++ [l]) root))).
  set (second := SubPathStateMutator.setId
                   (pretty (N.succ (N.succ (N.succ (idCounter w)))))
                   (SubPathStateMutator.setSplitSubPaths []
                      (SubPathStateMutator.setCommandStates (seam :: r :: post) root))).
  set (root' := SubPathStateMutator.setSplitSubPaths [first; second] root).
  set (w1 := mkWorld (N.succ (N.succ (N.succ (idCounter w)))) (console w)).
  assert (PathMutator.joinSplitSubPaths root' w1 = Ok (root, w1)) as Hjoin.
  { rewrite (joinSplitSubPaths_after_fork root' first second pre post cs l r seam splitIdx);
      try done.
    - do 2 f_equal. change (pre ++ [cs] ++ post) with (pre ++ cs :: post).
      rewrite Hcss. destruct root as [css rev off id children].
      cbn in Hleaf. by subst children.
    - by rewrite Hminl, Hminr.
    - by rewrite Hmaxl, Hmaxr. }
  unfold PathMutator.unsplitSubPath, bind.
  cbn [PathMutator.subPathStateMap PathMutator.subPathOrdering
       PathMutator.numCollapsingSubPaths length PathMutator.unsplitLoop
       lookup list_lookup].
  unfold bind. rewrite recurseFn_unfold.
  assert (recurseStates (at_index [0; 1] subIdx) root' (splitSubPaths root') 0 None w1
          = Ok ((subIdx + 1, Some root), w1)) as ->.
  { assert (splitSubPaths root' = [first; second]) as -> by done.
    assert (isSplit first = false) as Hf by done.
    assert (isSplit second = false) as Hs by done.
    cbn [recurseStates]. rewrite Hf, Hs. cbn [negb]. unfold bind.
    destruct HsubIdx as [-> | ->].
    - rewrite bool_decide_eq_true_2 by done. by rewrite Hjoin.
    - rewrite bool_decide_eq_false_2 by done.
      rewrite bool_decide_eq_true_2 by done. by rewrite Hjoin. }
  cbn [fst snd PathMutator.updateParentFn sps_id].
  rewrite bool_decide_eq_true_2 by (by destruct root).
  unfold ret. do 2 f_equal.
  destruct HsubIdx as [-> | ->]; done.
Qed.
End RejoinRoundTrip.

Lemma splitStrokedSubPath_then_unsplitSubPath_witness :
  ∃ pm1 w1,
    PathMutator.splitStrokedSubPath (H := Examples.pointCalculator)
      Examples.splitLinePath 0 1 Examples.world0 = Ok (pm1, w1)
    ∧ PathMutator.subPathOrdering pm1 = [0; 1]
    ∧ PathMutator.unsplitSubPath (H := Examples.pointCalculator) pm1 1 w1
      = Ok (Examples.splitLinePath, w1).
Proof.
  destruct (PathMutator.findCommandStateInfo Examples.splitLinePath 0 1)
    as [info|] eqn:Hinfo; [|vm_compute in Hinfo; discriminate].
  destruct (PathMutator.splitStrokedSubPath (H := Examples.pointCalculator)
              Examples.splitLinePath 0 1 Examples.world0) as [[pm1 w1]|] eqn:Hrun;
    [|vm_compute in Hrun; discriminate].
  exists pm1, w1. split; [reflexivity|]. split.
  { vm_compute in Hrun. by injection Hrun as <- <-. }
  assert (info = PathMutator.mkInfo Examples.threeSplits 0 1 0) as ->.
  { vm_compute in Hinfo. by injection Hinfo as <-. }
  apply (splitStrokedSubPath_then_unsplitSubPath (H := Examples.pointCalculator)
           Examples.splitLineSubPath 0 1 1 _ (mkMutation "1" Examples.t03 SvgChar.L)
           _ Examples.world0 w1 eq_refl Hinfo).
  - vm_compute. reflexivity.
  - cbn. repeat constructor; qc_order.
  - apply (bool_decide_unpack _). vm_compute. reflexivity.
  - reflexivity.
  - qc_order.
  - qc_order.
  - cbn. lia.
  - exact Hrun.
  - by right.
Defined.
